(** * Flattening kernel: curved-detector to flat-detector resampling

    A shallow embedding of the two C kernels
    [src/flattening/interpolate.c] ([interpolation_loop]) and
    [src/flattening/c_library/interpolate.c] ([interp_loop]), and the
    properties of the kernel stated over it.

    Conventions of the embedding.
    - [int] is a 32-bit two's-complement integer, carried as a [Z] in
      [[-2^31, 2^31)].  C leaves signed overflow undefined: a [+], [-] or
      [*] of the source on [int]s whose mathematical result is not an
      [int] is the error [None] of the kernel ([Int32.checked]).
    - [double] and [float] are IEEE-754 binary64 and binary32, carried as
      [spec_float] and computed with the operations of [SpecFloat]
      (round to nearest, ties to even).  [spec_float] has a single NaN:
      the sign, the payload and the signalling bit of a NaN are not
      tracked, and an equation between NaNs says no more than "a NaN".
    - The conversion [(int)d] of a [double] truncates toward zero.  C
      defines it when the integral part fits an [int] (C11 6.3.1.4,
      [F64.to_int]); for the other values (NaN, infinities, an integral
      part outside [int]) the kernel is taken as compiled for x86-64,
      whose conversion instruction then yields [INT_MIN], the "integer
      indefinite" value ([F64.cast_int]).
    - [proj], [normalized_angles] and [out] are three separate buffers
      (lists); a read or a write outside a buffer is the error [None]
      as well.
      [proj] and [normalized_angles] are [const] in the source: they are
      arguments only and never part of the state. *)

From Stdlib Require Import ZArith Bool Lia Floats.SpecFloat.
From stdpp Require Import base option list.

Local Open Scope Z_scope.

(** ** 32-bit signed integers *)

Module Int32.

Definition min_signed : Z := - 2 ^ 31.
Definition max_signed : Z := 2 ^ 31 - 1.

Definition in_range (z : Z) : Prop := min_signed <= z <= max_signed.

(** The result of an operation whose mathematical value is [z]. *)
Definition checked (z : Z) : option Z :=
  if (min_signed <=? z) && (z <=? max_signed) then Some z else None.

Definition add (a b : Z) : option Z := checked (a + b).
Definition sub (a b : Z) : option Z := checked (a - b).
Definition mul (a b : Z) : option Z := checked (a * b).

End Int32.

(** ** Floating-point formats *)

Definition float64 : Type := spec_float.
Definition float32 : Type := spec_float.

(** Classification of a float: a number (zero or finite), its sign bit,
    and the negative zero. *)
Definition is_finite (x : spec_float) : bool :=
  match x with
  | S754_zero _ | S754_finite _ _ _ => true
  | _ => false
  end.

Definition sign_bit (x : spec_float) : bool :=
  match x with
  | S754_zero s | S754_infinity s | S754_finite s _ _ => s
  | S754_nan => false
  end.

Definition is_negative_zero (x : spec_float) : bool :=
  match x with
  | S754_zero true => true
  | _ => false
  end.

(** The value of a number in units of [2^E]: an integer as soon as [E] is
    at most its exponent.  Infinities and NaN are given [0]. *)
Definition scaled_at (E : Z) (x : spec_float) : Z :=
  match x with
  | S754_finite s m e => cond_Zopp s (Z.pos m) * 2 ^ (e - E)
  | _ => 0
  end.

Module F32.

Definition prec : Z := 24.
Definition emax : Z := 128.

(** The value of a [float] in units of [2^-149], the smallest positive
    [float]: every finite [float] is an integer number of them. *)
Definition scaled (v : float32) : Z := scaled_at (-149) v.

(** Membership in the format: what a [float] object can hold. *)
Definition valid (v : float32) : Prop := valid_binary prec emax v = true.

End F32.

Module F64.

Definition prec : Z := 53.
Definition emax : Z := 1024.

Definition valid (x : float64) : Prop := valid_binary prec emax x = true.

Definition add : float64 -> float64 -> float64 := SFadd prec emax.
Definition sub : float64 -> float64 -> float64 := SFsub prec emax.
Definition mul : float64 -> float64 -> float64 := SFmul prec emax.

(** The literal [1.0]. *)
Definition one : float64 := SFone prec emax.

(** The literal [0.5]. *)
Definition half : float64 := S754_finite false 4503599627370496 (-53).

(** [(double)i] for an [int] [i]: exact, every [int] is a [double]. *)
Definition of_int (i : Z) : float64 := binary_normalize prec emax i 0 false.

(** [floor] of [math.h]: the largest integral value not greater than [x];
    zeros, infinities and NaN are returned as they are.  A finite [x]
    with a non-negative exponent is integral already; otherwise the
    mantissa is divided by the power of two, rounding down. *)
Definition floor (x : float64) : float64 :=
  match x with
  | S754_finite s m e =>
      if 0 <=? e then x
      else binary_normalize prec emax
             (Z.shiftr (cond_Zopp s (Z.pos m)) (- e)) 0 false
  | _ => x
  end.

(** The integral part of a finite [double], truncated toward zero. *)
Definition trunc (x : float64) : option Z :=
  match x with
  | S754_zero _ => Some 0
  | S754_finite s m e =>
      Some (cond_Zopp s (if 0 <=? e then Z.shiftl (Z.pos m) e
                         else Z.shiftr (Z.pos m) (- e)))
  | _ => None
  end.

(** [(int)x] where C defines it: when the integral part fits an [int]. *)
Definition to_int (x : float64) : option Z :=
  z ← trunc x;
  if (Int32.min_signed <=? z) && (z <=? Int32.max_signed) then Some z else None.

(** [(int)x] as the kernel executes it: the integral part when it fits an
    [int], and [INT_MIN] for every other [x] (NaN, infinities, an integral
    part out of range), as the conversion instruction of x86-64 gives. *)
Definition cast_int (x : float64) : Z := default Int32.min_signed (to_int x).

(** [(double)v] for a [float] [v]: exact widening. *)
Definition of_single (v : float32) : float64 :=
  match v with
  | S754_finite s m e => binary_normalize prec emax (cond_Zopp s (Z.pos m)) e s
  | _ => v
  end.

(** [(float)x]: narrowing, rounded to nearest even, overflow to infinity. *)
Definition to_single (x : float64) : float32 :=
  match x with
  | S754_finite s m e =>
      binary_normalize F32.prec F32.emax (cond_Zopp s (Z.pos m)) e s
  | _ => x
  end.

End F64.

Arguments Int32.checked : simpl never.
Arguments Int32.add : simpl never.
Arguments Int32.sub : simpl never.
Arguments Int32.mul : simpl never.
Arguments F64.add : simpl never.
Arguments F64.sub : simpl never.
Arguments F64.mul : simpl never.
Arguments F64.one : simpl never.
Arguments F64.half : simpl never.
Arguments scaled_at : simpl never.
Arguments F32.scaled : simpl never.
Arguments F64.of_int : simpl never.
Arguments F64.floor : simpl never.
Arguments F64.trunc : simpl never.
Arguments F64.to_int : simpl never.
Arguments F64.cast_int : simpl never.
Arguments F64.of_single : simpl never.
Arguments F64.to_single : simpl never.

(** ** Buffers *)

Section Buffer.
Context {A : Type}.

(** [buf[off]] as an rvalue. *)
Definition load (buf : list A) (off : Z) : option A :=
  if off <? 0 then None else buf !! Z.to_nat off.

(** [buf[off] = v]. *)
Definition store (buf : list A) (off : Z) (v : A) : option (list A) :=
  if (0 <=? off) && (off <? Z.of_nat (length buf))
  then Some (<[Z.to_nat off := v]> buf)
  else None.

End Buffer.

(** The output volume is reached through [write_out] only.  The kernel is
    written once over this interface and run on two instances: the plain
    buffer, and the buffer paired with the log of the offsets stored to, in
    program order (a ghost of the execution, used to count the writes). *)

Class OutputBuffer (S : Type) : Type :=
  write_out : S -> Z -> float32 -> option S.

#[export] Instance plain_buffer : OutputBuffer (list float32) :=
  fun out off v => store out off v.

Record traced : Type := Traced { contents : list float32; stores : list Z }.

#[export] Instance traced_buffer : OutputBuffer traced :=
  fun s off v =>
    out ← store (contents s) off v;
    Some (Traced out (stores s ++ [off])).

(** ** Counted loops

    [for (int k = 0; k < n; k++) body(k)], threading the state [S] and
    stopping at the first error. *)

Definition range (n : Z) : list Z := seqZ 0 n.

Definition for_each {I S : Type} (body : I -> S -> option S)
    (items : list I) (s : S) : option S :=
  foldl (fun acc k => acc ≫= body k) (Some s) items.

(** An iteration that stores the value [value k] at the offset [addr k],
    both independent of the output volume. *)
Definition scatter {K S : Type} `{!OutputBuffer S}
    (value : K -> option float32) (addr : K -> Z) (k : K) (s : S) : option S :=
  v ← value k; write_out s (addr k) v.

(** The iteration space of the three nested loops, in program order. *)
Definition iteration_space (num_proj num_rows num_cols : Z) : list (Z * Z * Z) :=
  i ← range num_proj; r ← range num_rows; j ← range num_cols; [(i, r, j)].

(** ** The kernel of [src/flattening/interpolate.c] *)

Module Flattening.
Section Kernel.

Variable proj : list float32.
Variable normalized_angles : list float64.
Variables num_proj num_rows orig_num_detectors num_cols : Z.

(** [(i * num_rows + r) * width]: the offset of row [(i, r)] in a volume
    of rows of [width] elements (lines 38 and 39). *)
Definition row_base (width i r : Z) : option Z :=
  a ← Int32.mul i num_rows;
  k ← Int32.add a r;
  Int32.mul k width.

Section Body.
Context {S : Type} `{!OutputBuffer S}.

(** Lines 33-52: the body of the innermost loop. *)
Definition loop_body (i r j : Z) (out : S) : option S :=
  x ← load normalized_angles j;
  let idx := F64.cast_int (F64.floor x) in
  let t := F64.sub x (F64.of_int idx) in
  proj_offset ← row_base orig_num_detectors i r;
  out_offset ← row_base num_cols i r;
  if idx <? 0 then
    v ← load proj proj_offset;
    o ← Int32.add out_offset j;
    write_out out o v
  else
    last ← Int32.sub orig_num_detectors 1;
    if last <=? idx then
      e ← Int32.add proj_offset orig_num_detectors;
      e ← Int32.sub e 1;
      v ← load proj e;
      o ← Int32.add out_offset j;
      write_out out o v
    else
      e0 ← Int32.add proj_offset idx;
      v0 ← load proj e0;
      e1 ← Int32.add e0 1;
      v1 ← load proj e1;
      o ← Int32.add out_offset j;
      write_out out o
        (F64.to_single
           (F64.add (F64.mul (F64.sub F64.one t) (F64.of_single v0))
                    (F64.mul t (F64.of_single v1)))).

(** Lines 27-55, executed by one thread in program order. *)
Definition kernel (out : S) : option S :=
  for_each (fun i =>
    for_each (fun r =>
      for_each (fun j => loop_body i r j) (range num_cols))
    (range num_rows))
  (range num_proj) out.


End Body.

Definition interpolation_loop (out : list float32) : option (list float32) :=
  kernel out.

Definition interpolation_loop_traced (out : list float32) : option traced :=
  kernel (Traced out []).

(** The element offsets of the body: [out_offset + j] (lines 43, 46 and
    51) and [proj_offset + orig_num_detectors - 1] (line 46). *)
Definition out_element (i r j : Z) : option Z :=
  out_offset ← row_base num_cols i r;
  Int32.add out_offset j.

Definition last_element (i r : Z) : option Z :=
  proj_offset ← row_base orig_num_detectors i r;
  e ← Int32.add proj_offset orig_num_detectors;
  Int32.sub e 1.

(** The value stored by iteration [(i, r, j)], when all of its [int]
    operations and reads are defined, and the offset it is then stored
    at. *)
Definition cell_value (i r j : Z) : option float32 :=
  x ← load normalized_angles j;
  let idx := F64.cast_int (F64.floor x) in
  let t := F64.sub x (F64.of_int idx) in
  proj_offset ← row_base orig_num_detectors i r;
  out_offset ← row_base num_cols i r;
  if idx <? 0 then
    v ← load proj proj_offset;
    _ ← Int32.add out_offset j;
    Some v
  else
    last ← Int32.sub orig_num_detectors 1;
    if last <=? idx then
      e ← Int32.add proj_offset orig_num_detectors;
      e ← Int32.sub e 1;
      v ← load proj e;
      _ ← Int32.add out_offset j;
      Some v
    else
      e0 ← Int32.add proj_offset idx;
      v0 ← load proj e0;
      e1 ← Int32.add e0 1;
      v1 ← load proj e1;
      _ ← Int32.add out_offset j;
      Some (F64.to_single
              (F64.add (F64.mul (F64.sub F64.one t) (F64.of_single v0))
                       (F64.mul t (F64.of_single v1)))).

Definition cell_offset (i r j : Z) : Z := (i * num_rows + r) * num_cols + j.

Definition iteration_value (k : Z * Z * Z) : option float32 :=
  let '(i, r, j) := k in cell_value i r j.

Definition iteration_offset (k : Z * Z * Z) : Z :=
  let '(i, r, j) := k in cell_offset i r j.

End Kernel.
End Flattening.

(** ** The kernel of [src/flattening/c_library/interpolate.c] *)

Module CLibrary.
Section Kernel.

Variable proj : list float32.
Variable normalized_angles : list float64.
Variables num_angles num_rows orig_num_detectors num_cols : Z.

(** [(i * num_rows + r) * width], lines 29 and 30. *)
Definition row_base (width i r : Z) : option Z :=
  a ← Int32.mul i num_rows;
  k ← Int32.add a r;
  Int32.mul k width.

(** Lines 24-43. *)
Definition loop_body (i r j : Z) (out : list float32) : option (list float32) :=
  x ← load normalized_angles j;
  let idx := F64.cast_int (F64.floor x) in
  let t := F64.sub x (F64.of_int idx) in
  proj_offset ← row_base orig_num_detectors i r;
  out_offset ← row_base num_cols i r;
  if idx <? 0 then
    v ← load proj proj_offset;
    o ← Int32.add out_offset j;
    store out o v
  else
    last ← Int32.sub orig_num_detectors 1;
    if last <=? idx then
      e ← Int32.add proj_offset orig_num_detectors;
      e ← Int32.sub e 1;
      v ← load proj e;
      o ← Int32.add out_offset j;
      store out o v
    else
      e0 ← Int32.add proj_offset idx;
      v0 ← load proj e0;
      e1 ← Int32.add e0 1;
      v1 ← load proj e1;
      o ← Int32.add out_offset j;
      store out o
        (F64.to_single
           (F64.add (F64.mul (F64.sub F64.one t) (F64.of_single v0))
                    (F64.mul t (F64.of_single v1)))).

(** Lines 18-46. *)
Definition interp_loop (out : list float32) : option (list float32) :=
  for_each (fun i =>
    for_each (fun r =>
      for_each (fun j => loop_body i r j) (range num_cols))
    (range num_rows))
  (range num_angles) out.

End Kernel.
End CLibrary.

(** ** The kernel as the specification words it

    Section 4.1: the volumes are three-dimensional arrays indexed
    [[p][r][d]], stored row-major; offsets here are mathematical integers. *)

Module Spec.
Section Spec.

Variable proj : list float32.
Variable normalized_angles : list float64.
Variables num_proj num_rows orig_num_detectors num_cols : Z.

(** [proj[p][r][d]] *)
Definition proj_at (p r d : Z) : option float32 :=
  load proj ((p * num_rows + r) * orig_num_detectors + d).

(** The place of [out[p][r][j]] in the output buffer. *)
Definition out_index (p r j : Z) : Z := (p * num_rows + r) * num_cols + j.

(** [floor(x)] of a number [x], as a mathematical integer. *)
Definition floor (x : float64) : Z := scaled_at (-1074) x / 2 ^ 1074.

(** The positions whose index is an [int]: the numbers [x] with
    [-2^31 <= floor(x) < 2^31]. *)
Definition indexable (x : float64) : Prop :=
  is_finite x = true /\ Int32.in_range (floor x).

(** The entries that equal the whole number [k] as a [double]: the
    [double] [k] itself and, for [k = 0], the negative zero. *)
Definition whole (x : float64) (k : Z) : Prop :=
  x = F64.of_int k \/ (k = 0 /\ x = S754_zero true).

(** Steps 2-4 of the per-sample algorithm, for the position [x] and the
    index [idx]. *)
Definition select (p r : Z) (x : float64) (idx : Z) : option float32 :=
  let t := F64.sub x (F64.of_int idx) in
  if idx <? 0 then proj_at p r 0
  else if orig_num_detectors - 1 <=? idx then proj_at p r (orig_num_detectors - 1)
  else
    v0 ← proj_at p r idx;
    v1 ← proj_at p r (idx + 1);
    Some (F64.to_single
            (F64.add (F64.mul (F64.sub F64.one t) (F64.of_single v0))
                     (F64.mul t (F64.of_single v1)))).

(** The element [out[p][r][j]] of the result: steps 1-4 with the index
    the kernel obtains. *)
Definition sample (p r j : Z) : option float32 :=
  x ← load normalized_angles j;
  select p r x (F64.cast_int (F64.floor x)).

(** The data-model invariants of section 3, together with what the
    source needs beyond them: at least one curved-detector column, and
    element counts within the reach of the [int] offsets (line 46 forms
    [proj_offset + orig_num_detectors], at most the number of elements of
    [proj]; the largest offset into [out] is its number of elements less
    one). *)
Record well_formed (out : list float32) : Prop := {
  wf_orig : 1 <= orig_num_detectors;
  wf_proj_count : num_proj * num_rows * orig_num_detectors <= Int32.max_signed;
  wf_out_count : num_proj * num_rows * num_cols <= 2 ^ 31;
  wf_proj_length : num_proj * num_rows * orig_num_detectors <= Z.of_nat (length proj);
  wf_out_length : num_proj * num_rows * num_cols <= Z.of_nat (length out);
  wf_angles_length : Z.of_nat (length normalized_angles) = num_cols
}.

(** The data-model invariants exactly as section 3 lists them: buffers
    large enough for the stated extents, and a table of [num_cols]
    entries.  ([proj] and [out] do not overlap: they are separate lists.) *)
Record data_model (out : list float32) : Prop := {
  dm_proj_length : num_proj * num_rows * orig_num_detectors <= Z.of_nat (length proj);
  dm_out_length : num_proj * num_rows * num_cols <= Z.of_nat (length out);
  dm_angles_length : Z.of_nat (length normalized_angles) = num_cols
}.

End Spec.
End Spec.

(** ** Concrete inputs *)

Module Examples.

(** The [float] and the [double] nearest to [m * 2^e]. *)
Definition single (m e : Z) : float32 :=
  binary_normalize F32.prec F32.emax m e false.

Definition double (m e : Z) : float64 :=
  binary_normalize F64.prec F64.emax m e false.

(** The scenario of section 8, on two rows: four curved-detector columns
    resampled at [-0.5], [1.5] and [3.5]. *)
Definition proj : list float32 :=
  Eval vm_compute in
    [single 1 0; single 2 0; single 3 0; single 4 0;
     single 5 0; single 6 0; single 7 0; single 8 0].

Definition normalized_angles : list float64 :=
  Eval vm_compute in [double (-1) (-1); double 3 (-1); double 7 (-1)].

(** An output volume filled with the NaN sentinel. *)
Definition sentinel : list float32 := replicate 6 S754_nan.

Definition expected : list float32 :=
  Eval vm_compute in
    [single 1 0; single 5 (-1); single 4 0;
     single 5 0; single 13 (-1); single 8 0].

(** The identity mapping on four columns, its first entry the negative
    zero. *)
Definition identity_angles : list float64 :=
  Eval vm_compute in [S754_zero true; F64.of_int 1; F64.of_int 2; F64.of_int 3].

Definition sentinel8 : list float32 := replicate 8 S754_nan.

(** Volumes of [32769] rows of one curved-detector column and [65536]
    output columns: [2^31 + 65536] output elements, past the [int]
    offsets. *)
Definition large_proj : list float32 :=
  replicate (Z.to_nat 32769) (S754_zero false).

Definition large_angles : list float64 :=
  replicate (Z.to_nat 65536) (S754_zero false).

Definition large_out : list float32 :=
  replicate (Z.to_nat (2 ^ 31 + 65536)) S754_nan.

End Examples.

(** ** Rounding, in integer arithmetic *)

Module Rounding.

(** What a shift right by [k] bits has made of the integer [X]: the
    quotient, and the round and sticky bits locating the remainder with
    respect to half of [2^k]. *)
Definition shr_inv (X k : Z) (mrs : shr_record) : Prop :=
  exists rem,
    X = shr_m mrs * 2 ^ k + rem /\ 0 <= rem < 2 ^ k /\ 0 <= shr_m mrs
    /\ shr_r mrs = (2 ^ k <=? 2 * rem)
    /\ shr_s mrs = negb (rem =? 0) && negb (2 * rem =? 2 ^ k).

(** [X / 2^n] rounded to the nearest integer, ties to even. *)
Definition round_shift (X n : Z) : Z :=
  let q := X / 2 ^ n in
  let rem := X mod 2 ^ n in
  if 2 * rem <? 2 ^ n then q
  else if 2 * rem =? 2 ^ n then (if Z.even q then q else q + 1)
  else q + 1.

(** The float of sign [s], mantissa [m] and exponent [e], with overflow to
    infinity. *)
Definition pack (prec emax : Z) (s : bool) (m e : Z) : spec_float :=
  match m with
  | Z0 => S754_zero s
  | Zpos p => if e <=? emax - prec then S754_finite s p e else S754_infinity s
  | Zneg _ => S754_nan
  end.

(** What half of a [float] is, as a [double]: its shape, its value in units
    of [2^-300], and its bound. *)
Definition half_shape (v : float32) (a : float64) : Prop :=
  match a with
  | S754_zero _ => F32.scaled v = 0
  | S754_finite s m e =>
      Z.pos (digits2_pos m) = 53 /\ -202 <= e <= 74
      /\ scaled_at (-300) a = F32.scaled v * 2 ^ 150
      /\ Z.pos m * 2 ^ (e + 300) <= 9007198717870080 * 2 ^ 374
  | _ => False
  end.

End Rounding.

(** ** Rounding to nearest, by its properties *)

Module Nearest.

(** The numbers of a format: its zeros and its finite floats. *)
Definition number (prec emax : Z) (x : spec_float) : Prop :=
  is_finite x = true /\ valid_binary prec emax x = true.

(** [r] is what the exact value [X], in units of [2^E], rounds to in a
    format: [r] stays between any two numbers of the format that enclose
    [X], and when it is a number it is within [2^-prec] of [X], relatively,
    or within half of the smallest positive number. *)
Definition rounded (prec emax E X : Z) (r : spec_float) : Prop :=
  (forall lo hi,
     number prec emax lo -> number prec emax hi ->
     scaled_at E lo <= X <= scaled_at E hi ->
     number prec emax r /\ scaled_at E lo <= scaled_at E r <= scaled_at E hi)
  /\ (is_finite r = true ->
      Z.abs (scaled_at E r - X) * 2 ^ prec
      <= Z.max (Z.abs X) (2 ^ (2 - emax - E))).

End Nearest.

(** * Properties *)

(** ** Counted loops *)

Section ForEach.
Context {I S : Type}.
Implicit Types (body : I -> S -> option S) (items : list I).

Lemma foldl_bind_None body items :
  foldl (fun acc k => acc ≫= body k) None items = None.
Proof. induction items as [|k items IH]; [done | exact IH]. Qed.

Lemma for_each_nil body s : for_each body [] s = Some s.
Proof. done. Qed.

Lemma for_each_cons body k items s :
  for_each body (k :: items) s = body k s ≫= for_each body items.
Proof.
  unfold for_each; simpl.
  destruct (body k s) as [s'|]; simpl; [done | apply foldl_bind_None].
Qed.

Lemma for_each_app body items1 items2 s :
  for_each body (items1 ++ items2) s
  = for_each body items1 s ≫= for_each body items2.
Proof.
  revert s; induction items1 as [|k items1 IH]; intros s; [done|].
  rewrite <- app_comm_cons, !for_each_cons.
  destruct (body k s) as [s'|]; simpl; [apply IH | done].
Qed.

Lemma for_each_ext body1 body2 items s :
  Forall (fun k => forall s', body1 k s' = body2 k s') items ->
  for_each body1 items s = for_each body2 items s.
Proof.
  intros H; revert s; induction H as [|k items Hk _ IH]; intros s; [done|].
  rewrite !for_each_cons, Hk.
  destruct (body2 k s); simpl; [apply IH | done].
Qed.

End ForEach.

Lemma for_each_fmap {I K S : Type} (body : K -> S -> option S) (f : I -> K)
    (items : list I) (s : S) :
  for_each (fun a => body (f a)) items s = for_each body (f <$> items) s.
Proof.
  revert s; induction items as [|a items IH]; intros s; [done|].
  rewrite fmap_cons, !for_each_cons.
  destruct (body (f a) s); simpl; [apply IH | done].
Qed.

Lemma for_each_bind {I K S : Type} (body : K -> S -> option S) (h : I -> list K)
    (items : list I) (s : S) :
  for_each (fun a => for_each body (h a)) items s = for_each body (items ≫= h) s.
Proof.
  revert s; induction items as [|a items IH]; intros s; [done|].
  rewrite bind_cons, for_each_cons, for_each_app.
  destruct (for_each body (h a) s); simpl; [apply IH | done].
Qed.

(** The three nested loops are one loop over the iteration space. *)
Lemma nested_loops_flatten {S : Type} (body : Z -> Z -> Z -> S -> option S)
    (P R C : Z) (s : S) :
  for_each (fun i => for_each (fun r => for_each (fun j => body i r j) (range C))
                       (range R)) (range P) s
  = for_each (fun '(i, r, j) => body i r j) (iteration_space P R C) s.
Proof.
  unfold iteration_space.
  rewrite <- for_each_bind. apply for_each_ext, Forall_forall; intros i _ s1.
  rewrite <- for_each_bind. apply for_each_ext, Forall_forall; intros r _ s2.
  rewrite <- for_each_bind. apply for_each_ext, Forall_forall; intros j _ s3.
  rewrite for_each_cons. by destruct (body i r j s3).
Qed.

(** ** Buffers *)

Section BufferFacts.
Context {A : Type}.
Implicit Types (buf : list A) (off : Z) (v : A).

Lemma store_Some buf off v buf' :
  store buf off v = Some buf' <->
  0 <= off < Z.of_nat (length buf) /\ buf' = <[Z.to_nat off := v]> buf.
Proof.
  unfold store.
  destruct (Z.leb_spec 0 off), (Z.ltb_spec off (Z.of_nat (length buf))); simpl.
  1: split; [intros [= <-]; split; [lia | done] | by intros [_ ->]].
  all: split; [done | intros [? _]; lia].
Qed.

Lemma store_is_Some buf off v :
  0 <= off < Z.of_nat (length buf) -> is_Some (store buf off v).
Proof. intros H. eexists. apply store_Some. eauto. Qed.


Lemma load_Some buf off v :
  load buf off = Some v <-> 0 <= off /\ buf !! Z.to_nat off = Some v.
Proof.
  unfold load. destruct (Z.ltb_spec off 0).
  - split; [done | intros [? _]; lia].
  - split; [intros ?; split; [lia | done] | by intros [_ ?]].
Qed.

Lemma load_is_Some buf off :
  0 <= off < Z.of_nat (length buf) -> is_Some (load buf off).
Proof.
  intros H. unfold load. destruct (Z.ltb_spec off 0); [lia|].
  apply lookup_lt_is_Some. lia.
Qed.

Lemma load_store_eq buf off v buf' :
  store buf off v = Some buf' -> load buf' off = Some v.
Proof.
  intros [Hoff ->]%store_Some. apply load_Some. split; [lia|].
  apply list_lookup_insert_eq. lia.
Qed.

Lemma store_length buf off v buf' :
  store buf off v = Some buf' -> length buf' = length buf.
Proof. intros [_ ->]%store_Some. apply length_insert. Qed.

Lemma store_frame buf off v buf' (n : nat) :
  store buf off v = Some buf' -> off <> Z.of_nat n -> buf' !! n = buf !! n.
Proof.
  intros [Hoff ->]%store_Some Hne. apply list_lookup_insert_ne. lia.
Qed.

Lemma load_Forall (Q : A -> Prop) buf off v :
  Forall Q buf -> load buf off = Some v -> Q v.
Proof.
  intros HQ [_ Hv]%load_Some. rewrite Forall_forall in HQ. apply HQ.
  by eapply list_elem_of_lookup_2.
Qed.

End BufferFacts.

(** ** Scattering loops

    A loop whose iterations store values that do not depend on the output
    volume, as the kernel's do. *)

Section Scatter.
Context {K : Type} (value : K -> option float32) (addr : K -> Z).
Implicit Types (items : list K) (out : list float32).

Lemma scatter_plain_cons k items out out' :
  for_each (scatter value addr) (k :: items) out = Some out' <->
  exists v out1, value k = Some v /\ store out (addr k) v = Some out1 /\
                 for_each (scatter value addr) items out1 = Some out'.
Proof.
  rewrite for_each_cons.
  change (scatter value addr k out) with (value k ≫= store out (addr k)).
  destruct (value k) as [v|]; simpl.
  - destruct (store out (addr k) v) as [out1|] eqn:Hst; simpl.
    + split; [eauto | intros (? & ? & ? & ? & ?); by simplify_eq].
    + split; [done | intros (? & ? & ? & ? & _); by simplify_eq].
  - split; [done | by intros (? & ? & ? & _)].
Qed.

Lemma scatter_length items out out' :
  for_each (scatter value addr) items out = Some out' ->
  length out' = length out.
Proof.
  revert out; induction items as [|k items IH]; intros out.
  - by intros [= <-].
  - intros (v & out1 & _ & Hst & Hrest)%scatter_plain_cons.
    rewrite (IH _ Hrest). by eapply store_length.
Qed.

(** An offset no iteration addresses keeps its element. *)
Lemma scatter_frame items out out' (n : nat) :
  for_each (scatter value addr) items out = Some out' ->
  (forall k, k ∈ items -> addr k <> Z.of_nat n) ->
  out' !! n = out !! n.
Proof.
  revert out; induction items as [|k items IH]; intros out.
  - by intros [= <-].
  - intros (v & out1 & _ & Hst & Hrest)%scatter_plain_cons Hn.
    rewrite (IH _ Hrest); [|intros; apply Hn; by right].
    eapply store_frame; [done|]. apply Hn. by left.
Qed.

(** Every iteration of a successful loop had a value and an offset inside
    the buffer. *)
Lemma scatter_Some_inv items out out' k :
  for_each (scatter value addr) items out = Some out' -> k ∈ items ->
  is_Some (value k) /\ 0 <= addr k < Z.of_nat (length out).
Proof.
  revert out; induction items as [|k0 items IH]; intros out.
  - intros _ H. by apply elem_of_nil in H.
  - intros (v & out1 & Hv & Hst & Hrest)%scatter_plain_cons
      [->|Hin]%elem_of_cons.
    + split; [eauto|]. by apply store_Some in Hst as [? _].
    + rewrite <- (store_length _ _ _ _ Hst). by eapply IH.
Qed.

(** With distinct offsets, the element at an iteration's offset is that
    iteration's value. *)
Lemma scatter_lookup items out out' k :
  for_each (scatter value addr) items out = Some out' ->
  NoDup (addr <$> items) -> k ∈ items ->
  load out' (addr k) = value k.
Proof.
  revert out; induction items as [|k0 items IH]; intros out.
  - intros _ _ H. by apply elem_of_nil in H.
  - intros (v & out1 & Hv & Hst & Hrest)%scatter_plain_cons.
    rewrite fmap_cons. intros [Hnotin Hnd]%NoDup_cons [->|Hin]%elem_of_cons.
    + rewrite Hv. apply load_Some.
      pose proof Hst as [Hoff _]%store_Some. split; [lia|].
      rewrite (scatter_frame _ _ _ _ Hrest).
      * apply load_store_eq in Hst. by apply load_Some in Hst as [_ ?].
      * intros k Hk Heq. apply Hnotin. apply list_elem_of_fmap.
        exists k. split; [lia | done].
    + by eapply IH.
Qed.

(** The loop succeeds when every iteration has a value and an offset
    inside the buffer. *)
Lemma scatter_is_Some items out :
  (forall k, k ∈ items ->
     is_Some (value k) /\ 0 <= addr k < Z.of_nat (length out)) ->
  is_Some (for_each (scatter value addr) items out).
Proof.
  revert out; induction items as [|k items IH]; intros out H.
  - by eexists.
  - destruct (H k) as [[v Hv] Hoff]; [by left|].
    destruct (store_is_Some out (addr k) v Hoff) as [out1 Hst].
    destruct (IH out1) as [out' Hout'].
    { intros k' Hk'. rewrite (store_length _ _ _ _ Hst). apply H. by right. }
    exists out'. apply scatter_plain_cons. eauto 6.
Qed.

(** The traced run is the plain run, with the offsets of the iterations
    appended to the log in order. *)
Lemma scatter_traced items out log :
  for_each (scatter value addr) items (Traced out log)
  = out' ← for_each (scatter value addr) items out;
    Some (Traced out' (log ++ (addr <$> items))).
Proof.
  revert out log; induction items as [|k items IH]; intros out log.
  - simpl. by rewrite app_nil_r.
  - rewrite !for_each_cons.
    change (scatter value addr k out) with (value k ≫= store out (addr k)).
    change (scatter value addr k (Traced out log))
      with (value k ≫= fun v => out1 ← store out (addr k) v;
                                Some (Traced out1 (log ++ [addr k]))).
    destruct (value k) as [v|]; simpl; [|done].
    destruct (store out (addr k) v) as [out1|]; simpl; [|done].
    rewrite IH, <- app_assoc. done.
Qed.

(** An iteration that fails on every buffer fails the whole loop,
    wherever it stands. *)
Lemma scatter_fails items out k :
  k ∈ items -> (forall buf : list float32, scatter value addr k buf = None) ->
  for_each (scatter value addr) items out = None.
Proof.
  intros Hin Hfail. revert out.
  induction items as [|k0 items IH]; intros out.
  - by apply elem_of_nil in Hin.
  - rewrite for_each_cons. apply elem_of_cons in Hin as [->|Hin].
    + by rewrite Hfail.
    + destruct (scatter value addr k0 out) as [out1|]; [|done].
      by apply IH.
Qed.



End Scatter.

(** ** 32-bit arithmetic *)

Section Int32Facts.
Import Int32.

Lemma checked_Some (z z' : Z) : checked z = Some z' <-> z' = z /\ in_range z.
Proof.
  unfold checked, in_range.
  destruct (Z.leb_spec min_signed z), (Z.leb_spec z max_signed); simpl;
    split; try (intros [= <-]; split; [done | lia]); try done;
    try (intros [-> ?]; done); intros [_ ?]; lia.
Qed.

Lemma checked_exact (z : Z) : in_range z -> checked z = Some z.
Proof. intros. by apply checked_Some. Qed.

Lemma checked_None (z : Z) : checked z = None <-> ~ in_range z.
Proof.
  split.
  - intros Hnone Hr. by rewrite (checked_exact z Hr) in Hnone.
  - intros Hno. destruct (checked z) as [z'|] eqn:Hz; [|done].
    apply checked_Some in Hz as [_ ?]. done.
Qed.

Lemma int32_add_Some (a b c : Z) : add a b = Some c -> c = a + b /\ in_range (a + b).
Proof. apply checked_Some. Qed.

Lemma int32_sub_Some (a b c : Z) : sub a b = Some c -> c = a - b /\ in_range (a - b).
Proof. apply checked_Some. Qed.

Lemma int32_mul_Some (a b c : Z) : mul a b = Some c -> c = a * b /\ in_range (a * b).
Proof. apply checked_Some. Qed.

Lemma int32_add_exact (a b : Z) : in_range (a + b) -> add a b = Some (a + b).
Proof. apply checked_exact. Qed.

Lemma int32_sub_exact (a b : Z) : in_range (a - b) -> sub a b = Some (a - b).
Proof. apply checked_exact. Qed.

Lemma int32_mul_exact (a b : Z) : in_range (a * b) -> mul a b = Some (a * b).
Proof. apply checked_exact. Qed.

Lemma in_range_bounds (z : Z) : 0 <= z < 2 ^ 31 -> in_range z.
Proof. unfold in_range, min_signed, max_signed. lia. Qed.

End Int32Facts.

(** ** The iteration space *)

Lemma elem_of_range (n k : Z) : k ∈ range n <-> 0 <= k < n.
Proof. unfold range. rewrite elem_of_seqZ. lia. Qed.

Lemma NoDup_range (n : Z) : NoDup (range n).
Proof. apply NoDup_seqZ. Qed.

Lemma bind_singleton_fmap {A B : Type} (f : A -> B) (l : list A) :
  (a ← l; [f a]) = f <$> l.
Proof. induction l as [|a l IH]; [done|]. by rewrite bind_cons, IH. Qed.

(** Row-major enumeration of an [M x C] grid visits [0 .. M*C-1] in order. *)
Lemma range_product (M C : Z) :
  0 <= M -> 0 <= C ->
  (k ← range M; j ← range C; [k * C + j]) = range (M * C).
Proof.
  intros HM HC. pattern M. apply natlike_ind; [done | | done].
  intros m Hm IH. unfold Z.succ, range in *.
  rewrite seqZ_app, bind_app, IH by lia.
  replace ((m + 1) * C) with (m * C + C) by lia.
  rewrite (seqZ_app 0 (m * C) C) by nia. f_equal.
  change (seqZ (0 + m) 1) with [0 + (0 + m)]. rewrite bind_singleton.
  rewrite bind_singleton_fmap.
  replace (0 + m * C) with (m * C + 0) by lia.
  rewrite <- (fmap_add_seqZ (m * C) 0).
  apply list_fmap_ext. intros; simpl; lia.
Qed.

Lemma elem_of_iteration_space (P R C i r j : Z) :
  (i, r, j) ∈ iteration_space P R C <-> 0 <= i < P /\ 0 <= r < R /\ 0 <= j < C.
Proof.
  unfold iteration_space.
  rewrite list_elem_of_bind. setoid_rewrite list_elem_of_bind.
  setoid_rewrite list_elem_of_bind. setoid_rewrite elem_of_range.
  setoid_rewrite list_elem_of_singleton. split.
  - intros (i' & (r' & (j' & [= -> -> ->] & ?) & ?) & ?). done.
  - intros (? & ? & ?). exists i. split; [|done]. exists r. split; [|done].
    by exists j.
Qed.

Lemma out_index_bounds (P R C i r j : Z) :
  0 <= i < P -> 0 <= r < R -> 0 <= j < C ->
  0 <= i * R + r < P * R /\ 0 <= Spec.out_index R C i r j < P * R * C.
Proof.
  intros Hi Hr Hj. unfold Spec.out_index.
  assert (0 <= i * R + r < P * R) as Hrow by nia.
  split; [done|]. nia.
Qed.

Lemma list_bind_assoc {A B C : Type} (f : A -> list B) (g : B -> list C)
    (l : list A) :
  (l ≫= f) ≫= g = l ≫= (fun a => f a ≫= g).
Proof.
  induction l as [|a l IH]; [done|]. by rewrite !bind_cons, bind_app, IH.
Qed.

Lemma list_fmap_bind_r {A B C : Type} (f : B -> C) (g : A -> list B)
    (l : list A) :
  f <$> (l ≫= g) = l ≫= (fun a => f <$> g a).
Proof.
  induction l as [|a l IH]; [done|]. by rewrite !bind_cons, fmap_app, IH.
Qed.

(** In program order the iterations address [0, 1, ..., P*R*C - 1]. *)
Lemma out_index_iteration_space (P R C : Z) :
  0 <= P -> 0 <= R -> 0 <= C ->
  (fun '(i, r, j) => Spec.out_index R C i r j) <$> iteration_space P R C
  = range (P * R * C).
Proof.
  intros HP HR HC.
  rewrite <- (range_product (P * R) C), <- (range_product P R) by nia.
  unfold iteration_space.
  rewrite list_fmap_bind_r, list_bind_assoc.
  apply list_bind_ext; [intros i | done].
  rewrite list_fmap_bind_r, list_bind_assoc.
  apply list_bind_ext; [intros r | done].
  rewrite list_fmap_bind_r, bind_singleton.
  apply list_bind_ext; [intros j | done].
  done.
Qed.

Lemma bind_nil_r {A B : Type} (l : list A) : (l ≫= fun _ => @nil B) = [].
Proof. induction l as [|a l IH]; [done|]. by rewrite bind_cons, IH. Qed.

Lemma iteration_space_empty (P R C : Z) :
  P <= 0 \/ R <= 0 \/ C <= 0 -> iteration_space P R C = [].
Proof.
  intros [HP | [HR | HC]]; unfold iteration_space, range.
  - by rewrite (seqZ_nil 0 P).
  - rewrite (seqZ_nil 0 R) by done. apply bind_nil_r.
  - rewrite (seqZ_nil 0 C) by done.
    transitivity (seqZ 0 P ≫= fun _ => @nil (Z * Z * Z)); [|apply bind_nil_r].
    apply list_bind_ext; [intros i | done]. apply bind_nil_r.
Qed.

(** The iteration space is empty, or all of its extents are at least one. *)
Lemma iteration_space_cases (P R C : Z) :
  iteration_space P R C = [] \/ (1 <= P /\ 1 <= R /\ 1 <= C).
Proof.
  destruct (Z.le_gt_cases P 0); [left; apply iteration_space_empty; lia|].
  destruct (Z.le_gt_cases R 0); [left; apply iteration_space_empty; lia|].
  destruct (Z.le_gt_cases C 0); [left; apply iteration_space_empty; lia|].
  right. lia.
Qed.

(** ** The offsets of the body *)

Section Offsets.
Variables R : Z.

(** A row offset that is defined is the mathematical one, and so were the
    intermediate results. *)
Lemma row_base_Some (w i r b : Z) :
  Flattening.row_base R w i r = Some b ->
  b = (i * R + r) * w /\ Int32.in_range (i * R) /\ Int32.in_range (i * R + r)
  /\ Int32.in_range ((i * R + r) * w).
Proof.
  unfold Flattening.row_base.
  destruct (Int32.mul i R) as [a|] eqn:Ha; [|done].
  apply int32_mul_Some in Ha as [-> Ha].
  change (Some (i * R) ≫= ?f) with (f (i * R)). cbv beta.
  destruct (Int32.add (i * R) r) as [k|] eqn:Hk; [|done].
  apply int32_add_Some in Hk as [-> Hk].
  change (Some (i * R + r) ≫= ?f) with (f (i * R + r)). cbv beta.
  intros [-> Hb]%int32_mul_Some. done.
Qed.

Lemma row_base_exact (w i r : Z) :
  Int32.in_range (i * R) -> Int32.in_range (i * R + r) ->
  Int32.in_range ((i * R + r) * w) ->
  Flattening.row_base R w i r = Some ((i * R + r) * w).
Proof.
  intros Ha Hk Hb. unfold Flattening.row_base.
  rewrite (int32_mul_exact _ _ Ha).
  change (Some (i * R) ≫= ?f) with (f (i * R)). cbv beta.
  rewrite (int32_add_exact _ _ Hk).
  change (Some (i * R + r) ≫= ?f) with (f (i * R + r)). cbv beta.
  by apply int32_mul_exact.
Qed.

(** Within a volume of [P * R] rows of [w] elements that [int] offsets
    reach. *)
Lemma row_base_within (P w i r : Z) :
  0 <= i < P -> 0 <= r < R -> 1 <= w -> P * R * w <= 2 ^ 31 ->
  Flattening.row_base R w i r = Some ((i * R + r) * w)
  /\ 0 <= (i * R + r) * w /\ (i * R + r) * w + w <= P * R * w.
Proof.
  intros Hi Hr Hw Hb.
  assert (0 <= i * R <= i * R + r) by nia.
  assert (0 <= i * R + r < P * R) as Hrow by nia.
  assert (i * R + r <= (i * R + r) * w) by nia.
  assert ((i * R + r) * w + w <= P * R * w) by nia.
  split; [|lia]. apply row_base_exact; apply in_range_bounds; lia.
Qed.

Lemma out_element_Some (C i r j o : Z) :
  Flattening.out_element R C i r j = Some o ->
  o = Spec.out_index R C i r j /\ Int32.in_range (Spec.out_index R C i r j).
Proof.
  unfold Flattening.out_element.
  destruct (Flattening.row_base R C i r) as [b|] eqn:Hb; [|done].
  apply row_base_Some in Hb as (-> & _).
  change (Some ?x ≫= ?f) with (f x). cbv beta.
  intros [-> Ho]%int32_add_Some. done.
Qed.

Lemma out_element_exact (P C i r j : Z) :
  0 <= i < P -> 0 <= r < R -> 0 <= j < C -> P * R * C <= 2 ^ 31 ->
  Flattening.out_element R C i r j = Some (Spec.out_index R C i r j).
Proof.
  intros Hi Hr Hj Hb. unfold Flattening.out_element.
  destruct (row_base_within P C i r) as (-> & Hlo & Hhi); [lia..|].
  change (Some ?x ≫= ?f) with (f x). cbv beta.
  apply int32_add_exact, in_range_bounds. lia.
Qed.

Lemma last_element_Some (D i r e : Z) :
  Flattening.last_element R D i r = Some e ->
  e = (i * R + r) * D + (D - 1) /\ Int32.in_range ((i * R + r) * D + D).
Proof.
  unfold Flattening.last_element.
  destruct (Flattening.row_base R D i r) as [b|] eqn:Hb; [|done].
  apply row_base_Some in Hb as (-> & _).
  change (Some ?x ≫= ?f) with (f x). cbv beta.
  destruct (Int32.add _ D) as [a|] eqn:Ha; [|done].
  apply int32_add_Some in Ha as [-> Ha].
  change (Some ?x ≫= ?f) with (f x). cbv beta.
  intros [-> _]%int32_sub_Some. split; [lia | done].
Qed.

Lemma last_element_exact (P D i r : Z) :
  0 <= i < P -> 0 <= r < R -> 1 <= D -> P * R * D <= 2 ^ 31 - 1 ->
  Flattening.last_element R D i r = Some ((i * R + r) * D + (D - 1)).
Proof.
  intros Hi Hr HD Hb. unfold Flattening.last_element.
  destruct (row_base_within P D i r) as (-> & Hlo & Hhi); [lia..|].
  change (Some ?x ≫= ?f) with (f x). cbv beta.
  rewrite int32_add_exact by (apply in_range_bounds; lia).
  change (Some ?x ≫= ?f) with (f x). cbv beta.
  rewrite int32_sub_exact by (apply in_range_bounds; lia).
  f_equal. lia.
Qed.

End Offsets.

(** ** The kernel as a scattering loop *)

Section KernelFacts.
Variable proj : list float32.
Variable normalized_angles : list float64.
Variables P R D C : Z.

Local Abbreviation value := (Flattening.iteration_value proj normalized_angles R D C).
Local Abbreviation addr := (Flattening.iteration_offset R C).

(** The offset stored at, when the iteration computes one. *)
Lemma store_offset (i r j oo o : Z) :
  Flattening.row_base R C i r = Some oo -> Int32.add oo j = Some o ->
  o = Flattening.cell_offset R C i r j.
Proof.
  intros (-> & _)%row_base_Some [-> _]%int32_add_Some. reflexivity.
Qed.

Lemma loop_body_scatter {S : Type} `{!OutputBuffer S} (i r j : Z) (s : S) :
  Flattening.loop_body proj normalized_angles R D C i r j s
  = scatter value addr (i, r, j) s.
Proof.
  unfold Flattening.loop_body, scatter.
  unfold Flattening.iteration_value, Flattening.iteration_offset.
  unfold Flattening.cell_value.
  destruct (load normalized_angles j) as [x|]; [|reflexivity].
  change (Some x ≫= ?f) with (f x). cbv beta zeta.
  generalize (F64.cast_int (F64.floor x)). intros idx.
  destruct (Flattening.row_base R D i r) as [po|]; [|reflexivity].
  change (Some po ≫= ?f) with (f po). cbv beta.
  destruct (Flattening.row_base R C i r) as [oo|] eqn:Hoo; [|reflexivity].
  change (Some oo ≫= ?f) with (f oo). cbv beta.
  destruct (idx <? 0).
  { destruct (load proj po) as [v|]; [|reflexivity].
    change (Some v ≫= ?f) with (f v). cbv beta.
    destruct (Int32.add oo j) as [o|] eqn:Ho; [|reflexivity].
    by rewrite (store_offset i r j oo o Hoo Ho). }
  destruct (Int32.sub D 1) as [last|]; [|reflexivity].
  change (Some last ≫= ?f) with (f last). cbv beta.
  destruct (last <=? idx).
  { destruct (Int32.add po D) as [e|]; [|reflexivity].
    change (Some e ≫= ?f) with (f e). cbv beta.
    destruct (Int32.sub e 1) as [e'|]; [|reflexivity].
    change (Some e' ≫= ?f) with (f e'). cbv beta.
    destruct (load proj e') as [v|]; [|reflexivity].
    change (Some v ≫= ?f) with (f v). cbv beta.
    destruct (Int32.add oo j) as [o|] eqn:Ho; [|reflexivity].
    by rewrite (store_offset i r j oo o Hoo Ho). }
  destruct (Int32.add po idx) as [e0|]; [|reflexivity].
  change (Some e0 ≫= ?f) with (f e0). cbv beta.
  destruct (load proj e0) as [v0|]; [|reflexivity].
  change (Some v0 ≫= ?f) with (f v0). cbv beta.
  destruct (Int32.add e0 1) as [e1|]; [|reflexivity].
  change (Some e1 ≫= ?f) with (f e1). cbv beta.
  destruct (load proj e1) as [v1|]; [|reflexivity].
  change (Some v1 ≫= ?f) with (f v1). cbv beta.
  destruct (Int32.add oo j) as [o|] eqn:Ho; [|reflexivity].
  by rewrite (store_offset i r j oo o Hoo Ho).
Qed.

Lemma kernel_scatter {S : Type} `{!OutputBuffer S} (s : S) :
  Flattening.kernel proj normalized_angles P R D C s
  = for_each (scatter value addr) (iteration_space P R C) s.
Proof.
  unfold Flattening.kernel. rewrite nested_loops_flatten.
  apply for_each_ext, Forall_forall. intros [[i r] j] _ s'.
  apply loop_body_scatter.
Qed.


(** An iteration that has a value computed its output offset within
    [int]. *)
Lemma value_Some_offset (i r j : Z) :
  is_Some (value (i, r, j)) -> Int32.in_range (Spec.out_index R C i r j).
Proof.
  unfold Flattening.iteration_value, Flattening.cell_value.
  destruct (load normalized_angles j) as [x|]; [|by intros [? ?]].
  change (Some x ≫= ?f) with (f x). cbv beta zeta.
  generalize (F64.cast_int (F64.floor x)). intros idx.
  destruct (Flattening.row_base R D i r) as [po|]; [|by intros [? ?]].
  change (Some po ≫= ?f) with (f po). cbv beta.
  destruct (Flattening.row_base R C i r) as [oo|] eqn:Hoo; [|by intros [? ?]].
  change (Some oo ≫= ?f) with (f oo). cbv beta.
  assert (forall o, Int32.add oo j = Some o ->
                    Int32.in_range (Spec.out_index R C i r j)) as Hadd.
  { intros o Ho.
    destruct (out_element_Some R C i r j o) as [_ ?]; [|done].
    unfold Flattening.out_element. by rewrite Hoo. }
  destruct (idx <? 0).
  { destruct (load proj po) as [v|]; [|by intros [? ?]].
    change (Some v ≫= ?f) with (f v). cbv beta.
    destruct (Int32.add oo j) as [o|] eqn:Ho; [|by intros [? ?]].
    intros _. by apply (Hadd o). }
  destruct (Int32.sub D 1) as [last|]; [|by intros [? ?]].
  change (Some last ≫= ?f) with (f last). cbv beta.
  destruct (last <=? idx).
  { destruct (Int32.add po D) as [e|]; [|by intros [? ?]].
    change (Some e ≫= ?f) with (f e). cbv beta.
    destruct (Int32.sub e 1) as [e'|]; [|by intros [? ?]].
    change (Some e' ≫= ?f) with (f e'). cbv beta.
    destruct (load proj e') as [v|]; [|by intros [? ?]].
    change (Some v ≫= ?f) with (f v). cbv beta.
    destruct (Int32.add oo j) as [o|] eqn:Ho; [|by intros [? ?]].
    intros _. by apply (Hadd o). }
  destruct (Int32.add po idx) as [e0|]; [|by intros [? ?]].
  change (Some e0 ≫= ?f) with (f e0). cbv beta.
  destruct (load proj e0) as [v0|]; [|by intros [? ?]].
  change (Some v0 ≫= ?f) with (f v0). cbv beta.
  destruct (Int32.add e0 1) as [e1|]; [|by intros [? ?]].
  change (Some e1 ≫= ?f) with (f e1). cbv beta.
  destruct (load proj e1) as [v1|]; [|by intros [? ?]].
  change (Some v1 ≫= ?f) with (f v1). cbv beta.
  destruct (Int32.add oo j) as [o|] eqn:Ho; [|by intros [? ?]].
  intros _. by apply (Hadd o).
Qed.

(** In program order the iterations store to [0, 1, ..., P*R*C - 1]. *)
Lemma iteration_offsets :
  1 <= P -> 1 <= R -> 1 <= C ->
  addr <$> iteration_space P R C = range (P * R * C).
Proof.
  intros HP HR HC. rewrite <- out_index_iteration_space by lia.
  apply list_fmap_ext. by intros _ [[i r] j] _.
Qed.

(** No two iterations store to the same offset. *)
Lemma iteration_offsets_NoDup : NoDup (addr <$> iteration_space P R C).
Proof.
  destruct (iteration_space_cases P R C) as [-> | (HP & HR & HC)];
    [constructor|].
  rewrite iteration_offsets by done. apply NoDup_range.
Qed.

End KernelFacts.

(** Past the reach of the [int] offsets the offset of some output element
    is not an [int], whatever the buffers are. *)
Lemma past_limit_fails (proj : list float32) (normalized_angles : list float64)
    (P R D C : Z) (out : list float32) :
  1 <= P -> 1 <= R -> 1 <= C -> 2 ^ 31 < P * R * C ->
  Flattening.interpolation_loop proj normalized_angles P R D C out = None.
Proof.
  intros HP HR HC Hb. unfold Flattening.interpolation_loop.
  rewrite kernel_scatter.
  assert (2 ^ 31 ∈ (fun '(i, r, j) => Spec.out_index R C i r j)
                     <$> iteration_space P R C) as Hin.
  { rewrite out_index_iteration_space by lia. apply elem_of_range. lia. }
  apply list_elem_of_fmap in Hin as ([[i r] j] & Heq & Hin).
  apply (scatter_fails _ _ _ out (i, r, j) Hin). intros buf. unfold scatter.
  destruct (Flattening.iteration_value _ _ _ _ _ (i, r, j)) as [v|] eqn:Hv;
    [|reflexivity].
  destruct (value_Some_offset proj normalized_angles R D C i r j) as [_ Hhi];
    [by rewrite Hv|].
  cbv beta iota in Heq. rewrite <- Heq in Hhi.
  unfold Int32.max_signed in Hhi. lia.
Qed.

Lemma past_limit_fails_traced (proj : list float32)
    (normalized_angles : list float64) (P R D C : Z) (out : list float32) :
  1 <= P -> 1 <= R -> 1 <= C -> 2 ^ 31 < P * R * C ->
  Flattening.interpolation_loop_traced proj normalized_angles P R D C out = None.
Proof.
  intros HP HR HC Hb.
  pose proof (past_limit_fails proj normalized_angles P R D C out HP HR HC Hb)
    as Hrun.
  unfold Flattening.interpolation_loop_traced.
  unfold Flattening.interpolation_loop in Hrun.
  rewrite kernel_scatter in *. rewrite scatter_traced, Hrun. reflexivity.
Qed.

(** ** The kernel on well-formed inputs *)

Section WellFormed.
Variable proj : list float32.
Variable normalized_angles : list float64.
Variables P R D C : Z.
Variable out : list float32.
Hypothesis Hwf : Spec.well_formed proj normalized_angles P R D C out.

Local Abbreviation value := (Flattening.iteration_value proj normalized_angles R D C).
Local Abbreviation addr := (Flattening.iteration_offset R C).
Local Abbreviation sample := (Spec.sample proj normalized_angles R D).

Lemma wf_angle (j : Z) :
  0 <= j < C -> is_Some (load normalized_angles j).
Proof.
  intros Hj. destruct Hwf as [_ _ _ _ _ Hlen]. apply load_is_Some. lia.
Qed.

(** A volume with a row has extents of at least one, and its rows and
    columns are counted within [int]. *)
Lemma wf_extents (i r : Z) :
  0 <= i < P -> 0 <= r < R ->
  1 <= D /\ 0 <= i * R + r < P * R /\ P * R <= P * R * D
  /\ D <= P * R * D /\ P * R * D <= 2 ^ 31 - 1.
Proof.
  intros Hi Hr. pose proof Hwf as [HD Hpc _ _ _ _].
  unfold Int32.max_signed in Hpc.
  assert (0 <= i * R + r < P * R) by nia.
  assert (P * R <= P * R * D) by nia.
  assert (D <= P * R * D) by nia.
  done.
Qed.

(** Every sample of a row of the input volume is there. *)
Lemma wf_proj_at (i r d : Z) :
  0 <= i < P -> 0 <= r < R -> 0 <= d < D ->
  is_Some (Spec.proj_at proj R D i r d).
Proof.
  intros Hi Hr Hd. destruct (wf_extents i r Hi Hr) as (HD & Hrow & _).
  pose proof Hwf as [_ _ _ Hpl _ _].
  unfold Spec.proj_at. apply load_is_Some.
  assert ((i * R + r) * D + D <= P * R * D) by nia.
  nia.
Qed.

(** The samples of a volume of binary32 values. *)
Lemma wf_sample (i r d : Z) :
  Forall F32.valid proj ->
  0 <= i < P -> 0 <= r < R -> 0 <= d < D ->
  exists v, Spec.proj_at proj R D i r d = Some v /\ F32.valid v.
Proof.
  intros Hvalid Hi Hr Hd. destruct (wf_proj_at i r d Hi Hr Hd) as [v Hv].
  exists v. split; [done|]. by apply (load_Forall _ _ _ _ Hvalid Hv).
Qed.

(** Each iteration stores the sample the specification describes. *)
Lemma wf_value (i r j : Z) :
  0 <= i < P -> 0 <= r < R -> 0 <= j < C ->
  value (i, r, j) = sample i r j /\ is_Some (sample i r j).
Proof.
  intros Hi Hr Hj.
  destruct (wf_extents i r Hi Hr) as (HD & Hrw & HPR & HDb & Hpc).
  pose proof Hwf as [_ _ Hoc _ _ _].
  destruct (row_base_within R P D i r) as (Hpo & Hrow0 & HrowD); [lia..|].
  destruct (row_base_within R P C i r) as (Hoo & Hout0 & HoutC); [lia..|].
  destruct (wf_angle j Hj) as (x & Hx).
  unfold Flattening.iteration_value, Flattening.cell_value.
  unfold Spec.sample, Spec.select.
  rewrite Hx. change (Some x ≫= ?f) with (f x). cbv beta zeta.
  generalize (F64.cast_int (F64.floor x)). intros idx.
  rewrite Hpo. change (Some ?y ≫= ?f) with (f y). cbv beta.
  rewrite Hoo. change (Some ?y ≫= ?f) with (f y). cbv beta.
  assert (forall d, 0 <= d < D ->
            is_Some (load proj ((i * R + r) * D + d))) as Hload.
  { intros d Hd. by apply wf_proj_at. }
  assert (Int32.add ((i * R + r) * C) j = Some ((i * R + r) * C + j)) as Hst
    by (apply int32_add_exact, in_range_bounds; lia).
  unfold Spec.proj_at.
  destruct (Z.ltb_spec idx 0).
  { rewrite Z.add_0_r. destruct (Hload 0) as [v Hv]; [lia|].
    rewrite Z.add_0_r in Hv. rewrite Hv, Hst. by split; [|eexists]. }
  rewrite (int32_sub_exact D 1) by (apply in_range_bounds; lia).
  change (Some ?y ≫= ?f) with (f y). cbv beta.
  destruct (Z.leb_spec (D - 1) idx).
  { rewrite (int32_add_exact _ D) by (apply in_range_bounds; lia).
    change (Some ?y ≫= ?f) with (f y). cbv beta.
    rewrite (int32_sub_exact _ 1) by (apply in_range_bounds; lia).
    change (Some ?y ≫= ?f) with (f y). cbv beta.
    replace ((i * R + r) * D + D - 1) with ((i * R + r) * D + (D - 1)) by lia.
    destruct (Hload (D - 1)) as [v Hv]; [lia|].
    rewrite Hv, Hst. by split; [|eexists]. }
  rewrite (int32_add_exact _ idx) by (apply in_range_bounds; lia).
  change (Some ?y ≫= ?f) with (f y). cbv beta.
  destruct (Hload idx) as [v0 Hv0]; [lia|]. rewrite Hv0.
  change (Some ?y ≫= ?f) with (f y). cbv beta.
  rewrite (int32_add_exact _ 1) by (apply in_range_bounds; lia).
  change (Some ?y ≫= ?f) with (f y). cbv beta.
  rewrite <- Z.add_assoc.
  destruct (Hload (idx + 1)) as [v1 Hv1]; [lia|]. rewrite Hv1.
  change (Some ?y ≫= ?f) with (f y). cbv beta.
  rewrite Hst. by split; [|eexists].
Qed.

Lemma wf_offset (i r j : Z) :
  0 <= i < P -> 0 <= r < R -> 0 <= j < C ->
  addr (i, r, j) = Spec.out_index R C i r j
  /\ 0 <= Spec.out_index R C i r j < Z.of_nat (length out).
Proof.
  intros Hi Hr Hj. pose proof Hwf as [_ _ Hoc _ Hol _].
  pose proof (out_index_bounds P R C i r j Hi Hr Hj) as [_ H].
  split; [reflexivity | lia].
Qed.

Lemma wf_offsets_NoDup : NoDup (addr <$> iteration_space P R C).
Proof. apply iteration_offsets_NoDup. Qed.

(** The kernel returns, and what it returns. *)
Lemma wf_kernel :
  exists out',
    Flattening.interpolation_loop proj normalized_angles P R D C out = Some out'
    /\ length out' = length out
    /\ (forall i r j, 0 <= i < P -> 0 <= r < R -> 0 <= j < C ->
          load out' (Spec.out_index R C i r j) = sample i r j)
    /\ (forall n : nat, P * R * C <= Z.of_nat n -> out' !! n = out !! n).
Proof.
  unfold Flattening.interpolation_loop. rewrite kernel_scatter.
  destruct (scatter_is_Some value addr (iteration_space P R C) out) as [out' Hrun].
  { intros [[i r] j] (Hi & Hr & Hj)%elem_of_iteration_space.
    destruct (wf_value i r j) as [-> ?]; [done..|].
    destruct (wf_offset i r j) as [-> ?]; done. }
  exists out'. split; [done|]. split; [by eapply scatter_length|]. split.
  - intros i r j Hi Hr Hj.
    destruct (wf_value i r j) as [<- _]; [done..|].
    destruct (wf_offset i r j) as [<- _]; [done..|].
    apply (scatter_lookup value addr _ _ _ (i, r, j) Hrun wf_offsets_NoDup).
    by apply elem_of_iteration_space.
  - intros n Hn. apply (scatter_frame value addr _ _ _ n Hrun).
    intros [[i r] j] (Hi & Hr & Hj)%elem_of_iteration_space.
    destruct (wf_offset i r j) as [-> _]; [done..|].
    pose proof (out_index_bounds P R C i r j Hi Hr Hj) as [_ H]. lia.
Qed.

End WellFormed.

(** ** Rounding of [SpecFloat], in closed form *)

Import Rounding.

Section Digits.

Lemma digits2_pos_bounds (p : positive) :
  2 ^ (Z.pos (digits2_pos p) - 1) <= Z.pos p < 2 ^ Z.pos (digits2_pos p).
Proof.
  induction p as [p IH|p IH|]; simpl digits2_pos;
    rewrite ?Pos2Z.inj_succ; unfold Z.succ;
    rewrite ?Z.add_simpl_r, ?Z.pow_add_r, ?Z.pow_1_r by lia.
  - replace (Z.pos p~1) with (2 * Z.pos p + 1) by lia.
    replace (2 ^ Z.pos (digits2_pos p)) with (2 * 2 ^ (Z.pos (digits2_pos p) - 1)) in *
      by (rewrite <- Z.pow_succ_r by lia; f_equal; lia). lia.
  - replace (Z.pos p~0) with (2 * Z.pos p) by lia.
    replace (2 ^ Z.pos (digits2_pos p)) with (2 * 2 ^ (Z.pos (digits2_pos p) - 1)) in *
      by (rewrite <- Z.pow_succ_r by lia; f_equal; lia). lia.
  - simpl. lia.
Qed.

Lemma digits2_pos_unique (p : positive) (d : Z) :
  2 ^ (d - 1) <= Z.pos p < 2 ^ d -> Z.pos (digits2_pos p) = d.
Proof.
  intros [Hlo Hhi]. pose proof (digits2_pos_bounds p) as [Hlo' Hhi'].
  set (d' := Z.pos (digits2_pos p)) in *.
  assert (0 < d) as Hd.
  { destruct (Z.lt_trichotomy d 0) as [H|[H|H]]; [|subst d; simpl in *; lia|done].
    rewrite Z.pow_neg_r in Hhi by done. lia. }
  destruct (Z.lt_trichotomy d' d) as [H|[H|H]]; [|done|].
  - assert (2 ^ d' <= 2 ^ (d - 1)) by (apply Z.pow_le_mono_r; lia). lia.
  - assert (2 ^ d <= 2 ^ (d' - 1)) by (apply Z.pow_le_mono_r; lia). lia.
Qed.

Lemma digits2_pos_le (p : positive) (k : Z) :
  Z.pos p < 2 ^ k -> Z.pos (digits2_pos p) <= k.
Proof.
  intros H. pose proof (digits2_pos_bounds p) as [Hlo _].
  destruct (Z.le_gt_cases (Z.pos (digits2_pos p)) k) as [|Hgt]; [done|].
  assert (2 ^ k <= 2 ^ (Z.pos (digits2_pos p) - 1)).
  { destruct (Z.le_gt_cases 0 k). - apply Z.pow_le_mono_r; lia.
    - rewrite (Z.pow_neg_r 2 k) by lia. apply Z.pow_nonneg. lia. }
  lia.
Qed.

Lemma digits2_pos_mul_pow2 (p q : positive) (k : Z) :
  0 <= k -> Z.pos q = Z.pos p * 2 ^ k ->
  Z.pos (digits2_pos q) = Z.pos (digits2_pos p) + k.
Proof.
  intros Hk Hq. apply digits2_pos_unique. rewrite Hq.
  pose proof (digits2_pos_bounds p) as [Hlo Hhi].
  replace (Z.pos (digits2_pos p) + k - 1) with (Z.pos (digits2_pos p) - 1 + k) by lia.
  rewrite !Z.pow_add_r by lia.
  assert (0 < 2 ^ k) by (apply Z.pow_pos_nonneg; lia). nia.
Qed.

Lemma iter_xO_Z (p k : positive) :
  Z.pos (Pos.iter xO p k) = Z.pos p * 2 ^ Z.pos k.
Proof.
  induction k as [|k IH] using Pos.peano_ind.
  - simpl. lia.
  - rewrite Pos.iter_succ, Pos2Z.inj_xO, IH, Pos2Z.inj_succ, Z.pow_succ_r by lia. lia.
Qed.

End Digits.

Section Shifts.

Lemma shl_align_le (mx : positive) (ex ex' : Z) :
  ex <= ex' -> shl_align mx ex ex' = (mx, ex).
Proof.
  intros H. unfold shl_align.
  destruct (ex' - ex) as [|d|d] eqn:Hd; [done | done | lia].
Qed.

Lemma shl_align_gt (mx : positive) (ex ex' : Z) :
  ex' < ex ->
  exists mx', shl_align mx ex ex' = (mx', ex')
              /\ Z.pos mx' = Z.pos mx * 2 ^ (ex - ex').
Proof.
  intros H. unfold shl_align.
  destruct (ex' - ex) as [|d|d] eqn:Hd; [lia | lia |].
  eexists. split; [done|]. rewrite iter_xO_Z. f_equal. f_equal. lia.
Qed.

Lemma shr_inv_init (X : Z) :
  0 <= X -> shr_inv X 0 (shr_record_of_loc X loc_Exact).
Proof. intros HX. exists 0. simpl. repeat split; lia. Qed.

Lemma shr_1_inv (X k : Z) (mrs : shr_record) :
  0 <= k -> shr_inv X k mrs -> shr_inv X (k + 1) (shr_1 mrs).
Proof.
  intros Hk (rem & HX & Hrem & Hm & Hr & Hs).
  destruct mrs as [m r s]; simpl in *.
  assert (0 < 2 ^ k) as Hpow by (apply Z.pow_pos_nonneg; lia).
  assert (2 ^ (k + 1) = 2 * 2 ^ k) as Hpow1
    by (rewrite Z.pow_add_r, Z.pow_1_r by lia; lia).
  assert (r || s = negb (rem =? 0)) as Hrs.
  { subst r s.
    destruct (Z.leb_spec (2 ^ k) (2 * rem)), (Z.eqb_spec rem 0),
      (Z.eqb_spec (2 * rem) (2 ^ k)); simpl; try done; lia. }
  destruct m as [|[p|p|]|p]; try lia; simpl;
    [exists rem | exists (rem + 2 ^ k) | exists rem | exists (rem + 2 ^ k)];
    simpl; rewrite Hrs, Hpow1;
    (split; [lia|]); (split; [lia|]); (split; [lia|]); split.
  all: destruct (Z.eqb_spec rem 0), (Z.eqb_spec (rem + 2 ^ k) 0),
        (Z.eqb_spec (2 * (rem + 2 ^ k)) (2 * 2 ^ k)),
        (Z.eqb_spec (2 * rem) (2 * 2 ^ k)),
        (Z.leb_spec (2 * 2 ^ k) (2 * rem)),
        (Z.leb_spec (2 * 2 ^ k) (2 * (rem + 2 ^ k)));
       simpl; try done; lia.
Qed.

Lemma iter_pos_shr_1_inv (X : Z) (p : positive) :
  forall k mrs, 0 <= k -> shr_inv X k mrs ->
                shr_inv X (k + Z.pos p) (SpecFloat.iter_pos shr_1 p mrs).
Proof.
  induction p as [p IH|p IH|]; intros k mrs Hk Hinv; simpl.
  - replace (k + Z.pos p~1) with (k + 1 + Z.pos p + Z.pos p) by lia.
    apply IH; [lia|]. apply IH; [lia|]. by apply shr_1_inv.
  - replace (k + Z.pos p~0) with (k + Z.pos p + Z.pos p) by lia.
    apply IH; [lia|]. by apply IH.
  - by apply shr_1_inv.
Qed.

(** Rounding the shifted record to nearest even is [round_shift]. *)
Lemma shr_inv_round (X n : Z) (mrs : shr_record) :
  0 <= n -> shr_inv X n mrs ->
  round_nearest_even (shr_m mrs) (loc_of_shr_record mrs) = round_shift X n.
Proof.
  intros Hn (rem & HX & Hrem & Hm & Hr & Hs).
  assert (0 < 2 ^ n) as Hpow by (apply Z.pow_pos_nonneg; lia).
  assert (X / 2 ^ n = shr_m mrs /\ X mod 2 ^ n = rem) as [Hq Hmod].
  { symmetry in HX. rewrite Z.mul_comm in HX.
    pose proof (Z.div_mod_unique (2 ^ n) (X / 2 ^ n) (shr_m mrs)
                  (X mod 2 ^ n) rem) as Hu.
    pose proof (Z.mod_pos_bound X (2 ^ n) Hpow) as Hb.
    pose proof (Z.div_mod X (2 ^ n)) as Hdm.
    apply Hu; [left; lia | left; lia | lia]. }
  unfold round_shift. rewrite Hq, Hmod.
  destruct mrs as [m r s]; simpl in *. subst r s.
  destruct (Z.leb_spec (2 ^ n) (2 * rem)), (Z.eqb_spec rem 0),
    (Z.eqb_spec (2 * rem) (2 ^ n)), (Z.ltb_spec (2 * rem) (2 ^ n));
    simpl; try done; lia.
Qed.

End Shifts.

Section Round.
Variables prec emax : Z.
Hypothesis Hprec : 0 < prec.

Local Abbreviation fexp := (SpecFloat.fexp prec emax).
Local Abbreviation emin := (SpecFloat.emin prec emax).
Local Abbreviation pack := (Rounding.pack prec emax).

Lemma fexp_spec (e : Z) : fexp e = Z.max (e - prec) emin.
Proof. reflexivity. Qed.

Lemma Zdigits2_pow2 (k : Z) : 0 <= k -> Zdigits2 (2 ^ k) = k + 1.
Proof.
  intros Hk. assert (0 < 2 ^ k) as Hpos by (apply Z.pow_pos_nonneg; lia).
  destruct (2 ^ k) as [|q|q] eqn:Hq; try lia. simpl.
  apply digits2_pos_unique. rewrite <- Hq, Z.add_simpl_r.
  rewrite Z.pow_add_r, Z.pow_1_r by lia. lia.
Qed.

Lemma Zdigits2_le (m k : Z) : 0 <= m < 2 ^ k -> 0 <= k -> Zdigits2 m <= k.
Proof.
  intros [Hm Hlt] Hk. destruct m as [|p|p]; simpl; [lia | | lia].
  by apply digits2_pos_le.
Qed.

Lemma shr_fexp_le (m e : Z) :
  fexp (Zdigits2 m + e) <= e ->
  shr_fexp prec emax m e loc_Exact = (Build_shr_record m false false, e).
Proof.
  intros H. unfold shr_fexp, shr. simpl shr_record_of_loc.
  destruct (SpecFloat.fexp prec emax (Zdigits2 m + e) - e) eqn:Hn; [done | lia | done].
Qed.

Lemma shr_fexp_gt (m e : Z) :
  0 <= m -> e < fexp (Zdigits2 m + e) ->
  exists mrs,
    shr_fexp prec emax m e loc_Exact = (mrs, fexp (Zdigits2 m + e))
    /\ shr_inv m (fexp (Zdigits2 m + e) - e) mrs.
Proof.
  intros Hm H. unfold shr_fexp, shr.
  destruct (SpecFloat.fexp prec emax (Zdigits2 m + e) - e) as [|n|n] eqn:Hn; try lia.
  eexists. split.
  - f_equal. lia.
  - replace (Z.pos n) with (0 + Z.pos n) by lia.
    apply iter_pos_shr_1_inv; [lia|]. by apply shr_inv_init.
Qed.

Lemma round_shift_exact (m k : Z) : 0 <= k -> round_shift (m * 2 ^ k) k = m.
Proof.
  intros Hk. assert (0 < 2 ^ k) as Hpow by (apply Z.pow_pos_nonneg; lia).
  unfold round_shift. rewrite Z.div_mul, Z.mod_mul by lia.
  destruct (Z.ltb_spec (2 * 0) (2 ^ k)); [done | lia].
Qed.

Lemma round_shift_bounds (X n : Z) :
  0 <= X -> 0 <= n -> X / 2 ^ n <= round_shift X n <= X / 2 ^ n + 1.
Proof.
  intros HX Hn. unfold round_shift.
  destruct (2 * (X mod 2 ^ n) <? 2 ^ n); [lia|].
  destruct (2 * (X mod 2 ^ n) =? 2 ^ n); [|lia].
  destruct (Z.even (X / 2 ^ n)); lia.
Qed.

(** [binary_round_aux] on an exact positive mantissa, in closed form. *)
Lemma binary_round_aux_closed (s : bool) (mx : positive) (ex : Z) :
  binary_round_aux prec emax s (Z.pos mx) ex loc_Exact
  = let e0 := fexp (Z.pos (digits2_pos mx) + ex) in
    if e0 <=? ex then pack s (Z.pos mx) ex
    else
      let m1 := round_shift (Z.pos mx) (e0 - ex) in
      if m1 =? 2 ^ prec then pack s (2 ^ (prec - 1)) (e0 + 1)
      else pack s m1 e0.
Proof.
  cbv zeta. set (e0 := fexp (Z.pos (digits2_pos mx) + ex)).
  assert (emin <= e0) as Hemin by (unfold e0; rewrite fexp_spec; lia).
  assert (Z.pos (digits2_pos mx) + ex - prec <= e0) as Hd
    by (unfold e0; rewrite fexp_spec; lia).
  unfold binary_round_aux.
  destruct (Z.leb_spec e0 ex) as [Hle|Hgt].
  - rewrite shr_fexp_le by done. simpl shr_m. simpl loc_of_shr_record.
    simpl round_nearest_even. rewrite shr_fexp_le by done. reflexivity.
  - destruct (shr_fexp_gt (Z.pos mx) ex) as (mrs & -> & Hinv); [lia | done |].
    change (Zdigits2 (Z.pos mx)) with (Z.pos (digits2_pos mx)) in *.
    fold e0 in Hinv |- *.
    rewrite (shr_inv_round (Z.pos mx) (e0 - ex) mrs) by (lia || done).
    set (m1 := round_shift (Z.pos mx) (e0 - ex)).
    assert (0 <= m1 <= 2 ^ prec) as Hm1.
    { pose proof (round_shift_bounds (Z.pos mx) (e0 - ex)) as Hb.
      fold m1 in Hb.
      assert (0 <= Z.pos mx / 2 ^ (e0 - ex) < 2 ^ prec); [|lia].
      assert (0 < 2 ^ (e0 - ex)) by (apply Z.pow_pos_nonneg; lia).
      split; [apply Z.div_pos; lia|].
      apply Z.div_lt_upper_bound; [done|].
      rewrite <- Z.pow_add_r by lia.
      pose proof (digits2_pos_bounds mx) as [_ Hhi].
      eapply Z.lt_le_trans; [exact Hhi|]. apply Z.pow_le_mono_r; lia. }
    destruct (Z.eqb_spec m1 (2 ^ prec)) as [Heq|Hne].
    + rewrite Heq.
      destruct (shr_fexp_gt (2 ^ prec) e0) as (mrs' & -> & Hinv').
      { apply Z.pow_nonneg; lia. }
      { rewrite Zdigits2_pow2, fexp_spec by lia. lia. }
      rewrite Zdigits2_pow2 in * by lia.
      assert (fexp (prec + 1 + e0) = e0 + 1) as He by (rewrite fexp_spec; lia).
      rewrite He in *. replace (e0 + 1 - e0) with 1 in Hinv' by lia.
      destruct Hinv' as (rem & HX & Hrem & Hm & _).
      assert (shr_m mrs' = 2 ^ (prec - 1)) as ->.
      { replace (2 ^ prec) with (2 * 2 ^ (prec - 1)) in HX
          by (rewrite <- Z.pow_succ_r by lia; f_equal; lia).
        simpl in Hrem. simpl in HX. lia. }
      reflexivity.
    + rewrite shr_fexp_le.
      * reflexivity.
      * rewrite fexp_spec.
        pose proof (Zdigits2_le m1 prec ltac:(lia) ltac:(lia)). lia.
Qed.

(** [binary_round] in closed form. *)
Lemma binary_round_closed (s : bool) (mx : positive) (ex : Z) :
  binary_round prec emax s mx ex
  = let e0 := fexp (Z.pos (digits2_pos mx) + ex) in
    if e0 <=? ex then pack s (Z.pos mx * 2 ^ (ex - e0)) e0
    else
      let m1 := round_shift (Z.pos mx) (e0 - ex) in
      if m1 =? 2 ^ prec then pack s (2 ^ (prec - 1)) (e0 + 1)
      else pack s m1 e0.
Proof.
  cbv zeta. set (e0 := fexp (Z.pos (digits2_pos mx) + ex)).
  unfold binary_round. fold e0.
  destruct (Z.leb_spec e0 ex) as [Hle|Hgt].
  - destruct (Z.eq_dec e0 ex) as [Heq|Hne].
    + rewrite shl_align_le by lia. rewrite binary_round_aux_closed. cbv zeta.
      fold e0. rewrite Heq, Z.leb_refl, Z.sub_diag, Z.pow_0_r, Z.mul_1_r.
      reflexivity.
    + destruct (shl_align_gt mx ex e0) as (mz & -> & Hmz); [lia|].
      rewrite binary_round_aux_closed. cbv zeta.
      rewrite (digits2_pos_mul_pow2 mx mz (ex - e0)) by (done || lia).
      replace (Z.pos (digits2_pos mx) + (ex - e0) + e0)
        with (Z.pos (digits2_pos mx) + ex) by lia.
      fold e0. rewrite Z.leb_refl, Hmz. reflexivity.
  - rewrite shl_align_le by lia. rewrite binary_round_aux_closed. cbv zeta.
    fold e0. destruct (Z.leb_spec e0 ex); [lia|]. reflexivity.
Qed.

End Round.

Section Canonical.
Variables prec emax : Z.
Hypothesis Hprec : 0 < prec.

Local Abbreviation fexp := (SpecFloat.fexp prec emax).
Local Abbreviation emin := (SpecFloat.emin prec emax).
Local Abbreviation pack := (Rounding.pack prec emax).

Lemma bounded_spec (m : positive) (e : Z) :
  bounded prec emax m e = true
  <-> fexp (Z.pos (digits2_pos m) + e) = e /\ e <= emax - prec.
Proof.
  unfold bounded, canonical_mantissa.
  rewrite andb_true_iff, Z.eqb_eq, Z.leb_le. reflexivity.
Qed.

Lemma canonical_digits (m : positive) (e : Z) :
  fexp (Z.pos (digits2_pos m) + e) = e ->
  Z.pos (digits2_pos m) <= prec /\ emin <= e
  /\ (Z.pos (digits2_pos m) = prec \/ e = emin).
Proof. rewrite fexp_spec. lia. Qed.

Lemma canonical_lt_pow2 (m : positive) (e : Z) :
  fexp (Z.pos (digits2_pos m) + e) = e -> Z.pos m < 2 ^ prec.
Proof.
  intros (Hd & _)%canonical_digits.
  pose proof (digits2_pos_bounds m) as [_ Hhi].
  eapply Z.lt_le_trans; [exact Hhi|]. apply Z.pow_le_mono_r; lia.
Qed.

Lemma pack_pos (s : bool) (m : positive) (e : Z) :
  e <= emax - prec -> pack s (Z.pos m) e = S754_finite s m e.
Proof. intros H. unfold Rounding.pack. by destruct (Z.leb_spec e (emax - prec)); [|lia]. Qed.

(** Rounding a mantissa that is a canonical one shifted left or right
    returns the canonical float. *)
Lemma binary_round_aux_canonical (s : bool) (mx m : positive) (ex e k : Z) :
  bounded prec emax m e = true ->
  0 <= k -> Z.pos mx = Z.pos m * 2 ^ k -> ex = e - k ->
  binary_round_aux prec emax s (Z.pos mx) ex loc_Exact = S754_finite s m e.
Proof.
  intros [Hcan Hmax]%bounded_spec Hk Hmx ->.
  rewrite binary_round_aux_closed by done. cbv zeta.
  rewrite (digits2_pos_mul_pow2 m mx k) by done.
  replace (Z.pos (digits2_pos m) + k + (e - k)) with (Z.pos (digits2_pos m) + e) by lia.
  rewrite Hcan.
  destruct (Z.leb_spec e (e - k)).
  - assert (k = 0) as -> by lia. rewrite Z.sub_0_r.
    rewrite Z.pow_0_r, Z.mul_1_r in Hmx. rewrite Hmx. by apply pack_pos.
  - replace (e - (e - k)) with k by lia. rewrite Hmx, round_shift_exact by done.
    pose proof (canonical_lt_pow2 m e Hcan).
    destruct (Z.eqb_spec (Z.pos m) (2 ^ prec)); [lia|]. by apply pack_pos.
Qed.

Lemma binary_round_canonical_down (s : bool) (mx m : positive) (ex e k : Z) :
  bounded prec emax m e = true ->
  0 <= k -> Z.pos mx = Z.pos m * 2 ^ k -> ex = e - k ->
  binary_round prec emax s mx ex = S754_finite s m e.
Proof.
  intros [Hcan Hmax]%bounded_spec Hk Hmx ->.
  rewrite binary_round_closed by done. cbv zeta.
  rewrite (digits2_pos_mul_pow2 m mx k) by done.
  replace (Z.pos (digits2_pos m) + k + (e - k)) with (Z.pos (digits2_pos m) + e) by lia.
  rewrite Hcan.
  destruct (Z.leb_spec e (e - k)).
  - assert (k = 0) as -> by lia. rewrite Z.sub_0_r, Z.sub_diag.
    rewrite Z.pow_0_r, Z.mul_1_r in *. rewrite Hmx. by apply pack_pos.
  - replace (e - (e - k)) with k by lia. rewrite Hmx, round_shift_exact by done.
    pose proof (canonical_lt_pow2 m e Hcan).
    destruct (Z.eqb_spec (Z.pos m) (2 ^ prec)); [lia|]. by apply pack_pos.
Qed.

Lemma binary_round_canonical_up (s : bool) (mx m : positive) (ex e k : Z) :
  bounded prec emax m e = true ->
  0 <= k -> Z.pos m = Z.pos mx * 2 ^ k -> ex = e + k ->
  binary_round prec emax s mx ex = S754_finite s m e.
Proof.
  intros [Hcan Hmax]%bounded_spec Hk Hm ->.
  rewrite binary_round_closed by done. cbv zeta.
  replace (Z.pos (digits2_pos mx) + (e + k)) with (Z.pos (digits2_pos mx) + k + e) by lia.
  rewrite <- (digits2_pos_mul_pow2 mx m k) by done.
  rewrite Hcan.
  destruct (Z.leb_spec e (e + k)); [|lia].
  replace (e + k - e) with k by lia. rewrite <- Hm. by apply pack_pos.
Qed.

(** A short mantissa rounds to itself, shifted to the canonical exponent. *)
Lemma binary_round_short (s : bool) (mx : positive) (ex : Z) :
  let e0 := fexp (Z.pos (digits2_pos mx) + ex) in
  e0 <= ex -> e0 <= emax - prec ->
  exists m, binary_round prec emax s mx ex = S754_finite s m e0
            /\ Z.pos m = Z.pos mx * 2 ^ (ex - e0)
            /\ bounded prec emax m e0 = true.
Proof.
  intros e0 Hle Hmax.
  assert (0 < Z.pos mx * 2 ^ (ex - e0)) as Hpos.
  { apply Z.mul_pos_pos; [lia|]. apply Z.pow_pos_nonneg; lia. }
  destruct (Z.pos mx * 2 ^ (ex - e0)) as [|m|m] eqn:Hm; try lia.
  exists m. split; [|split; [done|]].
  - rewrite binary_round_closed by done. cbv zeta. fold e0.
    destruct (Z.leb_spec e0 ex); [|lia]. rewrite Hm. by apply pack_pos.
  - apply bounded_spec. split; [|done].
    rewrite (digits2_pos_mul_pow2 mx m (ex - e0)) by (lia || done).
    replace (Z.pos (digits2_pos mx) + (ex - e0) + e0)
      with (Z.pos (digits2_pos mx) + ex) by lia.
    reflexivity.
Qed.

End Canonical.

Section Binary64.

Lemma f64_fexp (e : Z) : fexp F64.prec F64.emax e = Z.max (e - 53) (-1074).
Proof. reflexivity. Qed.

Lemma f64_one : F64.one = S754_finite false 4503599627370496 (-52).
Proof. reflexivity. Qed.

Lemma f64_valid_finite (s : bool) (m : positive) (e : Z) :
  F64.valid (S754_finite s m e) ->
  Z.max (Z.pos (digits2_pos m) + e - 53) (-1074) = e /\ e <= 971
  /\ Z.pos m < 2 ^ 53.
Proof.
  unfold F64.valid. simpl. intros [Hcan Hmax]%bounded_spec.
  pose proof (canonical_lt_pow2 F64.prec F64.emax m e Hcan).
  rewrite f64_fexp in Hcan. unfold F64.emax, F64.prec in *. lia.
Qed.

Lemma of_int_zero : F64.of_int 0 = S754_zero false.
Proof. reflexivity. Qed.

Lemma of_int_finite (z : Z) :
  z <> 0 -> Z.abs z < 2 ^ 53 ->
  exists m e,
    F64.of_int z = S754_finite (z <? 0) m e
    /\ -52 <= e <= 0 /\ Z.pos m = Z.abs z * 2 ^ (- e)
    /\ bounded F64.prec F64.emax m e = true.
Proof.
  intros Hz Hlt. unfold F64.of_int, binary_normalize.
  destruct z as [|p|p]; [done | |].
  all: pose proof (digits2_pos_le p 53 Hlt) as Hd.
  all: pose proof (Pos2Z.is_pos (digits2_pos p)) as Hd0.
  all: destruct (binary_round_short F64.prec F64.emax ltac:(done) (Z.pos p <? 0) p 0)
         as (m & Hr & Hm & Hb);
       [rewrite f64_fexp; lia | rewrite f64_fexp; unfold F64.emax, F64.prec; lia |].
  all: rewrite f64_fexp in Hr, Hm, Hb.
  all: replace (Z.max (Z.pos (digits2_pos p) + 0 - 53) (-1074))
         with (Z.pos (digits2_pos p) - 53) in * by lia.
  all: exists m, (Z.pos (digits2_pos p) - 53).
  - split; [exact Hr|]. split; [lia|]. split; [|done].
    rewrite Hm. f_equal.
  - split.
    + destruct (binary_round_short F64.prec F64.emax ltac:(done) true p 0)
        as (m' & Hr' & Hm' & _);
        [rewrite f64_fexp; lia | rewrite f64_fexp; unfold F64.emax, F64.prec; lia |].
      rewrite f64_fexp in Hr', Hm'.
      replace (Z.max (Z.pos (digits2_pos p) + 0 - 53) (-1074))
        with (Z.pos (digits2_pos p) - 53) in * by lia.
      assert (m' = m) as -> by lia. exact Hr'.
    + split; [lia|]. split; [|done]. rewrite Hm. f_equal.
Qed.

Lemma trunc_of_int (z : Z) :
  Z.abs z < 2 ^ 53 -> F64.trunc (F64.of_int z) = Some z.
Proof.
  intros Hlt. destruct (Z.eq_dec z 0) as [->|Hz]; [done|].
  destruct (of_int_finite z Hz Hlt) as (m & e & -> & He & Hm & _).
  unfold F64.trunc. f_equal.
  assert (0 < 2 ^ (- e)) by (apply Z.pow_pos_nonneg; lia).
  destruct (Z.leb_spec 0 e).
  - assert (e = 0) as -> by lia. rewrite Z.shiftl_0_r.
    simpl in Hm. rewrite Z.mul_1_r in Hm. rewrite Hm.
    unfold cond_Zopp. destruct (Z.ltb_spec z 0); lia.
  - rewrite Z.shiftr_div_pow2, Hm, Z.div_mul by lia.
    unfold cond_Zopp. destruct (Z.ltb_spec z 0); lia.
Qed.

(** The floor of a finite [double], as an integer. *)
Lemma floor_finite (s : bool) (m : positive) (e : Z) :
  F64.valid (S754_finite s m e) ->
  F64.trunc (F64.floor (S754_finite s m e))
  = Some (if 0 <=? e then cond_Zopp s (Z.pos m) * 2 ^ e
          else cond_Zopp s (Z.pos m) / 2 ^ (- e)).
Proof.
  intros (Hcan & Hmax & Hm)%f64_valid_finite. unfold F64.floor.
  destruct (Z.leb_spec 0 e).
  - unfold F64.trunc. destruct (Z.leb_spec 0 e); [|lia].
    rewrite Z.shiftl_mul_pow2 by done. f_equal. destruct s; unfold cond_Zopp; lia.
  - rewrite Z.shiftr_div_pow2 by lia.
    apply trunc_of_int.
    assert (0 < 2 ^ (- e)) by (apply Z.pow_pos_nonneg; lia).
    assert (- Z.pos m <= cond_Zopp s (Z.pos m) / 2 ^ (- e) <= Z.pos m); [|lia].
    destruct s; simpl cond_Zopp.
    + split.
      * apply Z.div_le_lower_bound; [done|]. nia.
      * assert (Z.neg m / 2 ^ (- e) < 0); [|lia].
        apply Z.div_lt_upper_bound; lia.
    + split.
      * assert (0 <= Z.pos m / 2 ^ (- e)) by (apply Z.div_pos; lia). lia.
      * apply Z.div_le_upper_bound; [done|]. nia.
Qed.

Lemma to_int_Some (x : float64) (idx : Z) :
  F64.to_int x = Some idx <-> F64.trunc x = Some idx /\ Int32.in_range idx.
Proof.
  unfold F64.to_int, Int32.in_range.
  destruct (F64.trunc x) as [z|]; simpl; [|split; [done | by intros [? _]]].
  destruct (Z.leb_spec Int32.min_signed z), (Z.leb_spec z Int32.max_signed); simpl.
  1: split; [by intros [= <-] | by intros [[= ->] _]].
  all: split; [done | intros [[= ->] ?]; lia].
Qed.

End Binary64.

Section Binary64Arith.

Lemma shl_align_fst (mx : positive) (ex ez : Z) :
  ez <= ex -> Z.pos (shl_align mx ex ez).1 = Z.pos mx * 2 ^ (ex - ez).
Proof.
  intros H. destruct (Z.eq_dec ez ex) as [->|Hne].
  - rewrite shl_align_le, Z.sub_diag by lia. simpl. lia.
  - destruct (shl_align_gt mx ex ez) as (mz & -> & Hmz); [lia|]. exact Hmz.
Qed.

Lemma sub_finite (sx : bool) (mx : positive) (ex : Z)
    (sy : bool) (my : positive) (ey : Z) :
  F64.sub (S754_finite sx mx ex) (S754_finite sy my ey)
  = binary_normalize F64.prec F64.emax
      (cond_Zopp sx (Z.pos mx) * 2 ^ (ex - Z.min ex ey)
       - cond_Zopp sy (Z.pos my) * 2 ^ (ey - Z.min ex ey))
      (Z.min ex ey) false.
Proof.
  unfold F64.sub, SFsub. rewrite !shl_align_fst by lia.
  f_equal. destruct sx, sy; unfold cond_Zopp; lia.
Qed.

Lemma add_finite (sx : bool) (mx : positive) (ex : Z)
    (sy : bool) (my : positive) (ey : Z) :
  F64.add (S754_finite sx mx ex) (S754_finite sy my ey)
  = binary_normalize F64.prec F64.emax
      (cond_Zopp sx (Z.pos mx) * 2 ^ (ex - Z.min ex ey)
       + cond_Zopp sy (Z.pos my) * 2 ^ (ey - Z.min ex ey))
      (Z.min ex ey) false.
Proof.
  unfold F64.add, SFadd. rewrite !shl_align_fst by lia.
  f_equal. destruct sx, sy; unfold cond_Zopp; lia.
Qed.

Lemma pow2_split (a b : Z) : 0 <= a -> 0 <= b -> 2 ^ (a + b) = 2 ^ a * 2 ^ b.
Proof. intros. by apply Z.pow_add_r. Qed.

Lemma SFleb_finite_one (m : positive) (e : Z) :
  e < -52 \/ (e = -52 /\ Z.pos m <= 2 ^ 52) ->
  SFleb (S754_finite false m e) F64.one = true.
Proof.
  rewrite f64_one. unfold SFleb, SFcompare. intros [H|[-> H]].
  - by rewrite (proj2 (Z.compare_lt_iff e (-52)) H).
  - rewrite Z.compare_refl.
    rewrite Pos.compare_cont_spec.
    destruct (Pos.compare_spec m 4503599627370496) as [Heq|Hlt|Hgt];
      unfold Pos.switch_Eq; [reflexivity | reflexivity | lia].
Qed.

Lemma SFltb_finite_one (m : positive) (e : Z) :
  e < -52 -> SFltb (S754_finite false m e) F64.one = true.
Proof.
  rewrite f64_one. unfold SFltb, SFcompare. intros H.
  by rewrite (proj2 (Z.compare_lt_iff e (-52)) H).
Qed.

(** A sum of magnitude below one, rounded, is within [[0, 1]]; it is
    below one when it has at most 53 bits. *)
Lemma normalize_unit_interval (M ez : Z) :
  -1074 <= ez <= 0 -> 0 <= M < 2 ^ (- ez) ->
  let t := binary_normalize F64.prec F64.emax M ez false in
  SFleb (S754_zero false) t = true /\ SFleb t F64.one = true
  /\ (M < 2 ^ 53 -> SFltb t F64.one = true).
Proof.
  intros Hez HM. cbv zeta. unfold binary_normalize.
  destruct M as [|p|p]; [done | | lia].
  pose proof (digits2_pos_le p (- ez) ltac:(lia)) as Hd.
  pose proof (Pos2Z.is_pos (digits2_pos p)) as Hd0.
  rewrite binary_round_closed by done. cbv zeta. rewrite f64_fexp.
  set (e0 := Z.max (Z.pos (digits2_pos p) + ez - 53) (-1074)).
  assert (e0 <= -53) as He0 by lia.
  assert (e0 <= F64.emax - F64.prec) as Hmax by (unfold F64.emax, F64.prec; lia).
  destruct (Z.leb_spec e0 ez) as [Hle|Hgt].
  - assert (0 < Z.pos p * 2 ^ (ez - e0)) as Hpos.
    { apply Z.mul_pos_pos; [lia|]. apply Z.pow_pos_nonneg; lia. }
    destruct (Z.pos p * 2 ^ (ez - e0)) as [|m|m]; try lia.
    rewrite pack_pos by done.
    split; [done|]. split; [apply SFleb_finite_one; lia|].
    intros _. apply SFltb_finite_one. lia.
  - set (m1 := round_shift (Z.pos p) (e0 - ez)).
    destruct (Z.eqb_spec m1 (2 ^ F64.prec)) as [Heq|Hne].
    + change (2 ^ (F64.prec - 1)) with (Z.pos 4503599627370496).
      rewrite pack_pos by (unfold F64.emax, F64.prec; lia).
      split; [done|]. split; [apply SFleb_finite_one; lia|].
      intros Hlt. pose proof (digits2_pos_le p 53 Hlt). lia.
    + pose proof (round_shift_bounds (Z.pos p) (e0 - ez) ltac:(lia) ltac:(lia)) as Hb.
      fold m1 in Hb.
      assert (0 <= Z.pos p / 2 ^ (e0 - ez)).
      { apply Z.div_pos; [lia|]. apply Z.pow_pos_nonneg; lia. }
      destruct m1 as [|m|m]; [done | | lia].
      rewrite pack_pos by done.
      split; [done|]. split; [apply SFleb_finite_one; lia|].
      intros _. apply SFltb_finite_one. lia.
Qed.

(** C8's [t = x - idx], for a finite [x] whose floor converts. *)
Lemma fractional_part (x : float64) (idx : Z) :
  F64.valid x -> F64.to_int (F64.floor x) = Some idx ->
  let t := F64.sub x (F64.of_int idx) in
  SFleb (S754_zero false) t = true /\ SFleb t F64.one = true
  /\ (SFleb (S754_zero false) x = true -> SFltb t F64.one = true).
Proof.
  intros Hvalid [Htr Hrange]%to_int_Some. cbv zeta.
  destruct x as [s| | |s m e]; try done.
  - injection Htr as <-. rewrite of_int_zero. by destruct s.
  - rewrite floor_finite in Htr by done. injection Htr as Hidx.
    pose proof Hvalid as (Hcan & Hmax & Hm)%f64_valid_finite.
    pose proof (Pos2Z.is_pos (digits2_pos m)) as Hd0.
    destruct (Z.eq_dec idx 0) as [->|Hnz].
    + (* the floor is zero: [t] is [x] itself, below one *)
      rewrite of_int_zero. change (F64.sub (S754_finite s m e) (S754_zero false))
        with (S754_finite s m e).
      destruct (Z.leb_spec 0 e) as [He|He].
      { assert (0 < 2 ^ e) by (apply Z.pow_pos_nonneg; lia).
        destruct s; unfold cond_Zopp in Hidx; nia. }
      assert (0 < 2 ^ (- e)) as Hpow by (apply Z.pow_pos_nonneg; lia).
      destruct s; unfold cond_Zopp in Hidx.
      { assert (Z.neg m / 2 ^ (- e) < 0); [|lia].
        apply Z.div_lt_upper_bound; lia. }
      assert (Z.pos m < 2 ^ (- e)) as Hlt.
      { pose proof (Z.div_mod (Z.pos m) (2 ^ (- e)) ltac:(lia)) as Hdm.
        pose proof (Z.mod_pos_bound (Z.pos m) (2 ^ (- e)) Hpow). lia. }
      pose proof (digits2_pos_le m (- e) Hlt).
      split; [done|]. split; [apply SFleb_finite_one; lia|].
      intros _. apply SFltb_finite_one. lia.
    + unfold Int32.in_range, Int32.min_signed, Int32.max_signed in Hrange.
      destruct (of_int_finite idx Hnz ltac:(lia)) as (my & ey & -> & Hey & Hmy & _).
      rewrite sub_finite.
      set (ez := Z.min e ey).
      assert (cond_Zopp (idx <? 0) (Z.pos my) = idx * 2 ^ (- ey)) as ->.
      { rewrite Hmy. unfold cond_Zopp. destruct (Z.ltb_spec idx 0); lia. }
      assert (0 < 2 ^ (- ey)) by (apply Z.pow_pos_nonneg; lia).
      assert (0 < 2 ^ (ey - ez)) by (apply Z.pow_pos_nonneg; lia).
      assert (0 < 2 ^ (e - ez)) by (apply Z.pow_pos_nonneg; lia).
      assert (2 ^ (- ez) = 2 ^ (- ey) * 2 ^ (ey - ez)) as Hsplit.
      { rewrite <- pow2_split by lia. f_equal. lia. }
      destruct (Z.leb_spec 0 e) as [He|He].
      * (* [x] is integral *)
        assert (ez = ey) as Hez by lia.
        assert (2 ^ (e - ez) = 2 ^ e * 2 ^ (- ey)) as Hsplit'.
        { rewrite <- pow2_split by lia. f_equal. lia. }
        replace (cond_Zopp s (Z.pos m) * 2 ^ (e - ez)
                 - idx * 2 ^ (- ey) * 2 ^ (ey - ez)) with 0.
        { done. }
        rewrite Hsplit', Hez, Z.sub_diag, Z.pow_0_r, <- Hidx. lia.
      * assert (0 < 2 ^ (- e)) as Hpow by (apply Z.pow_pos_nonneg; lia).
        pose proof (Z.div_mod (cond_Zopp s (Z.pos m)) (2 ^ (- e)) ltac:(lia)) as Hdm.
        pose proof (Z.mod_pos_bound (cond_Zopp s (Z.pos m)) (2 ^ (- e)) Hpow) as Hrem.
        rewrite Hidx in Hdm.
        set (rem := cond_Zopp s (Z.pos m) mod 2 ^ (- e)) in *.
        assert (2 ^ (- ez) = 2 ^ (- e) * 2 ^ (e - ez)) as Hsplit'.
        { rewrite <- pow2_split by lia. f_equal. lia. }
        replace (cond_Zopp s (Z.pos m) * 2 ^ (e - ez)
                 - idx * 2 ^ (- ey) * 2 ^ (ey - ez)) with (rem * 2 ^ (e - ez)).
        2:{ rewrite Hdm. rewrite <- Z.mul_assoc, <- Hsplit, Hsplit'. lia. }
        destruct (normalize_unit_interval (rem * 2 ^ (e - ez)) ez)
          as (Hge & Hle1 & Hstrict); [lia | rewrite Hsplit'; nia |].
        split; [done|]. split; [done|].
        intros Hpos. apply Hstrict.
        destruct s; [done|]. unfold cond_Zopp in *.
        destruct (Z.le_gt_cases e ey).
        -- replace ez with e by lia. rewrite Z.sub_diag, Z.pow_0_r, Z.mul_1_r.
           assert (0 <= idx) by (rewrite <- Hidx; apply Z.div_pos; lia). nia.
        -- replace ez with ey in * by lia.
           assert (rem * 2 ^ (e - ey) < 2 ^ (- ey)) by (rewrite Hsplit'; nia).
           assert (2 ^ (- ey) <= 2 ^ 52) by (apply Z.pow_le_mono_r; lia).
           lia.
Qed.

End Binary64Arith.

Section Clamps.

(** A negative [double] has a negative floor. *)
Lemma floor_negative (x : float64) (idx : Z) :
  F64.valid x -> SFltb x (S754_zero false) = true ->
  F64.to_int (F64.floor x) = Some idx -> idx < 0.
Proof.
  intros Hvalid Hlt [Htr _]%to_int_Some.
  destruct x as [s|s| |s m e]; try done.
  rewrite floor_finite in Htr by done. injection Htr as <-.
  destruct s; [|done]. unfold cond_Zopp.
  destruct (Z.leb_spec 0 e).
  - assert (0 < 2 ^ e) by (apply Z.pow_pos_nonneg; lia). nia.
  - apply Z.div_lt_upper_bound; [apply Z.pow_pos_nonneg; lia | lia].
Qed.

(** A [double] that is at least the integer [n] has a floor of at least [n]. *)
Lemma floor_at_least (x : float64) (n idx : Z) :
  F64.valid x -> 0 <= n < 2 ^ 31 ->
  SFleb (F64.of_int n) x = true ->
  F64.to_int (F64.floor x) = Some idx -> n <= idx.
Proof.
  intros Hvalid Hn Hle [Htr _]%to_int_Some.
  destruct (Z.eq_dec n 0) as [->|Hnz].
  - rewrite of_int_zero in Hle.
    destruct x as [s|s| |s m e]; try done.
    + by injection Htr as <-.
    + rewrite floor_finite in Htr by done. injection Htr as <-.
      destruct s; [done|]. unfold cond_Zopp.
      destruct (Z.leb_spec 0 e).
      * assert (0 < 2 ^ e) by (apply Z.pow_pos_nonneg; lia). nia.
      * apply Z.div_pos; [lia | apply Z.pow_pos_nonneg; lia].
  - destruct (of_int_finite n Hnz ltac:(lia)) as (mn & en & Hof & Hen & Hmn & Hbn).
    rewrite Hof in Hle. replace (n <? 0) with false in * by (symmetry; apply Z.ltb_ge; lia).
    rewrite Z.abs_eq in Hmn by lia.
    destruct x as [s|s| |s m e]; try done.
    destruct s; [done|].
    rewrite floor_finite in Htr by done. injection Htr as <-.
    pose proof Hvalid as (Hcan & Hmax & Hm)%f64_valid_finite.
    apply bounded_spec in Hbn as [Hcn _]. rewrite f64_fexp in Hcn.
    assert (0 < 2 ^ (- en)) by (apply Z.pow_pos_nonneg; lia).
    unfold SFleb, SFcompare in Hle. unfold cond_Zopp.
    destruct (Z.compare_spec en e) as [Heq|Hlt|Hgt]; [| |done].
    + (* equal exponents: compare the mantissas *)
      subst e. rewrite Pos.compare_cont_spec in Hle.
      destruct (Pos.compare_spec mn m) as [Hmeq|Hmlt|Hmgt];
        unfold Pos.switch_Eq in Hle; [| |done].
      * subst m. destruct (Z.leb_spec 0 en).
        -- assert (en = 0) as -> by lia. simpl in *. lia.
        -- rewrite Hmn, Z.div_mul by lia. lia.
      * destruct (Z.leb_spec 0 en).
        -- assert (en = 0) as -> by lia. simpl in *. lia.
        -- apply Z.div_le_lower_bound; [done|]. lia.
    + (* [x] has the larger exponent: it is normal, at least [2^52 * 2^e] *)
      pose proof (digits2_pos_bounds m) as [Hlo _].
      pose proof (digits2_pos_bounds mn) as [_ Hhi].
      assert (Z.pos (digits2_pos m) = 53) as Hd by lia.
      assert (Z.pos (digits2_pos mn) = 53) as Hdn by lia.
      rewrite Hd in Hlo. rewrite Hdn in Hhi.
      change (2 ^ (53 - 1)) with (2 ^ 52) in Hlo.
      assert (2 ^ 53 = 2 * 2 ^ 52) as H53 by reflexivity.
      destruct (Z.leb_spec 0 e).
      * assert (0 < 2 ^ e) by (apply Z.pow_pos_nonneg; lia).
        assert (n < 2 ^ 52) by (change (2 ^ 31) with 2147483648 in Hn;
                                change (2 ^ 52) with 4503599627370496; lia).
        nia.
      * assert (0 < 2 ^ (- e)) by (apply Z.pow_pos_nonneg; lia).
        apply Z.div_le_lower_bound; [done|].
        assert (2 ^ (- en) = 2 ^ (- e) * 2 ^ (e - en)) as Hsplit.
        { rewrite <- pow2_split by lia. f_equal. lia. }
        assert (2 <= 2 ^ (e - en)).
        { change 2 with (2 ^ 1) at 1. apply Z.pow_le_mono_r; lia. }
        rewrite Hsplit in Hmn. nia.
Qed.

End Clamps.

(** ** Powers of two and scaled values *)

Lemma pow2_pos (k : Z) : 0 <= k -> 0 < 2 ^ k.
Proof. intros. apply Z.pow_pos_nonneg; lia. Qed.

Lemma pow2_mul (a b c : Z) : 0 <= a -> 0 <= b -> c = a + b -> 2 ^ c = 2 ^ a * 2 ^ b.
Proof. intros ? ? ->. by apply Z.pow_add_r. Qed.

Lemma scaled_at_finite (E : Z) (s : bool) (m : positive) (e : Z) :
  scaled_at E (S754_finite s m e) = cond_Zopp s (Z.pos m) * 2 ^ (e - E).
Proof. reflexivity. Qed.

Lemma scaled_at_zero (E : Z) (s : bool) : scaled_at E (S754_zero s) = 0.
Proof. reflexivity. Qed.

(** ** The index of a position *)

Section FloorIndex.

(** [idx = (int)floor(x)] brackets [x]: [idx <= x < idx + 1], in units of
    [2^-1074]. *)
Lemma floor_bracket (x : float64) (idx : Z) :
  F64.valid x -> F64.trunc (F64.floor x) = Some idx ->
  is_finite x = true
  /\ idx * 2 ^ 1074 <= scaled_at (-1074) x < (idx + 1) * 2 ^ 1074.
Proof.
  intros Hvalid Htr.
  pose proof (pow2_pos 1074 ltac:(lia)) as Hone.
  destruct x as [s | s | | s m e].
  - unfold F64.floor, F64.trunc in Htr. injection Htr as <-.
    rewrite scaled_at_zero. split; [done | lia].
  - unfold F64.floor, F64.trunc in Htr. discriminate.
  - unfold F64.floor, F64.trunc in Htr. discriminate.
  - rewrite floor_finite in Htr by done. injection Htr as Hidx.
    pose proof Hvalid as (Hcan & Hmax & Hm)%f64_valid_finite.
    split; [done|]. rewrite scaled_at_finite.
    set (c := cond_Zopp s (Z.pos m)) in *.
    destruct (Z.leb_spec 0 e) as [He | He].
    + rewrite <- Hidx.
      assert (2 ^ (e - -1074) = 2 ^ e * 2 ^ 1074) as -> by (apply pow2_mul; lia).
      lia.
    + assert (0 < 2 ^ (- e)) as Hpow by (apply pow2_pos; lia).
      assert (0 < 2 ^ (e - -1074)) as Hg by (apply pow2_pos; lia).
      assert (2 ^ 1074 = 2 ^ (- e) * 2 ^ (e - -1074)) as -> by (apply pow2_mul; lia).
      pose proof (Z.div_mod c (2 ^ (- e)) ltac:(lia)) as Hdm.
      pose proof (Z.mod_pos_bound c (2 ^ (- e)) Hpow) as Hrem.
      rewrite Hidx in Hdm. rewrite !Z.mul_assoc.
      split; [apply Z.mul_le_mono_nonneg_r; lia|].
      apply Z.mul_lt_mono_pos_r; lia.
Qed.

(** Where the conversion of line 34 is defined, and what it yields. *)
Lemma to_int_floor (x : float64) :
  F64.valid x ->
  forall idx,
    F64.to_int (F64.floor x) = Some idx
    <-> is_finite x = true /\ Int32.in_range idx
        /\ idx * 2 ^ 1074 <= scaled_at (-1074) x < (idx + 1) * 2 ^ 1074.
Proof.
  intros Hvalid idx. rewrite to_int_Some. split.
  - intros [Htr Hrange].
    destruct (floor_bracket x idx Hvalid Htr) as [Hfin Hb]. done.
  - intros (Hfin & Hrange & Hb). split; [|done].
    assert (exists idx', F64.trunc (F64.floor x) = Some idx') as [idx' Htr].
    { destruct x as [s | | | s m e]; try done.
      - by exists 0.
      - rewrite floor_finite by done. by eexists. }
    destruct (floor_bracket x idx' Hvalid Htr) as [_ Hb'].
    rewrite Htr. f_equal. nia.
Qed.

(** The conversion is defined on the indexable positions, where it yields
    the floor, and on no other. *)
Lemma to_int_floor_indexable (x : float64) :
  F64.valid x ->
  (Spec.indexable x -> F64.to_int (F64.floor x) = Some (Spec.floor x))
  /\ (~ Spec.indexable x -> F64.to_int (F64.floor x) = None).
Proof.
  intros Hvalid.
  pose proof (pow2_pos 1074 ltac:(lia)) as Hone.
  pose proof (Z.div_mod (scaled_at (-1074) x) (2 ^ 1074) ltac:(lia)) as Hdm.
  pose proof (Z.mod_pos_bound (scaled_at (-1074) x) (2 ^ 1074) Hone) as Hrem.
  split.
  - intros [Hfin Hrange]. apply to_int_floor; [done|].
    unfold Spec.floor in *. split; [done|]. split; [done|]. lia.
  - intros Hno. destruct (F64.to_int (F64.floor x)) as [idx|] eqn:Hidx; [|done].
    destruct Hno. apply to_int_floor in Hidx as (Hfin & Hrange & Hb); [|done].
    split; [done|]. unfold Spec.floor.
    replace (scaled_at (-1074) x / 2 ^ 1074) with idx; [done|].
    apply (Z.div_unique_pos _ _ idx (scaled_at (-1074) x - idx * 2 ^ 1074)); lia.
Qed.

Lemma cast_int_exact (x : float64) (idx : Z) :
  F64.to_int x = Some idx -> F64.cast_int x = idx.
Proof. unfold F64.cast_int. by intros ->. Qed.

Lemma cast_int_indefinite (x : float64) :
  F64.to_int x = None -> F64.cast_int x = Int32.min_signed.
Proof. unfold F64.cast_int. by intros ->. Qed.

(** The index the kernel obtains: the floor of an indexable position, and
    [INT_MIN] for every other. *)
Lemma cast_int_floor (x : float64) :
  F64.valid x ->
  (Spec.indexable x -> F64.cast_int (F64.floor x) = Spec.floor x)
  /\ (~ Spec.indexable x -> F64.cast_int (F64.floor x) = Int32.min_signed).
Proof.
  intros Hvalid. destruct (to_int_floor_indexable x Hvalid) as [Hin Hout].
  split; intros H.
  - by apply cast_int_exact, Hin.
  - by apply cast_int_indefinite, Hout.
Qed.

End FloorIndex.

Section Conversions.

Lemma f32_fexp (e : Z) : fexp F32.prec F32.emax e = Z.max (e - 24) (-149).
Proof. reflexivity. Qed.

Lemma f32_valid_finite (s : bool) (m : positive) (e : Z) :
  F32.valid (S754_finite s m e) ->
  Z.max (Z.pos (digits2_pos m) + e - 24) (-149) = e /\ e <= 104
  /\ Z.pos m < 2 ^ 24 /\ bounded F32.prec F32.emax m e = true.
Proof.
  unfold F32.valid. simpl. intros Hb. pose proof Hb as [Hcan Hmax]%bounded_spec.
  pose proof (canonical_lt_pow2 F32.prec F32.emax m e Hcan).
  rewrite f32_fexp in Hcan. unfold F32.emax, F32.prec in Hmax, H.
  split; [lia|]. split; [lia|]. split; [lia | exact Hb].
Qed.

Lemma binary_normalize_signed (prec emax : Z) (s : bool) (m : positive) (e : Z) :
  binary_normalize prec emax (cond_Zopp s (Z.pos m)) e s
  = binary_round prec emax s m e.
Proof. by destruct s. Qed.

(** Widening a [float] is exact and gives a normal [double]. *)
Lemma of_single_finite (s : bool) (m : positive) (e : Z) :
  F32.valid (S754_finite s m e) ->
  exists m',
    F64.of_single (S754_finite s m e)
    = S754_finite s m' (Z.pos (digits2_pos m) + e - 53)
    /\ Z.pos m' = Z.pos m * 2 ^ (53 - Z.pos (digits2_pos m))
    /\ Z.pos (digits2_pos m') = 53
    /\ bounded F64.prec F64.emax m' (Z.pos (digits2_pos m) + e - 53) = true.
Proof.
  intros (Hcan & Hmax & Hm & _)%f32_valid_finite.
  pose proof (Pos2Z.is_pos (digits2_pos m)) as Hd0.
  pose proof (digits2_pos_le m 24 Hm) as Hd.
  unfold F64.of_single. rewrite binary_normalize_signed.
  destruct (binary_round_short F64.prec F64.emax ltac:(done) s m e)
    as (m' & Hr & Hm' & Hb);
    [rewrite f64_fexp; lia | rewrite f64_fexp; unfold F64.emax, F64.prec; lia |].
  rewrite f64_fexp in Hr, Hm', Hb.
  replace (Z.max (Z.pos (digits2_pos m) + e - 53) (-1074))
    with (Z.pos (digits2_pos m) + e - 53) in * by lia.
  exists m'. split; [exact Hr|]. split; [rewrite Hm'; f_equal; f_equal; lia|].
  split; [|exact Hb].
  rewrite (digits2_pos_mul_pow2 m m' (53 - Z.pos (digits2_pos m))); [lia | lia |].
  rewrite Hm'. f_equal. f_equal. lia.
Qed.

(** Narrowing a widened [float] gives it back. *)
Lemma to_single_of_single (v : float32) :
  F32.valid v -> F64.to_single (F64.of_single v) = v.
Proof.
  intros Hv. destruct v as [s|s| |s m e]; try reflexivity.
  destruct (of_single_finite s m e Hv) as (m' & -> & Hm' & _ & _).
  apply f32_valid_finite in Hv as (Hcan & Hmax & Hm & Hb).
  pose proof (Pos2Z.is_pos (digits2_pos m)) as Hd0.
  pose proof (digits2_pos_le m 24 Hm) as Hd.
  unfold F64.to_single. rewrite binary_normalize_signed.
  apply (binary_round_canonical_down F32.prec F32.emax ltac:(done) s m' m _ e
           (53 - Z.pos (digits2_pos m))); [done | lia | done | lia].
Qed.

(** Multiplying a [double] by the power of two [2^52 * 2^k] is exact while
    the exponent stays in range. *)
Lemma mul_pow2 (k : Z) (s : bool) (m : positive) (e : Z) :
  Z.pos (digits2_pos m) = 53 -> -1074 <= e + 52 + k <= 971 ->
  F64.mul (S754_finite false 4503599627370496 k) (S754_finite s m e)
  = S754_finite s m (e + 52 + k).
Proof.
  intros Hd He. unfold F64.mul, SFmul. simpl xorb.
  apply (binary_round_aux_canonical F64.prec F64.emax ltac:(done) s _ m _ _ 52).
  - apply bounded_spec. rewrite f64_fexp, Hd. unfold F64.emax, F64.prec. lia.
  - lia.
  - rewrite Pos2Z.inj_mul. change (2 ^ 52) with (Z.pos 4503599627370496). lia.
  - lia.
Qed.

End Conversions.

Section Identity.

(** The position [j], as the table of the identity mapping holds it. *)
Lemma identity_position (j : Z) :
  0 <= j < 2 ^ 31 ->
  F64.to_int (F64.floor (F64.of_int j)) = Some j
  /\ F64.sub (F64.of_int j) (F64.of_int j) = S754_zero false.
Proof.
  intros Hj. destruct (Z.eq_dec j 0) as [->|Hnz]; [done|].
  destruct (of_int_finite j Hnz ltac:(lia)) as (m & e & -> & He & Hm & Hb).
  replace (j <? 0) with false by (symmetry; apply Z.ltb_ge; lia).
  rewrite Z.abs_eq in Hm by lia. split.
  - apply to_int_Some. split.
    + rewrite floor_finite by exact Hb. f_equal. unfold cond_Zopp.
      assert (0 < 2 ^ (- e)) by (apply Z.pow_pos_nonneg; lia).
      destruct (Z.leb_spec 0 e).
      * assert (e = 0) as -> by lia. simpl in *. lia.
      * rewrite Hm. apply Z.div_mul. lia.
    + unfold Int32.in_range, Int32.min_signed, Int32.max_signed. lia.
  - rewrite sub_finite, Z.sub_diag. reflexivity.
Qed.

(** A whole position [k]: the table entry is the double [k], or, for
    [k = 0], the other zero. *)
Lemma whole_position (x : float64) (k : Z) :
  Spec.whole x k -> 0 <= k < 2 ^ 31 ->
  F64.valid x
  /\ F64.to_int (F64.floor x) = Some k
  /\ F64.sub x (F64.of_int k) = S754_zero (is_negative_zero x).
Proof.
  intros [-> | [-> ->]] Hk; [|done].
  destruct (identity_position k Hk) as [Hidx Ht].
  split; [|split; [exact Hidx|]].
  - destruct (Z.eq_dec k 0) as [->|Hnz]; [done|].
    by destruct (of_int_finite k Hnz ltac:(lia)) as (m & e & -> & _ & _ & Hb).
  - rewrite Ht. f_equal.
    destruct (Z.eq_dec k 0) as [->|Hnz]; [done|].
    by destruct (of_int_finite k Hnz ltac:(lia)) as (m & e & -> & _).
Qed.

Lemma sub_one_zero (st : bool) :
  F64.sub F64.one (S754_zero st) = S754_finite false 4503599627370496 (-52).
Proof. by destruct st. Qed.

(** The blend with a zero weight on the right sample, in double precision. *)
Lemma blend_zero_weight (st : bool) (a b : float64) :
  match a with
  | S754_finite _ m e => Z.pos (digits2_pos m) = 53 /\ -1074 <= e <= 971
  | _ => True
  end ->
  F64.add (F64.mul (S754_finite false 4503599627370496 (-52)) a)
          (F64.mul (S754_zero st) b)
  = if is_finite b
    then (if is_negative_zero a && negb (xorb st (sign_bit b))
          then S754_zero false else a)
    else S754_nan.
Proof.
  intros Ha. destruct a as [sa|sa| |sa ma ea].
  - destruct b as [sb|sb| |sb mb eb]; try reflexivity; by destruct st, sa, sb.
  - destruct b as [sb|sb| |sb mb eb]; try reflexivity; by destruct st, sa, sb.
  - by destruct b.
  - destruct Ha as [Hd He]. rewrite mul_pow2 by (done || lia).
    replace (ea + 52 + -52) with ea by lia.
    destruct b as [sb|sb| |sb mb eb]; reflexivity.
Qed.

(** The sample computed at a whole position below the last column: the
    weight is the zero [st]. *)
Lemma blend_whole (st : bool) (v0 v1 : float32) :
  F32.valid v0 -> F32.valid v1 ->
  F64.to_single
    (F64.add (F64.mul (F64.sub F64.one (S754_zero st)) (F64.of_single v0))
             (F64.mul (S754_zero st) (F64.of_single v1)))
  = if is_finite v1
    then (if is_negative_zero v0 && negb (xorb st (sign_bit v1))
          then S754_zero false else v0)
    else S754_nan.
Proof.
  intros Hv0 Hv1. rewrite sub_one_zero.
  assert (is_finite (F64.of_single v1) = is_finite v1
          /\ sign_bit (F64.of_single v1) = sign_bit v1) as [Hfin Hsign].
  { destruct v1 as [s|s| |s m e]; try done.
    by destruct (of_single_finite s m e Hv1) as (m' & -> & _). }
  rewrite blend_zero_weight, Hfin, Hsign.
  - destruct (is_finite v1); [|reflexivity].
    destruct v0 as [s|s| |s m e];
      [by destruct st, s, (sign_bit v1) | by destruct st, s, (sign_bit v1)
       | by destruct st, (sign_bit v1) |].
    change (is_negative_zero (S754_finite s m e)) with false.
    assert (is_negative_zero (F64.of_single (S754_finite s m e)) = false) as ->.
    { by destruct (of_single_finite s m e Hv0) as (m' & -> & _). }
    simpl andb. by apply to_single_of_single.
  - destruct v0 as [s|s| |s m e]; try done.
    destruct (of_single_finite s m e Hv0) as (m' & -> & _ & Hd & Hb).
    split; [done|].
    apply f32_valid_finite in Hv0 as (Hcan & Hmax & Hm & _).
    pose proof (Pos2Z.is_pos (digits2_pos m)).
    pose proof (digits2_pos_le m 24 Hm). lia.
Qed.

End Identity.

Section RoundingError.

Lemma round_shift_decompose (X n : Z) :
  0 <= n ->
  exists q rem, X = q * 2 ^ n + rem /\ 0 <= rem < 2 ^ n
    /\ (round_shift X n = q \/ round_shift X n = q + 1)
    /\ (rem = 0 -> round_shift X n = q)
    /\ 2 * Z.abs (round_shift X n * 2 ^ n - X) <= 2 ^ n.
Proof.
  intros Hn. assert (0 < 2 ^ n) as Hpow by (apply Z.pow_pos_nonneg; lia).
  exists (X / 2 ^ n), (X mod 2 ^ n).
  pose proof (Z.div_mod X (2 ^ n) ltac:(lia)) as Hdm.
  pose proof (Z.mod_pos_bound X (2 ^ n) Hpow) as Hrem.
  split; [lia|]. split; [done|]. unfold round_shift.
  destruct (Z.ltb_spec (2 * (X mod 2 ^ n)) (2 ^ n)).
  { split; [by left|]. split; [done|]. lia. }
  destruct (Z.eqb_spec (2 * (X mod 2 ^ n)) (2 ^ n)).
  { destruct (Z.even (X / 2 ^ n)).
    - split; [by left|]. split; [done|]. lia.
    - split; [by right|]. split; [lia|]. lia. }
  split; [by right|]. split; [lia|]. lia.
Qed.

(** Rounding does not cross a multiple of the unit. *)
Lemma round_shift_le_multiple (X n K : Z) :
  0 <= n -> X <= K * 2 ^ n -> round_shift X n <= K.
Proof.
  intros Hn HX. assert (0 < 2 ^ n) as Hpow by (apply Z.pow_pos_nonneg; lia).
  destruct (round_shift_decompose X n Hn) as (q & rem & Hdec & Hrem & Hq & Hex & _).
  assert (q <= K) by nia.
  destruct (Z.eq_dec q K) as [->|Hne]; [|lia].
  assert (rem = 0) by lia. rewrite Hex by done. lia.
Qed.

Lemma round_shift_ge (X n : Z) : 0 <= n -> X / 2 ^ n <= round_shift X n.
Proof.
  intros Hn. unfold round_shift.
  destruct (2 * (X mod 2 ^ n) <? 2 ^ n); [lia|].
  destruct (2 * (X mod 2 ^ n) =? 2 ^ n); [|lia].
  destruct (Z.even (X / 2 ^ n)); lia.
Qed.

End RoundingError.

Section NormalRange.
Variables prec emax : Z.
Hypothesis Hprec : 0 < prec.

Local Abbreviation fexp := (SpecFloat.fexp prec emax).
Local Abbreviation emin := (SpecFloat.emin prec emax).

(** Rounding a positive mantissa in the normal range, with the exact value
    bounded by a float [(B, eB)] of the format; all values are in units of
    [2^E].  The result is a normal float of the format, within [2^-prec]
    of the exact value, relatively, and bounded by [(B, eB)] too. *)
Lemma binary_round_normal (s : bool) (mx : positive) (ex : Z)
    (B : positive) (eB E : Z) :
  let d := Z.pos (digits2_pos mx) in
  emin <= d + ex - prec ->
  bounded prec emax B eB = true ->
  E <= ex - prec -> E <= eB ->
  Z.pos mx * 2 ^ (ex - E) <= Z.pos B * 2 ^ (eB - E) ->
  exists m e,
    binary_round prec emax s mx ex = S754_finite s m e
    /\ bounded prec emax m e = true
    /\ Z.pos (digits2_pos m) = prec
    /\ d + ex - prec <= e
    /\ Z.abs (Z.pos m * 2 ^ (e - E) - Z.pos mx * 2 ^ (ex - E)) * 2 ^ prec
       <= Z.pos mx * 2 ^ (ex - E)
    /\ Z.pos m * 2 ^ (e - E) <= Z.pos B * 2 ^ (eB - E).
Proof.
  intros d Hnormal [HcanB HmaxB]%bounded_spec HE HEB Hbound.
  pose proof (Pos2Z.is_pos (digits2_pos mx)) as Hd0. fold d in Hd0.
  pose proof (digits2_pos_bounds mx) as [Hlo Hhi]. fold d in Hlo, Hhi.
  pose proof (canonical_lt_pow2 prec emax B eB HcanB) as HB.
  assert (fexp (d + ex) = d + ex - prec) as He0 by (rewrite fexp_spec; lia).
  set (e0 := d + ex - prec) in *.
  assert (0 < 2 ^ prec) as Hpp by (apply Z.pow_pos_nonneg; lia).
  assert (2 ^ prec = 2 * 2 ^ (prec - 1)) as Hp2
    by (rewrite <- Z.pow_succ_r by lia; f_equal; lia).
  (* a normal mantissa below the bound has an exponent below the bound's *)
  assert (forall (m : positive) (e : Z),
            E <= e -> 2 ^ (prec - 1) <= Z.pos m ->
            Z.pos m * 2 ^ (e - E) <= Z.pos B * 2 ^ (eB - E) -> e <= eB) as Hexp.
  { intros m e He Hm Hle.
    destruct (Z.le_gt_cases e eB) as [|Hgt]; [done|]. exfalso.
    assert (0 < 2 ^ (eB - E)) by (apply Z.pow_pos_nonneg; lia).
    assert (2 ^ (e - E) = 2 ^ (eB - E) * 2 ^ (e - eB)) as Hs.
    { rewrite <- Z.pow_add_r by lia. f_equal. lia. }
    assert (2 <= 2 ^ (e - eB)).
    { change 2 with (2 ^ 1) at 1. apply Z.pow_le_mono_r; lia. }
    rewrite Hs in Hle. nia. }
  rewrite binary_round_closed by done. cbv zeta. fold d. rewrite He0.
  destruct (Z.leb_spec e0 ex) as [Hle|Hgt].
  - (* the mantissa fits: the result is exact *)
    assert (0 < Z.pos mx * 2 ^ (ex - e0)) as Hpos.
    { apply Z.mul_pos_pos; [lia|]. apply Z.pow_pos_nonneg; lia. }
    destruct (Z.pos mx * 2 ^ (ex - e0)) as [|m|m] eqn:Hm; try lia.
    assert (Z.pos (digits2_pos m) = prec) as Hdm.
    { rewrite (digits2_pos_mul_pow2 mx m (ex - e0)) by (lia || done).
      fold d. unfold e0. lia. }
    assert (Z.pos m * 2 ^ (e0 - E) = Z.pos mx * 2 ^ (ex - E)) as Hval.
    { rewrite <- Hm, <- Z.mul_assoc, <- Z.pow_add_r by lia. f_equal. f_equal. lia. }
    assert (e0 <= eB) as HeB.
    { apply (Hexp m); [lia | | lia].
      pose proof (digits2_pos_bounds m) as [Hlom _]. by rewrite Hdm in Hlom. }
    exists m, e0. rewrite pack_pos by lia.
    split; [done|]. split.
    { apply bounded_spec. split; [|lia]. rewrite Hdm, fexp_spec. lia. }
    split; [done|]. split; [lia|]. rewrite Hval, Z.sub_diag. simpl.
    split; [|lia]. apply Z.mul_nonneg_nonneg; [lia|].
    apply Z.pow_nonneg. lia.
  - (* the mantissa is rounded to [prec] bits *)
    set (n := e0 - ex). assert (0 < n) as Hn by lia.
    assert (d = prec + n) as Hdn by (unfold n, e0; lia).
    assert (0 < 2 ^ n) as Hpn by (apply Z.pow_pos_nonneg; lia).
    assert (0 < 2 ^ (ex - E)) as HpE by (apply Z.pow_pos_nonneg; lia).
    assert (2 ^ (e0 - E) = 2 ^ n * 2 ^ (ex - E)) as HsE.
    { rewrite <- Z.pow_add_r by lia. f_equal. unfold n. lia. }
    assert (2 ^ (d - 1) = 2 ^ (prec - 1) * 2 ^ n) as Hsd.
    { rewrite <- Z.pow_add_r by lia. f_equal. lia. }
    rewrite Hsd in Hlo.
    destruct (round_shift_decompose (Z.pos mx) n ltac:(lia))
      as (q & rem & Hdec & Hrem & Hq & _ & Herr).
    set (m1 := round_shift (Z.pos mx) n) in *.
    assert (2 ^ (prec - 1) <= q) as Hqlo by nia.
    assert (q < 2 ^ prec) as Hqhi.
    { assert (2 ^ d = 2 ^ prec * 2 ^ n) as Hs'.
      { rewrite <- Z.pow_add_r by lia. f_equal. lia. }
      rewrite Hs' in Hhi. nia. }
    (* the bound is a multiple of the unit of the result *)
    assert (e0 <= eB) as HeB.
    { destruct (Z.le_gt_cases e0 eB) as [|Hlt]; [done|]. exfalso.
      assert (0 < 2 ^ (eB - E)) by (apply Z.pow_pos_nonneg; lia).
      assert (2 ^ (e0 - E) = 2 ^ (eB - E) * 2 ^ (e0 - eB)) as Hs'.
      { rewrite <- Z.pow_add_r by lia. f_equal. lia. }
      assert (2 <= 2 ^ (e0 - eB)).
      { change 2 with (2 ^ 1) at 1. apply Z.pow_le_mono_r; lia. }
      assert (2 ^ (prec - 1) * 2 ^ (e0 - E) <= Z.pos mx * 2 ^ (ex - E)).
      { rewrite HsE. nia. }
      rewrite Hs' in *. nia. }
    assert (0 < 2 ^ (eB - e0)) as HpB by (apply Z.pow_pos_nonneg; lia).
    assert (2 ^ (eB - E) = 2 ^ (eB - e0) * 2 ^ (e0 - E)) as HsB.
    { rewrite <- Z.pow_add_r by lia. f_equal. lia. }
    assert (m1 <= Z.pos B * 2 ^ (eB - e0)) as Hm1B.
    { apply round_shift_le_multiple; [lia|].
      rewrite HsB, HsE in Hbound. nia. }
    assert (Z.abs (m1 * 2 ^ (e0 - E) - Z.pos mx * 2 ^ (ex - E)) * 2 ^ prec
            <= Z.pos mx * 2 ^ (ex - E)) as Herr'.
    { rewrite HsE.
      replace (m1 * (2 ^ n * 2 ^ (ex - E)) - Z.pos mx * 2 ^ (ex - E))
        with ((m1 * 2 ^ n - Z.pos mx) * 2 ^ (ex - E)) by lia.
      rewrite Z.abs_mul, (Z.abs_eq (2 ^ (ex - E))) by lia.
      rewrite Hp2. nia. }
    assert (m1 * 2 ^ (e0 - E) <= Z.pos B * 2 ^ (eB - E)) as Hbnd'.
    { rewrite HsB. assert (0 < 2 ^ (e0 - E)) by (apply Z.pow_pos_nonneg; lia). nia. }
    destruct (Z.eqb_spec m1 (2 ^ prec)) as [Hcarry|Hnocarry].
    + (* the mantissa rounds up to the next binade *)
      assert (2 ^ (e0 + 1 - E) = 2 * 2 ^ (e0 - E)) as Hs1.
      { rewrite <- Z.pow_succ_r by lia. f_equal. lia. }
      assert (0 < 2 ^ (prec - 1)) as Hpp1 by (apply Z.pow_pos_nonneg; lia).
      destruct (2 ^ (prec - 1)) as [|m|m] eqn:Hm; try lia.
      assert (Z.pos m * 2 ^ (e0 + 1 - E) = m1 * 2 ^ (e0 - E)) as Hval
        by (rewrite Hs1, Hcarry, Hp2; lia).
      assert (Z.pos (digits2_pos m) = prec) as Hdm.
      { apply digits2_pos_unique. rewrite Hp2. lia. }
      assert (e0 + 1 <= eB) as HeB1.
      { apply (Hexp m); [lia | lia | lia]. }
      exists m, (e0 + 1). rewrite pack_pos by lia.
      split; [done|]. split.
      { apply bounded_spec. split; [|lia]. rewrite Hdm, fexp_spec. lia. }
      split; [done|]. split; [lia|]. rewrite Hval. done.
    + destruct m1 as [|m|m] eqn:Hm; try lia.
      assert (Z.pos (digits2_pos m) = prec) as Hdm.
      { apply digits2_pos_unique. lia. }
      exists m, e0. rewrite pack_pos by lia.
      split; [done|]. split.
      { apply bounded_spec. split; [|lia]. rewrite Hdm, fexp_spec. lia. }
      split; [done|]. split; [lia|]. done.
Qed.

End NormalRange.

Section Midpoint.

Lemma f64_half : F64.half = S754_finite false 4503599627370496 (-53).
Proof. reflexivity. Qed.

Lemma sub_one_half : F64.sub F64.one F64.half = F64.half.
Proof. reflexivity. Qed.

(** The position [idx + 0.5]: its floor is [idx] and its fractional part
    is [0.5] exactly. *)
Lemma half_position (idx : Z) :
  0 <= idx < 2 ^ 31 ->
  let x := F64.add (F64.of_int idx) F64.half in
  F64.valid x /\ F64.to_int (F64.floor x) = Some idx
  /\ F64.sub x (F64.of_int idx) = F64.half.
Proof.
  intros Hidx. cbv zeta.
  destruct (Z.eq_dec idx 0) as [->|Hnz].
  { repeat split; vm_compute; reflexivity. }
  destruct (of_int_finite idx Hnz ltac:(lia)) as (mi & ei & Hof & Hei & Hmi & Hbi).
  rewrite Hof. replace (idx <? 0) with false by (symmetry; apply Z.ltb_ge; lia).
  rewrite Z.abs_eq in Hmi by lia.
  (* the sum, exactly: [(2 idx + 1) * 2^52] in units of [2^-53] *)
  rewrite f64_half, add_finite.
  replace (Z.min ei (-53)) with (-53) by lia.
  unfold cond_Zopp. replace (-53 - -53) with 0 by lia.
  rewrite Z.pow_0_r, Z.mul_1_r.
  assert (Z.pos mi * 2 ^ (ei - -53) = idx * 2 ^ 53) as ->.
  { rewrite Hmi, <- Z.mul_assoc, <- Z.pow_add_r by lia. f_equal. f_equal. lia. }
  assert (0 < 2 * idx + 1) as Hq by lia.
  destruct (2 * idx + 1) as [|q|q] eqn:Hqe; try lia.
  pose proof (Pos2Z.is_pos (digits2_pos q)) as Hd0.
  assert (Z.pos (digits2_pos q) <= 32) as Hd32.
  { apply digits2_pos_le. change (2 ^ 32) with (2 * 2 ^ 31). lia. }
  assert (2 <= Z.pos (digits2_pos q)) as Hd2.
  { destruct (Z.le_gt_cases 2 (Z.pos (digits2_pos q))) as [|Hlt]; [done|].
    pose proof (digits2_pos_bounds q) as [_ Hhi].
    assert (Z.pos (digits2_pos q) = 1) as Hd1 by lia.
    rewrite Hd1 in Hhi. simpl in Hhi. lia. }
  set (dq := Z.pos (digits2_pos q)) in *.
  assert (0 < Z.pos q * 2 ^ (53 - dq)) as HmX.
  { apply Z.mul_pos_pos; [lia|]. apply Z.pow_pos_nonneg; lia. }
  destruct (Z.pos q * 2 ^ (53 - dq)) as [|mX|mX] eqn:HmXe; try lia.
  assert (Z.pos (digits2_pos mX) = 53) as HdX.
  { rewrite (digits2_pos_mul_pow2 q mX (53 - dq)) by (lia || done). fold dq. lia. }
  assert (bounded F64.prec F64.emax mX (dq - 54) = true) as HbX.
  { apply bounded_spec. rewrite f64_fexp, HdX. unfold F64.emax, F64.prec. lia. }
  assert (0 < idx * 2 ^ 53 + 4503599627370496) as Hsum by lia.
  destruct (idx * 2 ^ 53 + 4503599627370496) as [|mS|mS] eqn:HmS; try lia.
  assert (binary_normalize F64.prec F64.emax (Z.pos mS) (-53) false
          = S754_finite false mX (dq - 54)) as ->.
  { unfold binary_normalize.
    apply (binary_round_canonical_down F64.prec F64.emax ltac:(done)
             false mS mX (-53) (dq - 54) (dq - 1)); [done | lia | | lia].
    rewrite <- HmS, <- HmXe, <- Hqe, <- Z.mul_assoc, <- Z.pow_add_r by lia.
    replace (53 - dq + (dq - 1)) with 52 by lia.
    change (2 ^ 53) with (2 * 2 ^ 52).
    change 4503599627370496 with (2 ^ 52). lia. }
  split; [exact HbX|].
  assert (0 < 2 ^ (53 - dq)) as Hp1 by (apply Z.pow_pos_nonneg; lia).
  assert (2 ^ (- (dq - 54)) = 2 * 2 ^ (53 - dq)) as Hp2.
  { rewrite <- Z.pow_succ_r by lia. f_equal. lia. }
  split.
  - apply to_int_Some. split.
    + rewrite floor_finite by exact HbX. f_equal.
      destruct (Z.leb_spec 0 (dq - 54)); [lia|].
      unfold cond_Zopp. rewrite <- HmXe, <- Hqe, Hp2.
      symmetry. apply (Z.div_unique_pos _ _ idx (2 ^ (53 - dq))); lia.
    + unfold Int32.in_range, Int32.min_signed, Int32.max_signed. lia.
  - rewrite sub_finite. unfold cond_Zopp.
    set (ez := Z.min (dq - 54) ei).
    assert (0 < 2 ^ (- ez - 1)) as Hpz by (apply Z.pow_pos_nonneg; lia).
    assert (Z.pos mX * 2 ^ (dq - 54 - ez) - Z.pos mi * 2 ^ (ei - ez)
            = 2 ^ (- ez - 1)) as ->.
    { rewrite <- HmXe, Hmi, <- !Z.mul_assoc, <- !Z.pow_add_r by lia.
      replace (53 - dq + (dq - 54 - ez)) with (- ez - 1) by lia.
      replace (- ei + (ei - ez)) with (- ez - 1 + 1) by lia.
      rewrite Z.pow_add_r, Z.pow_1_r by lia. lia. }
    destruct (2 ^ (- ez - 1)) as [|p|p] eqn:Hp; try lia.
    unfold binary_normalize.
    apply (binary_round_canonical_up F64.prec F64.emax ltac:(done)
             false p 4503599627370496 ez (-53) (ez + 53)); [done | lia | | lia].
    rewrite <- Hp, <- Z.pow_add_r by lia.
    replace (- ez - 1 + (ez + 53)) with 52 by lia. reflexivity.
Qed.

End Midpoint.

Section MidpointBlend.

(** The largest finite [float], and its mantissa as a [double]. *)
Local Abbreviation F := 16777215%positive.
Local Abbreviation FD := 9007198717870080%positive.

Lemma cond_Zopp_abs_sub (s : bool) (a b : Z) :
  Z.abs (cond_Zopp s a - cond_Zopp s b) = Z.abs (a - b).
Proof. destruct s; unfold cond_Zopp; lia. Qed.

Lemma cond_Zopp_mul (s : bool) (a b : Z) :
  cond_Zopp s a * b = cond_Zopp s (a * b).
Proof. destruct s; unfold cond_Zopp; lia. Qed.

Lemma half_product (v : float32) :
  F32.valid v -> is_finite v = true ->
  half_shape v (F64.mul F64.half (F64.of_single v)).
Proof.
  intros Hv Hfin. destruct v as [s|s| |s m0 e0]; try done.
  destruct (of_single_finite s m0 e0 Hv) as (m' & -> & Hm' & Hd' & Hb').
  apply f32_valid_finite in Hv as (Hcan & Hmax & Hm & _).
  pose proof (Pos2Z.is_pos (digits2_pos m0)) as Hd0.
  pose proof (digits2_pos_le m0 24 Hm) as Hd.
  set (d0 := Z.pos (digits2_pos m0)) in *.
  rewrite f64_half, mul_pow2 by (done || lia).
  replace (d0 + e0 - 53 + 52 + -53) with (d0 + e0 - 54) by lia.
  unfold half_shape. split; [done|]. split; [lia|].
  assert (Z.pos m' * 2 ^ (d0 + e0 - 54 + 300) = Z.pos m0 * 2 ^ (e0 + 299)) as Hval.
  { rewrite Hm', <- Z.mul_assoc, <- Z.pow_add_r by lia. f_equal. f_equal. lia. }
  split.
  - unfold F32.scaled, scaled_at.
    replace (d0 + e0 - 54 - -300) with (d0 + e0 - 54 + 300) by lia.
    rewrite !cond_Zopp_mul. f_equal. rewrite Hval.
    rewrite <- Z.mul_assoc, <- Z.pow_add_r by lia. f_equal. f_equal. lia.
  - rewrite Hval.
    assert (2 ^ 403 = 2 ^ (e0 + 299) * 2 ^ (104 - e0)) as Hs.
    { rewrite <- Z.pow_add_r by lia. f_equal. lia. }
    assert (Z.pos FD * 2 ^ 374 = Z.pos F * 2 ^ 403) as -> by reflexivity.
    rewrite Hs.
    assert (0 < 2 ^ (e0 + 299)) by (apply Z.pow_pos_nonneg; lia).
    assert (1 <= 2 ^ (104 - e0)).
    { change 1 with (2 ^ 0). apply Z.pow_le_mono_r; lia. }
    change (2 ^ 24) with 16777216 in Hm. nia.
Qed.

End MidpointBlend.

Section MidpointSum.

Local Abbreviation F := 16777215%positive.
Local Abbreviation FD := 9007198717870080%positive.

Lemma f64_max_float_bounded : bounded F64.prec F64.emax FD 75 = true.
Proof. reflexivity. Qed.

Lemma f32_max_float_bounded : bounded F32.prec F32.emax F 104 = true.
Proof. reflexivity. Qed.

Lemma scaled_lt (a b z w : Z) :
  0 <= a < b -> 0 < z -> 1 <= w -> a * z < b * z * w.
Proof.
  intros Hab Hz Hw. assert (a * z < b * z) by nia.
  assert (b * z <= b * z * w) by nia. lia.
Qed.

(** The rounded sum of two halves: zero when the exact sum [T] is, and
    otherwise a normal [double] within [2^-53] of [T], bounded by the
    largest [float]. *)
Lemma half_sum (v0 v1 : float32) (a b : float64) :
  half_shape v0 a -> half_shape v1 b ->
  let T := (F32.scaled v0 + F32.scaled v1) * 2 ^ 150 in
  let r := F64.add a b in
  match r with
  | S754_zero _ => T = 0
  | S754_finite s M e =>
      Z.pos (digits2_pos M) = 53 /\ -300 + 24 <= e
      /\ Z.abs (scaled_at (-300) r - T) * 2 ^ 53 <= Z.abs T
      /\ Z.abs T < 2 ^ (53 + e + 300)
      /\ Z.pos M * 2 ^ (e + 300) <= Z.pos FD * 2 ^ 375
  | _ => False
  end.
Proof.
  intros Ha Hb. cbv zeta.
  destruct a as [sa| | |sa ma ea]; try done;
    destruct b as [sb| | |sb mb eb]; try done; unfold half_shape in Ha, Hb.
  - rewrite Ha, Hb. by destruct sa, sb.
  - (* only the right half is not zero *)
    destruct Hb as (Hd & He & Hval & Hbnd).
    change (F64.add (S754_zero sa) (S754_finite sb mb eb))
      with (S754_finite sb mb eb).
    rewrite Ha, Z.add_0_l, <- Hval, Z.sub_diag. simpl Z.abs.
    split; [done|]. split; [lia|]. split; [lia|].
    assert (0 < 2 ^ (eb + 300)) by (apply Z.pow_pos_nonneg; lia).
    pose proof (digits2_pos_bounds mb) as [_ Hhi]. rewrite Hd in Hhi.
    unfold scaled_at. rewrite cond_Zopp_mul.
    replace (eb - -300) with (eb + 300) by lia.
    assert (Z.abs (cond_Zopp sb (Z.pos mb * 2 ^ (eb + 300)))
            = Z.pos mb * 2 ^ (eb + 300)) as ->
      by (destruct sb; unfold cond_Zopp; lia).
    split.
    + replace (53 + eb + 300) with (53 + (eb + 300)) by lia.
      rewrite (Z.pow_add_r 2 53 (eb + 300)) by lia. nia.
    + change (2 ^ 375) with (2 * 2 ^ 374). lia.
  - (* only the left half is not zero *)
    destruct Ha as (Hd & He & Hval & Hbnd).
    change (F64.add (S754_finite sa ma ea) (S754_zero sb))
      with (S754_finite sa ma ea).
    rewrite Hb, Z.add_0_r, <- Hval, Z.sub_diag. simpl Z.abs.
    split; [done|]. split; [lia|]. split; [lia|].
    assert (0 < 2 ^ (ea + 300)) by (apply Z.pow_pos_nonneg; lia).
    pose proof (digits2_pos_bounds ma) as [_ Hhi]. rewrite Hd in Hhi.
    unfold scaled_at. rewrite cond_Zopp_mul.
    replace (ea - -300) with (ea + 300) by lia.
    assert (Z.abs (cond_Zopp sa (Z.pos ma * 2 ^ (ea + 300)))
            = Z.pos ma * 2 ^ (ea + 300)) as ->
      by (destruct sa; unfold cond_Zopp; lia).
    split.
    + replace (53 + ea + 300) with (53 + (ea + 300)) by lia.
      rewrite (Z.pow_add_r 2 53 (ea + 300)) by lia. nia.
    + change (2 ^ 375) with (2 * 2 ^ 374). lia.
  - (* both halves are finite: the sum is rounded *)
    destruct Ha as (Hda & Hea & Hvala & Hbnda).
    destruct Hb as (Hdb & Heb & Hvalb & Hbndb).
    rewrite add_finite. set (ez := Z.min ea eb).
    set (S := cond_Zopp sa (Z.pos ma) * 2 ^ (ea - ez)
              + cond_Zopp sb (Z.pos mb) * 2 ^ (eb - ez)).
    assert (0 < 2 ^ (ez + 300)) as Hpz by (apply Z.pow_pos_nonneg; lia).
    assert ((F32.scaled v0 + F32.scaled v1) * 2 ^ 150 = S * 2 ^ (ez + 300)) as ->.
    { rewrite Z.mul_add_distr_r, <- Hvala, <- Hvalb. unfold S, scaled_at.
      rewrite Z.mul_add_distr_r, <- !Z.mul_assoc, <- !Z.pow_add_r by lia.
      f_equal; f_equal; f_equal; lia. }
    assert (Z.abs S * 2 ^ (ez + 300) <= Z.pos FD * 2 ^ 375) as HS.
    { assert (Z.abs S <= Z.pos ma * 2 ^ (ea - ez) + Z.pos mb * 2 ^ (eb - ez)).
      { unfold S. destruct sa, sb; unfold cond_Zopp;
          assert (0 < 2 ^ (ea - ez)) by (apply Z.pow_pos_nonneg; lia);
          assert (0 < 2 ^ (eb - ez)) by (apply Z.pow_pos_nonneg; lia); nia. }
      assert (Z.pos ma * 2 ^ (ea - ez) * 2 ^ (ez + 300) = Z.pos ma * 2 ^ (ea + 300)) as Ha'.
      { rewrite <- Z.mul_assoc, <- Z.pow_add_r by lia. f_equal. f_equal. lia. }
      assert (Z.pos mb * 2 ^ (eb - ez) * 2 ^ (ez + 300) = Z.pos mb * 2 ^ (eb + 300)) as Hb'.
      { rewrite <- Z.mul_assoc, <- Z.pow_add_r by lia. f_equal. f_equal. lia. }
      change (2 ^ 375) with (2 * 2 ^ 374). nia. }
    unfold binary_normalize.
    destruct S as [|p|p] eqn:HSe; [done | |].
    all: destruct (binary_round_normal F64.prec F64.emax ltac:(done)
                     (match S with Z.neg _ => true | _ => false end)
                     p ez FD 75 (-300))
           as (M & e & Hr & Hbd & HdM & Hexp & Herr & Hbound);
         [ change (emin F64.prec F64.emax) with (-1074);
           pose proof (Pos2Z.is_pos (digits2_pos p)); unfold F64.prec; lia
         | exact f64_max_float_bounded
         | unfold F64.prec; lia
         | lia
         | replace (ez - -300) with (ez + 300) by lia;
           replace (75 - -300) with 375 by lia; simpl Z.abs in HS; lia
         | ].
    all: rewrite HSe in Hr; rewrite Hr.
    all: replace (e - -300) with (e + 300) in * by lia.
    all: replace (ez - -300) with (ez + 300) in * by lia.
    all: replace (75 - -300) with 375 in * by lia.
    all: unfold F64.prec in *.
    all: pose proof (digits2_pos_bounds p) as [_ Hhi].
    all: assert (0 < 2 ^ (e + 300)) by (apply Z.pow_pos_nonneg; lia).
    all: assert (2 ^ (53 + e + 300)
                 = 2 ^ (Z.pos (digits2_pos p)) * 2 ^ (ez + 300)
                   * 2 ^ (e - (Z.pos (digits2_pos p) + ez - 53))) as Hsplit
           by (rewrite <- !Z.pow_add_r by lia; f_equal; lia).
    all: assert (1 <= 2 ^ (e - (Z.pos (digits2_pos p) + ez - 53)))
           by (change 1 with (2 ^ 0); apply Z.pow_le_mono_r; lia).
    all: split; [done|]; split; [lia|].
    all: unfold scaled_at; replace (e - -300) with (e + 300) by lia.
    all: simpl cond_Zopp.
    + rewrite (Z.abs_eq (Z.pos p * _)) by lia.
      split; [exact Herr|]. split; [|done].
      rewrite Hsplit. apply scaled_lt; [lia | done | done].
    + assert (Z.abs (- Z.pos M * 2 ^ (e + 300) - Z.neg p * 2 ^ (ez + 300))
              = Z.abs (Z.pos M * 2 ^ (e + 300) - Z.pos p * 2 ^ (ez + 300))) as ->
        by lia.
      assert (Z.abs (Z.neg p * 2 ^ (ez + 300)) = Z.pos p * 2 ^ (ez + 300)) as ->
        by lia.
      split; [exact Herr|]. split; [|done].
      rewrite Hsplit. apply scaled_lt; [lia | done | done].
Qed.

End MidpointSum.

Section MidpointNarrow.

Local Abbreviation F := 16777215%positive.
Local Abbreviation FD := 9007198717870080%positive.

(** Two roundings, to 53 and then to 24 bits, stay within [10^-6]. *)
Lemma two_roundings (X R T : Z) :
  Z.abs (X - R) * 2 ^ 24 <= Z.abs R ->
  Z.abs (R - T) * 2 ^ 53 <= Z.abs T ->
  10 ^ 6 * Z.abs (X - T) <= Z.abs T.
Proof.
  change (2 ^ 24) with 16777216. change (2 ^ 53) with 9007199254740992.
  change (10 ^ 6) with 1000000. lia.
Qed.

(** The sample computed half way between two finite samples: in the
    normal range of [float] it is within [10^-6] of their mean, relatively.
    Values are in units of [2^-149]; [s] is twice the mean. *)
Lemma midpoint_blend (v0 v1 : float32) :
  F32.valid v0 -> F32.valid v1 ->
  is_finite v0 = true -> is_finite v1 = true ->
  let s := F32.scaled v0 + F32.scaled v1 in
  let o := F64.to_single
             (F64.add (F64.mul F64.half (F64.of_single v0))
                      (F64.mul F64.half (F64.of_single v1))) in
  s = 0 \/ 2 ^ 24 <= Z.abs s ->
  is_finite o = true /\ 10 ^ 6 * Z.abs (2 * F32.scaled o - s) <= Z.abs s.
Proof.
  intros Hv0 Hv1 Hf0 Hf1. cbv zeta. intros Hnormal.
  pose proof (half_sum v0 v1 _ _ (half_product v0 Hv0 Hf0)
                (half_product v1 Hv1 Hf1)) as Hsum.
  cbv zeta in Hsum.
  set (s := F32.scaled v0 + F32.scaled v1) in *.
  assert (0 < 2 ^ 150) as HP by (apply Z.pow_pos_nonneg; lia).
  destruct (F64.add _ _) as [sr| | |sr M e]; try done.
  - (* the exact sum is zero *)
    assert (s = 0) as -> by nia. split; [done|].
    change (F32.scaled (F64.to_single (S754_zero sr))) with 0. lia.
  - destruct Hsum as (HdM & He & Herr & Hlow & Hbound).
    set (T := s * 2 ^ 150) in *.
    assert (0 < 2 ^ (e + 300)) as Hpe by (apply Z.pow_pos_nonneg; lia).
    assert (s <> 0) as Hs.
    { intros Hs0. unfold T in Herr. rewrite Hs0 in Herr. simpl in Herr.
      unfold scaled_at in Herr. replace (e - -300) with (e + 300) in Herr by lia.
      rewrite Z.sub_0_r in Herr. destruct sr; unfold cond_Zopp in Herr; lia. }
    destruct Hnormal as [|Hnormal]; [done|].
    assert (2 ^ 174 <= Z.abs T) as HT.
    { unfold T. rewrite Z.abs_mul, (Z.abs_eq (2 ^ 150)) by lia.
      change (2 ^ 174) with (2 ^ 24 * 2 ^ 150). nia. }
    assert (-178 <= e) as He'.
    { assert (2 ^ 174 < 2 ^ (53 + e + 300)) as Hlt by lia.
      apply Z.pow_lt_mono_r_iff in Hlt; lia. }
    unfold F64.to_single. rewrite binary_normalize_signed.
    destruct (binary_round_normal F32.prec F32.emax ltac:(done) sr M e F 104 (-300))
      as (m & e32 & -> & Hbd & Hdm & Hexp & Herr32 & Hbound32).
    { change (emin F32.prec F32.emax) with (-149). rewrite HdM.
      unfold F32.prec. lia. }
    { exact f32_max_float_bounded. }
    { unfold F32.prec. lia. }
    { lia. }
    { replace (e - -300) with (e + 300) by lia.
      change (Z.pos F * 2 ^ (104 - -300)) with (Z.pos FD * 2 ^ 375). exact Hbound. }
    split; [done|].
    apply bounded_spec in Hbd as [Hcan _].
    apply canonical_digits in Hcan as (_ & Hemin & _).
    change (emin F32.prec F32.emax) with (-149) in Hemin.
    replace (e32 - -300) with (e32 + 300) in * by lia.
    replace (e - -300) with (e + 300) in * by lia.
    unfold F32.prec in Herr32.
    (* everything in units of [2^-300] *)
    set (X := scaled_at (-300) (S754_finite sr m e32)).
    set (R := scaled_at (-300) (S754_finite sr M e)) in *.
    assert (X = 2 * F32.scaled (S754_finite sr m e32) * 2 ^ 150) as HX.
    { unfold X, F32.scaled, scaled_at. rewrite !cond_Zopp_mul.
      replace (e32 - -300) with (e32 + 300) by lia.
      replace (e32 - -149) with (e32 + 149) by lia.
      replace (2 * cond_Zopp sr (Z.pos m * 2 ^ (e32 + 149)) * 2 ^ 150)
        with (cond_Zopp sr (Z.pos m * 2 ^ (e32 + 149) * 2 ^ 151))
        by (change (2 ^ 151) with (2 * 2 ^ 150); destruct sr; unfold cond_Zopp; lia).
      f_equal. rewrite <- Z.mul_assoc, <- Z.pow_add_r by lia. f_equal. f_equal. lia. }
    assert (Z.abs (X - R) * 2 ^ 24 <= Z.abs R) as H24.
    { unfold X, R, scaled_at. rewrite !cond_Zopp_mul, cond_Zopp_abs_sub.
      replace (e32 - -300) with (e32 + 300) by lia.
      replace (e - -300) with (e + 300) by lia.
      assert (Z.abs (cond_Zopp sr (Z.pos M * 2 ^ (e + 300)))
              = Z.pos M * 2 ^ (e + 300)) as ->
        by (destruct sr; unfold cond_Zopp; lia).
      exact Herr32. }
    pose proof (two_roundings X R T H24 Herr) as Hfinal.
    rewrite HX in Hfinal. unfold T in Hfinal.
    replace (2 * F32.scaled (S754_finite sr m e32) * 2 ^ 150 - s * 2 ^ 150)
      with ((2 * F32.scaled (S754_finite sr m e32) - s) * 2 ^ 150) in Hfinal by lia.
    rewrite !Z.abs_mul, (Z.abs_eq (2 ^ 150)), Z.mul_assoc in Hfinal by lia.
    by apply Z.mul_le_mono_pos_r in Hfinal.
Qed.

End MidpointNarrow.

(** ** Rounding to nearest: enclosure, error, and values that snap back *)

Import Nearest.

Section NearestGrid.
Variables prec emax : Z.
Hypothesis Hprec : 2 <= prec.
Hypothesis Hemax : 2 <= emax.

Local Abbreviation fexp := (SpecFloat.fexp prec emax).
Local Abbreviation emin := (SpecFloat.emin prec emax).
Local Abbreviation pack := (Rounding.pack prec emax).

Lemma mul3_le (a b c a' b' : Z) :
  0 <= a <= a' -> 0 <= b <= b' -> 0 <= c -> a * b * c <= a' * (b' * c).
Proof.
  intros [? ?] [? ?] ?. rewrite Z.mul_assoc.
  apply Z.mul_le_mono_nonneg_r; [done|]. apply Z.mul_le_mono_nonneg; lia.
Qed.

Lemma grid_close (a b g : Z) : 0 < g -> Z.abs (a * g - b * g) < g -> a = b.
Proof. intros Hg H. nia. Qed.

(** The rounded mantissa [m1] on the grid [2^e0] of the exact value. *)
Lemma round_grid (s : bool) (mx : positive) (ex E : Z) :
  E <= ex -> E <= emin ->
  let X := Z.pos mx * 2 ^ (ex - E) in
  exists m1 e0,
    binary_round prec emax s mx ex
    = (if m1 =? 2 ^ prec then pack s (2 ^ (prec - 1)) (e0 + 1) else pack s m1 e0)
    /\ e0 = fexp (Z.pos (digits2_pos mx) + ex)
    /\ 0 <= m1 <= 2 ^ prec
    /\ (e0 = emin \/ 2 ^ (prec - 1) <= m1)
    /\ 2 * Z.abs (m1 * 2 ^ (e0 - E) - X) <= 2 ^ (e0 - E)
    /\ (forall K, X <= K * 2 ^ (e0 - E) -> m1 <= K)
    /\ (forall K, K * 2 ^ (e0 - E) <= X -> K <= m1)
    /\ (e0 = emin \/ 2 ^ (prec - 1) * 2 ^ (e0 - E) <= X)
    /\ X < 2 ^ prec * 2 ^ (e0 - E).
Proof.
  intros HE HEmin X.
  set (d := Z.pos (digits2_pos mx)). set (e0 := fexp (d + ex)).
  pose proof (digits2_pos_bounds mx) as [Hlo Hhi]. fold d in Hlo, Hhi.
  assert (0 < d) as Hd0 by (unfold d; lia).
  assert (e0 = emin /\ d + ex - prec <= emin \/ e0 = d + ex - prec /\ emin <= e0)
    as He0 by (unfold e0; rewrite fexp_spec; lia).
  assert (0 < 2 ^ (ex - E)) as HgX by (apply pow2_pos; lia).
  assert (0 < 2 ^ (e0 - E)) as Hg0 by (apply pow2_pos; lia).
  assert (e0 = emin \/ 2 ^ (prec - 1) * 2 ^ (e0 - E) <= X) as Hnormal.
  { destruct He0 as [[-> _] | [He0 Hmin]]; [by left | right].
    apply Z.le_trans with (2 ^ (d - 1) * 2 ^ (ex - E)); [|unfold X; nia].
    rewrite <- !Z.pow_add_r by lia. apply Z.pow_le_mono_r; lia. }
  assert (X < 2 ^ prec * 2 ^ (e0 - E)) as Hbelow.
  { apply Z.lt_le_trans with (2 ^ d * 2 ^ (ex - E)); [unfold X; nia|].
    rewrite <- !Z.pow_add_r by lia. apply Z.pow_le_mono_r; lia. }
  rewrite binary_round_closed by lia. cbv zeta. fold d e0.
  destruct (Z.leb_spec e0 ex) as [Hle | Hgt].
  - (* the value is on the grid *)
    exists (Z.pos mx * 2 ^ (ex - e0)), e0.
    assert (0 < 2 ^ (ex - e0)) as Hg by (apply pow2_pos; lia).
    assert (Z.pos mx * 2 ^ (ex - e0) < 2 ^ prec) as Hm.
    { apply Z.lt_le_trans with (2 ^ d * 2 ^ (ex - e0)); [nia|].
      rewrite <- Z.pow_add_r by lia. apply Z.pow_le_mono_r; lia. }
    assert (Z.pos mx * 2 ^ (ex - e0) * 2 ^ (e0 - E) = X) as Hval.
    { unfold X. rewrite <- Z.mul_assoc, <- Z.pow_add_r by lia.
      do 2 f_equal. lia. }
    destruct (Z.eqb_spec (Z.pos mx * 2 ^ (ex - e0)) (2 ^ prec)); [lia|].
    split; [reflexivity|]. split; [reflexivity|]. split; [lia|]. split.
    { destruct He0 as [[-> _] | [He0 _]]; [by left | right].
      apply Z.le_trans with (2 ^ (d - 1) * 2 ^ (ex - e0)); [|nia].
      rewrite <- Z.pow_add_r by lia. apply Z.pow_le_mono_r; lia. }
    rewrite Hval, Z.sub_diag. split; [simpl; lia|].
    split; [intros K HK; rewrite <- Hval in HK; nia|].
    split; [intros K HK; rewrite <- Hval in HK; nia|]. done.
  - (* the value is rounded to the grid *)
    set (n := e0 - ex). set (m1 := round_shift (Z.pos mx) n).
    exists m1, e0.
    assert (0 < 2 ^ n) as Hgn by (apply pow2_pos; lia).
    assert (2 ^ (e0 - E) = 2 ^ n * 2 ^ (ex - E)) as Hsplit
      by (apply pow2_mul; lia).
    destruct (round_shift_decompose (Z.pos mx) n ltac:(lia))
      as (q & rem & Hqr & Hrem & Hq & _ & Herr).
    fold m1 in Hq, Herr.
    assert (d + ex - prec <= e0) as Hde by lia.
    assert (Z.pos mx < 2 ^ prec * 2 ^ n) as Hmx.
    { eapply Z.lt_le_trans; [exact Hhi|].
      rewrite <- Z.pow_add_r by lia. apply Z.pow_le_mono_r; lia. }
    assert (q = Z.pos mx / 2 ^ n) as Hqdiv.
    { apply (Z.div_unique_pos _ _ q rem); [lia|]. rewrite Hqr. apply Z.add_cancel_r, Z.mul_comm. }
    assert (0 <= q < 2 ^ prec) as Hqb.
    { rewrite Hqdiv. split; [apply Z.div_pos; lia|].
      apply Z.div_lt_upper_bound; [lia|]. rewrite Z.mul_comm. exact Hmx. }
    split; [reflexivity|]. split; [reflexivity|]. split; [lia|]. split.
    { destruct He0 as [[-> _] | [He0 _]]; [by left | right].
      assert (2 ^ (prec - 1) <= q); [|clear - Hq H; lia].
      rewrite Hqdiv. apply Z.div_le_lower_bound; [lia|].
      eapply Z.le_trans; [|exact Hlo].
      rewrite <- Z.pow_add_r by lia. apply Z.pow_le_mono_r; lia. }
    split.
    { unfold X. rewrite Hsplit, Z.mul_assoc, <- Z.mul_sub_distr_r.
      rewrite Z.abs_mul, (Z.abs_eq (2 ^ (ex - E))) by lia.
      rewrite Z.mul_assoc. apply Z.mul_le_mono_nonneg_r; [lia | exact Herr]. }
    split; [|split; [|done]]; intros K HK; unfold X in HK;
      rewrite Hsplit, Z.mul_assoc in HK.
    + apply (round_shift_le_multiple (Z.pos mx) n K); [lia|].
      by apply Z.mul_le_mono_pos_r in HK.
    + apply Z.le_trans with (Z.pos mx / 2 ^ n); [|apply round_shift_ge; lia].
      apply Z.div_le_lower_bound; [lia|]. rewrite Z.mul_comm.
      by apply Z.mul_le_mono_pos_r in HK.
Qed.

(** The numbers of the format, on their own grid. *)
Lemma bounded_grid (m : positive) (e : Z) :
  bounded prec emax m e = true ->
  emin <= e <= emax - prec /\ Z.pos m < 2 ^ prec
  /\ (e = emin \/ 2 ^ (prec - 1) <= Z.pos m).
Proof.
  intros [Hcan Hmax]%bounded_spec.
  pose proof (canonical_lt_pow2 prec emax m e Hcan) as Hlt.
  pose proof (canonical_digits prec emax m e Hcan) as (Hd & Hemin & Hfull).
  split; [lia|]. split; [done|].
  destruct Hfull as [Hfull | ->]; [right | by left].
  pose proof (digits2_pos_bounds m) as [Hlo _]. by rewrite Hfull in Hlo.
Qed.

(** What [pack] makes of a rounded mantissa. *)
Lemma pack_grid (s : bool) (m1 e0 E : Z) :
  E <= emin -> emin <= e0 -> 0 <= m1 <= 2 ^ prec ->
  e0 = emin \/ 2 ^ (prec - 1) <= m1 ->
  let r := if m1 =? 2 ^ prec then pack s (2 ^ (prec - 1)) (e0 + 1)
           else pack s m1 e0 in
  valid_binary prec emax r = true
  /\ (is_finite r = true -> scaled_at E r = cond_Zopp s (m1 * 2 ^ (e0 - E)))
  /\ (m1 * 2 ^ (e0 - E) < 2 ^ (emax - E) -> is_finite r = true).
Proof.
  intros HE Hemin Hm1 Hcan. cbv zeta.
  assert (emin <= emax - prec) as Hrange by (unfold SpecFloat.emin; lia).
  assert (0 < 2 ^ (e0 - E)) as Hg0 by (apply pow2_pos; lia).
  assert (0 < 2 ^ (prec - 1)) as Hhalf by (apply pow2_pos; lia).
  assert (2 ^ prec = 2 * 2 ^ (prec - 1)) as Hdouble.
  { rewrite <- Z.pow_succ_r by lia. f_equal. lia. }
  destruct (Z.eqb_spec m1 (2 ^ prec)) as [-> | Hne].
  - destruct (2 ^ (prec - 1)) as [|p|p] eqn:Hp; try lia.
    unfold Rounding.pack.
    assert (2 ^ (e0 + 1 - E) = 2 * 2 ^ (e0 - E)) as Hup.
    { rewrite <- Z.pow_succ_r by lia. f_equal. lia. }
    destruct (Z.leb_spec (e0 + 1) (emax - prec)) as [Hfit | Hover].
    + split; [|split; [|done]].
      * apply bounded_spec. split; [|done].
        assert (Z.pos (digits2_pos p) = prec) as ->.
        { apply digits2_pos_unique. rewrite <- Hp. lia. }
        rewrite fexp_spec. lia.
      * intros _. unfold scaled_at. rewrite Hup.
        destruct s; unfold cond_Zopp; lia.
    + split; [done|]. split; [done|]. intros Hlt. exfalso.
      assert (2 ^ (emax - E) <= 2 ^ prec * 2 ^ (e0 - E)); [|lia].
      rewrite <- Z.pow_add_r by lia. apply Z.pow_le_mono_r; lia.
  - destruct m1 as [|p|p]; [| |lia].
    + unfold Rounding.pack. split; [done|]. split; [|done].
      intros _. unfold scaled_at. by destruct s.
    + unfold Rounding.pack.
      destruct (Z.leb_spec e0 (emax - prec)) as [Hfit | Hover].
      * split; [|split; [|done]].
        -- apply bounded_spec. split; [|done]. rewrite fexp_spec.
           pose proof (digits2_pos_le p prec ltac:(lia)) as Hd.
           destruct Hcan as [-> | Hfull]; [lia|].
           assert (Z.pos (digits2_pos p) = prec) as ->; [|lia].
           apply digits2_pos_unique. lia.
        -- intros _. unfold scaled_at. destruct s; unfold cond_Zopp; lia.
      * split; [done|]. split; [done|]. intros Hlt. exfalso.
        destruct Hcan as [-> | Hfull]; [lia|].
        assert (2 ^ (emax - E) <= 2 ^ (prec - 1) * 2 ^ (e0 - E)); [|nia].
        rewrite <- Z.pow_add_r by lia. apply Z.pow_le_mono_r; lia.
Qed.

(** Rounding a positive exact value: the magnitude [Y] of the result. *)
Lemma binary_round_magnitude (s : bool) (mx : positive) (ex E : Z) :
  E <= ex -> E <= emin ->
  let X := Z.pos mx * 2 ^ (ex - E) in
  let r := binary_round prec emax s mx ex in
  exists Y,
    0 <= Y
    /\ valid_binary prec emax r = true
    /\ (is_finite r = true -> scaled_at E r = cond_Zopp s Y)
    /\ (Y < 2 ^ (emax - E) -> is_finite r = true)
    /\ (forall mB eB, bounded prec emax mB eB = true ->
          X <= Z.pos mB * 2 ^ (eB - E) -> Y <= Z.pos mB * 2 ^ (eB - E))
    /\ (forall mB eB, bounded prec emax mB eB = true ->
          Z.pos mB * 2 ^ (eB - E) <= X -> Z.pos mB * 2 ^ (eB - E) <= Y)
    /\ Z.abs (Y - X) * 2 ^ prec <= Z.max X (2 ^ (2 - emax - E))
    /\ (forall mB eB, bounded prec emax mB eB = true ->
          4 * Z.abs (X - Z.pos mB * 2 ^ (eB - E)) < 2 ^ (eB - E) ->
          Y = Z.pos mB * 2 ^ (eB - E)).
Proof.
  intros HE HEmin X r.
  destruct (round_grid s mx ex E HE HEmin)
    as (m1 & e0 & Hr & He0 & Hm1 & Hcan & Herr & Hup & Hdown & Hnormal & Hbelow).
  fold X in Herr, Hup, Hdown, Hnormal, Hbelow.
  assert (emin <= e0) as Hemin0 by (rewrite He0, fexp_spec; lia).
  destruct (pack_grid s m1 e0 E HEmin Hemin0 Hm1 Hcan) as (Hvalid & Hval & Hfin).
  cbv zeta in Hvalid, Hval, Hfin. rewrite <- Hr in Hvalid, Hval, Hfin.
  fold r in Hvalid, Hval, Hfin.
  assert (0 < 2 ^ (e0 - E)) as Hg0 by (apply pow2_pos; lia).
  assert (0 < 2 ^ (prec - 1)) as Hhalf by (apply pow2_pos; lia).
  assert (2 ^ prec = 2 * 2 ^ (prec - 1)) as Hdouble.
  { rewrite <- Z.pow_succ_r by lia. f_equal. lia. }
  exists (m1 * 2 ^ (e0 - E)).
  split; [nia|]. split; [done|]. split; [done|]. split; [done|].
  assert (forall mB eB, bounded prec emax mB eB = true ->
            emin <= eB <= emax - prec /\ Z.pos mB < 2 ^ prec
            /\ (eB = emin \/ 2 ^ (prec - 1) <= Z.pos mB)
            /\ 0 < 2 ^ (eB - E)
            /\ (e0 <= eB -> 2 ^ (eB - E) = 2 ^ (eB - e0) * 2 ^ (e0 - E)
                            /\ 0 < 2 ^ (eB - e0))
            /\ (eB < e0 -> 2 ^ (e0 - E) = 2 ^ (e0 - eB) * 2 ^ (eB - E)
                           /\ 2 <= 2 ^ (e0 - eB))) as Hgrid.
  { intros mB eB (HeB & HmB & HcanB)%bounded_grid.
    split; [done|]. split; [done|]. split; [done|].
    split; [apply pow2_pos; lia|]. split; intros Hcmp.
    - split; [apply pow2_mul; lia | apply pow2_pos; lia].
    - split; [apply pow2_mul; lia|].
      change 2 with (2 ^ 1) at 1. apply Z.pow_le_mono_r; lia. }
  split; [|split; [|split]].
  - intros mB eB HB HX.
    destruct (Hgrid mB eB HB) as (HeB & HmB & HcanB & HgB & Hcoarse & Hfine).
    destruct (Z.le_gt_cases e0 eB) as [Hle | Hgt].
    + destruct (Hcoarse Hle) as [Hsplit Hg]. rewrite Hsplit, Z.mul_assoc in *.
      specialize (Hup (Z.pos mB * 2 ^ (eB - e0)) HX).
      apply Z.mul_le_mono_nonneg_r; [lia | exact Hup].
    + destruct (Hfine Hgt) as [Hsplit Hg]. exfalso.
      destruct Hnormal as [-> | Hnormal]; [lia|].
      assert (2 ^ prec * 2 ^ (eB - E) <= 2 ^ (prec - 1) * 2 ^ (e0 - E)).
      { rewrite Hsplit, Hdouble, (Z.mul_comm 2). apply mul3_le; lia. }
      assert (Z.pos mB * 2 ^ (eB - E) < 2 ^ prec * 2 ^ (eB - E))
        by (apply Z.mul_lt_mono_pos_r; lia).
      lia.
  - intros mB eB HB HX.
    destruct (Hgrid mB eB HB) as (HeB & HmB & HcanB & HgB & Hcoarse & Hfine).
    destruct (Z.le_gt_cases e0 eB) as [Hle | Hgt].
    + destruct (Hcoarse Hle) as [Hsplit Hg]. rewrite Hsplit, Z.mul_assoc in *.
      specialize (Hdown (Z.pos mB * 2 ^ (eB - e0)) HX).
      apply Z.mul_le_mono_nonneg_r; [lia | exact Hdown].
    + destruct (Hfine Hgt) as [Hsplit Hg].
      destruct Hcan as [-> | Hfull]; [lia|].
      apply Z.le_trans with (2 ^ prec * 2 ^ (eB - E));
        [apply Z.mul_le_mono_nonneg_r; lia|].
      rewrite Hsplit, Hdouble, (Z.mul_comm 2). apply mul3_le; lia.
  - assert (0 < X) as HXpos by (unfold X; apply Z.mul_pos_pos; [lia | apply pow2_pos; lia]).
    destruct Hnormal as [-> | Hnormal].
    + apply Z.le_trans with (2 ^ (2 - emax - E)); [|lia].
      assert (2 ^ (2 - emax - E) = 2 ^ (prec - 1) * 2 ^ (emin - E)) as ->.
      { apply pow2_mul; [lia | lia | unfold SpecFloat.emin; lia]. }
      nia.
    + apply Z.le_trans with X; [nia | lia].
  - intros mB eB HB Hnear.
    destruct (Hgrid mB eB HB) as (HeB & HmB & HcanB & HgB & Hcoarse & Hfine).
    destruct (Z.le_gt_cases e0 eB) as [Hle | Hgt].
    + destruct (Hcoarse Hle) as [Hsplit Hg].
      destruct (Z.eq_dec eB e0) as [-> | Hne0].
      { f_equal. apply (grid_close _ _ (2 ^ (e0 - E)) Hg0). lia. }
      destruct (Z.eq_dec eB (e0 + 1)) as [-> | Hne1].
      * replace (e0 + 1 - e0) with 1 in Hsplit by lia.
        change (2 ^ 1) with 2 in Hsplit. rewrite Hsplit in Hnear |- *.
        rewrite Z.mul_assoc in Hnear |- *. f_equal.
        apply (grid_close _ _ (2 ^ (e0 - E)) Hg0). lia.
      * exfalso.
        assert (4 <= 2 ^ (eB - e0)).
        { change 4 with (2 ^ 2). apply Z.pow_le_mono_r; lia. }
        destruct HcanB as [-> | HfullB]; [lia|].
        assert (X < 2 ^ (prec - 1) * 2 * 2 ^ (e0 - E)) by lia.
        assert (2 ^ (prec - 1) * 4 * 2 ^ (e0 - E) <= Z.pos mB * 2 ^ (eB - E)).
        { rewrite Hsplit. apply mul3_le; lia. }
        assert (1 * 2 ^ (eB - E) <= Z.pos mB * 2 ^ (eB - E))
          by (apply Z.mul_le_mono_nonneg_r; lia).
        lia.
    + destruct (Hfine Hgt) as [Hsplit Hg]. exfalso.
      destruct Hnormal as [-> | Hnormal]; [lia|].
      assert (2 ^ prec * 2 ^ (eB - E) <= X).
      { rewrite Hsplit in Hnormal. eapply Z.le_trans; [|exact Hnormal].
        rewrite Hdouble, (Z.mul_comm 2). apply mul3_le; lia. }
      assert ((Z.pos mB + 1) * 2 ^ (eB - E) <= 2 ^ prec * 2 ^ (eB - E))
        by (apply Z.mul_le_mono_nonneg_r; lia).
      lia.
Qed.

Lemma number_cases (b : spec_float) (E : Z) :
  number prec emax b ->
  (exists s, b = S754_zero s /\ scaled_at E b = 0)
  \/ (exists s m e, b = S754_finite s m e /\ bounded prec emax m e = true
                    /\ scaled_at E b = cond_Zopp s (Z.pos m * 2 ^ (e - E))).
Proof.
  intros [Hfin Hvalid]. destruct b as [s | | | s m e]; try done.
  - left. by exists s.
  - right. exists s, m, e. split; [done|]. split; [done|].
    unfold scaled_at. apply cond_Zopp_mul.
Qed.

Lemma bounded_magnitude (m : positive) (e E : Z) :
  E <= emin -> bounded prec emax m e = true ->
  2 ^ (e - E) <= Z.pos m * 2 ^ (e - E) < 2 ^ (emax - E).
Proof.
  intros HE (He & Hm & _)%bounded_grid.
  assert (0 < 2 ^ (e - E)) by (apply pow2_pos; lia).
  split; [nia|].
  apply Z.lt_le_trans with (2 ^ prec * 2 ^ (e - E)); [nia|].
  rewrite <- Z.pow_add_r by lia. apply Z.pow_le_mono_r; lia.
Qed.

(** [binary_normalize] rounds the exact value [M * 2^e]. *)
Lemma normalize_rounded (M e : Z) (sz : bool) (E : Z) :
  E <= e -> E <= emin ->
  rounded prec emax E (M * 2 ^ (e - E)) (binary_normalize prec emax M e sz).
Proof.
  intros HE HEmin.
  assert (0 < 2 ^ (e - E)) as Hg by (apply pow2_pos; lia).
  destruct M as [|p|p]; unfold binary_normalize.
  - split.
    + intros lo hi _ _ Hbetween. split; [done|]. by unfold scaled_at.
    + intros _. unfold scaled_at. simpl. lia.
  - destruct (binary_round_magnitude false p e E HE HEmin)
      as (Y & HY & Hvalid & Hval & Hfin & Hup & Hdown & Herr & _).
    set (X := Z.pos p * 2 ^ (e - E)) in *.
    assert (0 < X) as HX by (unfold X; nia).
    split.
    + intros lo hi Hlo Hhi [Hle Hge].
      destruct (number_cases hi E Hhi) as [(s & -> & Hv) | (s & m & e' & -> & Hb & Hv)];
        rewrite Hv in Hge |- *; [lia|].
      pose proof (bounded_magnitude m e' E HEmin Hb) as Hmag.
      destruct s; unfold cond_Zopp in Hge |- *; [lia|].
      specialize (Hup m e' Hb Hge).
      specialize (Hfin ltac:(lia)). rewrite (Hval Hfin). unfold cond_Zopp.
      split; [done|]. split; [|done].
      destruct (number_cases lo E Hlo) as [(s & -> & Hv') | (s & m' & e'' & -> & Hb' & Hv')];
        rewrite Hv' in Hle |- *; [lia|].
      pose proof (bounded_magnitude m' e'' E HEmin Hb') as Hmag'.
      destruct s; unfold cond_Zopp in Hle |- *; [lia|].
      by apply Hdown.
    + intros Hfinite. rewrite (Hval Hfinite). unfold cond_Zopp.
      rewrite (Z.abs_eq X) by lia. exact Herr.
  - destruct (binary_round_magnitude true p e E HE HEmin)
      as (Y & HY & Hvalid & Hval & Hfin & Hup & Hdown & Herr & _).
    set (X := Z.pos p * 2 ^ (e - E)) in *.
    assert (0 < X) as HX by (unfold X; nia).
    replace (Z.neg p * 2 ^ (e - E)) with (- X) by (unfold X; lia).
    split.
    + intros lo hi Hlo Hhi [Hle Hge].
      destruct (number_cases lo E Hlo) as [(s & -> & Hv) | (s & m & e' & -> & Hb & Hv)];
        rewrite Hv in Hle |- *; [lia|].
      pose proof (bounded_magnitude m e' E HEmin Hb) as Hmag.
      destruct s; unfold cond_Zopp in Hle |- *; [|lia].
      specialize (Hup m e' Hb ltac:(lia)).
      specialize (Hfin ltac:(lia)). rewrite (Hval Hfin). unfold cond_Zopp.
      split; [done|]. split; [lia|].
      destruct (number_cases hi E Hhi) as [(s & -> & Hv') | (s & m' & e'' & -> & Hb' & Hv')];
        rewrite Hv' in Hge |- *; [lia|].
      pose proof (bounded_magnitude m' e'' E HEmin Hb') as Hmag'.
      destruct s; unfold cond_Zopp in Hge |- *; [|lia].
      specialize (Hdown m' e'' Hb' ltac:(lia)). lia.
    + intros Hfinite. rewrite (Hval Hfinite). unfold cond_Zopp.
      replace (- Y - - X) with (- (Y - X)) by lia.
      rewrite !Z.abs_opp, (Z.abs_eq X) by lia. exact Herr.
Qed.

(** An exact value within a quarter of a unit in the last place of a
    number of the format rounds to that number. *)
Lemma normalize_snap (M e : Z) (sz : bool) (E : Z)
    (sb : bool) (mB : positive) (eB : Z) :
  E <= e -> E <= emin -> bounded prec emax mB eB = true ->
  4 * Z.abs (M * 2 ^ (e - E) - scaled_at E (S754_finite sb mB eB))
  < 2 ^ (eB - E) ->
  number prec emax (binary_normalize prec emax M e sz)
  /\ scaled_at E (binary_normalize prec emax M e sz)
     = scaled_at E (S754_finite sb mB eB).
Proof.
  intros HE HEmin Hb Hnear.
  assert (0 < 2 ^ (e - E)) as Hg by (apply pow2_pos; lia).
  pose proof (bounded_magnitude mB eB E HEmin Hb) as Hmag.
  assert (scaled_at E (S754_finite sb mB eB)
          = cond_Zopp sb (Z.pos mB * 2 ^ (eB - E))) as Hv.
  { unfold scaled_at. apply cond_Zopp_mul. }
  rewrite Hv in Hnear |- *.
  destruct M as [|p|p]; unfold binary_normalize.
  - exfalso. destruct sb; unfold cond_Zopp in Hnear; lia.
  - destruct (binary_round_magnitude false p e E HE HEmin)
      as (Y & HY & Hvalid & Hval & Hfin & _ & _ & _ & Hsnap).
    destruct sb; unfold cond_Zopp in Hnear |- *; [exfalso; lia|].
    specialize (Hsnap mB eB Hb Hnear).
    specialize (Hfin ltac:(lia)). rewrite (Hval Hfin). unfold cond_Zopp.
    done.
  - destruct (binary_round_magnitude true p e E HE HEmin)
      as (Y & HY & Hvalid & Hval & Hfin & _ & _ & _ & Hsnap).
    destruct sb; unfold cond_Zopp in Hnear |- *; [|exfalso; lia].
    assert (4 * Z.abs (Z.pos p * 2 ^ (e - E) - Z.pos mB * 2 ^ (eB - E))
            < 2 ^ (eB - E)) as Hnear' by lia.
    specialize (Hsnap mB eB Hb Hnear').
    specialize (Hfin ltac:(lia)). rewrite (Hval Hfin). unfold cond_Zopp.
    split; [done | lia].
Qed.

(** A number of the format is its own rounding. *)
Lemma exact_rounded (r : spec_float) (E X : Z) :
  number prec emax r -> scaled_at E r = X -> rounded prec emax E X r.
Proof.
  intros Hr <-. split.
  - intros lo hi _ _ Hbetween. done.
  - intros _. rewrite Z.sub_diag. simpl. lia.
Qed.

(** Two numbers of the format with one value, not zero, are one float. *)
Lemma number_eq (x y : spec_float) (E : Z) :
  E <= emin -> number prec emax x -> number prec emax y ->
  scaled_at E x = scaled_at E y -> scaled_at E x <> 0 -> x = y.
Proof.
  intros HE Hx Hy Heq Hnz.
  destruct (number_cases x E Hx) as [(s & -> & Hv) | (s & m & e & -> & Hb & Hv)];
    [lia|].
  destruct (number_cases y E Hy) as [(s' & -> & Hv') | (s' & m' & e' & -> & Hb' & Hv')];
    [lia|].
  rewrite Hv, Hv' in Heq.
  pose proof (bounded_magnitude m e E HE Hb) as Hmag.
  pose proof (bounded_magnitude m' e' E HE Hb') as Hmag'.
  assert (0 < 2 ^ (e - E)) as Hg by (apply pow2_pos; apply bounded_grid in Hb; lia).
  assert (0 < 2 ^ (e' - E)) as Hg' by (apply pow2_pos; apply bounded_grid in Hb'; lia).
  assert (s = s') as <-.
  { destruct s, s'; unfold cond_Zopp in Heq; try done; lia. }
  assert (Z.pos m * 2 ^ (e - E) = Z.pos m' * 2 ^ (e' - E)) as Hmeq.
  { destruct s; unfold cond_Zopp in Heq; lia. }
  pose proof Hb as [Hcan _]%bounded_spec. pose proof Hb' as [Hcan' _]%bounded_spec.
  pose proof (digits2_pos_bounds m) as [Hlo Hhi].
  pose proof (digits2_pos_bounds m') as [Hlo' Hhi'].
  set (d := Z.pos (digits2_pos m)) in *. set (d' := Z.pos (digits2_pos m')) in *.
  assert (0 < d) by (unfold d; lia). assert (0 < d') by (unfold d'; lia).
  assert (E <= e /\ E <= e') as [HeE HeE'].
  { apply bounded_grid in Hb, Hb'. lia. }
  assert (d + e = d' + e') as Hde.
  { assert (2 ^ (d - 1 + (e - E)) < 2 ^ (d' + (e' - E))) as H1.
    { rewrite !Z.pow_add_r by lia.
      apply Z.le_lt_trans with (Z.pos m * 2 ^ (e - E));
        [apply Z.mul_le_mono_nonneg_r; lia|].
      rewrite Hmeq. apply Z.mul_lt_mono_pos_r; lia. }
    assert (2 ^ (d' - 1 + (e' - E)) < 2 ^ (d + (e - E))) as H2.
    { rewrite !Z.pow_add_r by lia.
      apply Z.le_lt_trans with (Z.pos m' * 2 ^ (e' - E));
        [apply Z.mul_le_mono_nonneg_r; lia|].
      rewrite <- Hmeq. apply Z.mul_lt_mono_pos_r; lia. }
    apply Z.pow_lt_mono_r_iff in H1; [|lia|lia].
    apply Z.pow_lt_mono_r_iff in H2; [|lia|lia]. lia. }
  assert (e = e') as <-.
  { rewrite <- Hcan, <- Hcan'. by rewrite Hde. }
  f_equal. nia.
Qed.

End NearestGrid.

(** * The operations of the blend as roundings of exact values *)

Section FullMantissa.
Variables prec emax : Z.
Hypothesis Hprec : 0 < prec.

(** On a mantissa of at least [prec] bits [binary_round_aux] is
    [binary_round]. *)
Lemma binary_round_aux_full (s : bool) (m : positive) (e : Z) :
  prec <= Z.pos (digits2_pos m) ->
  binary_round_aux prec emax s (Z.pos m) e loc_Exact
  = binary_round prec emax s m e.
Proof.
  intros Hd. rewrite binary_round_aux_closed, binary_round_closed by done.
  cbv zeta. rewrite fexp_spec.
  set (e0 := Z.max (Z.pos (digits2_pos m) + e - prec) (SpecFloat.emin prec emax)).
  destruct (Z.leb_spec e0 e); [|reflexivity].
  assert (e0 = e) as -> by lia.
  by rewrite Z.sub_diag, Z.pow_0_r, Z.mul_1_r.
Qed.

End FullMantissa.

Section Binary64Rounded.

Local Abbreviation number64 := (number F64.prec F64.emax).
Local Abbreviation number32 := (number F32.prec F32.emax).
Local Abbreviation rounded64 := (rounded F64.prec F64.emax).
Local Abbreviation rounded32 := (rounded F32.prec F32.emax).

Lemma f64_format : 2 <= F64.prec /\ 2 <= F64.emax.
Proof. unfold F64.prec, F64.emax. lia. Qed.

Lemma f32_format : 2 <= F32.prec /\ 2 <= F32.emax.
Proof. unfold F32.prec, F32.emax. lia. Qed.

Lemma number64_exponent (s : bool) (m : positive) (e : Z) :
  number64 (S754_finite s m e) -> -1074 <= e.
Proof.
  intros [_ Hb]. destruct f64_format.
  apply (bounded_grid F64.prec F64.emax) in Hb as (He & _).
  unfold SpecFloat.emin, F64.prec, F64.emax in He. lia.
Qed.

Lemma scaled_at_rescale (E E' : Z) (x : spec_float) :
  E' <= E ->
  match x with S754_finite _ _ e => E <= e | _ => True end ->
  scaled_at E' x = scaled_at E x * 2 ^ (E - E').
Proof.
  intros HE Hx. destruct x as [s | | | s m e]; try done.
  rewrite !scaled_at_finite, <- Z.mul_assoc, <- Z.pow_add_r by lia.
  do 2 f_equal. lia.
Qed.

Lemma aligned_sum (a b ex ey E : Z) :
  E <= ex -> E <= ey ->
  (a * 2 ^ (ex - Z.min ex ey) + b * 2 ^ (ey - Z.min ex ey))
  * 2 ^ (Z.min ex ey - E)
  = a * 2 ^ (ex - E) + b * 2 ^ (ey - E).
Proof.
  intros Hx Hy.
  rewrite Z.mul_add_distr_r, <- !Z.mul_assoc, <- !Z.pow_add_r by lia.
  do 3 f_equal; lia.
Qed.

(** [x + y] *)
Lemma add_rounded (x y : float64) (E : Z) :
  number64 x -> number64 y -> E <= -1074 ->
  rounded64 E (scaled_at E x + scaled_at E y) (F64.add x y).
Proof.
  intros Hx Hy HE. destruct f64_format as [Hp Hm].
  destruct x as [sx | | | sx mx ex]; try (by destruct Hx);
    destruct y as [sy | | | sy my ey]; try (by destruct Hy).
  - apply (exact_rounded _ _ Hp); [by destruct sx, sy | by destruct sx, sy].
  - apply (exact_rounded _ _ Hp); [done|]. by rewrite scaled_at_zero.
  - apply (exact_rounded _ _ Hp); [done|]. by rewrite scaled_at_zero, Z.add_0_r.
  - pose proof (number64_exponent _ _ _ Hx). pose proof (number64_exponent _ _ _ Hy).
    rewrite add_finite, !scaled_at_finite.
    rewrite <- (aligned_sum _ _ ex ey E) by lia.
    apply normalize_rounded; [done | done | lia |].
    unfold SpecFloat.emin, F64.prec, F64.emax. lia.
Qed.

(** [x - y] *)
Lemma sub_rounded (x y : float64) (E : Z) :
  number64 x -> number64 y -> E <= -1074 ->
  rounded64 E (scaled_at E x - scaled_at E y) (F64.sub x y).
Proof.
  intros Hx Hy HE. destruct f64_format as [Hp Hm].
  destruct x as [sx | | | sx mx ex]; try (by destruct Hx);
    destruct y as [sy | | | sy my ey]; try (by destruct Hy).
  - apply (exact_rounded _ _ Hp); [by destruct sx, sy | by destruct sx, sy].
  - apply (exact_rounded _ _ Hp).
    + destruct Hy as [_ Hy]. split; [done | exact Hy].
    + change (F64.sub (S754_zero sx) (S754_finite sy my ey))
        with (S754_finite (negb sy) my ey).
      rewrite scaled_at_zero, !scaled_at_finite.
      destruct sy; unfold cond_Zopp, negb; lia.
  - apply (exact_rounded _ _ Hp); [done|]. by rewrite scaled_at_zero, Z.sub_0_r.
  - pose proof (number64_exponent _ _ _ Hx). pose proof (number64_exponent _ _ _ Hy).
    rewrite sub_finite, !scaled_at_finite.
    replace (cond_Zopp sx (Z.pos mx) * 2 ^ (ex - E)
             - cond_Zopp sy (Z.pos my) * 2 ^ (ey - E))
      with (cond_Zopp sx (Z.pos mx) * 2 ^ (ex - E)
            + (- cond_Zopp sy (Z.pos my)) * 2 ^ (ey - E)) by lia.
    rewrite <- (aligned_sum _ _ ex ey E) by lia.
    replace (cond_Zopp sx (Z.pos mx) * 2 ^ (ex - Z.min ex ey)
             - cond_Zopp sy (Z.pos my) * 2 ^ (ey - Z.min ex ey))
      with (cond_Zopp sx (Z.pos mx) * 2 ^ (ex - Z.min ex ey)
            + - cond_Zopp sy (Z.pos my) * 2 ^ (ey - Z.min ex ey)) by lia.
    apply normalize_rounded; [done | done | lia |].
    unfold SpecFloat.emin, F64.prec, F64.emax. lia.
Qed.

(** [x * y], for a [y] whose mantissa has all of its 53 bits. *)
Lemma mul_rounded (x y : float64) (E1 E2 : Z) :
  number64 x -> number64 y ->
  E1 <= -1074 -> E1 + E2 <= -1074 ->
  match y with
  | S754_finite _ m e => Z.pos (digits2_pos m) = 53 /\ E2 <= e
  | _ => True
  end ->
  rounded64 (E1 + E2) (scaled_at E1 x * scaled_at E2 y) (F64.mul x y).
Proof.
  intros Hx Hy HE1 HE Hfull. destruct f64_format as [Hp Hm].
  destruct x as [sx | | | sx mx ex]; try (by destruct Hx);
    destruct y as [sy | | | sy my ey]; try (by destruct Hy).
  - apply (exact_rounded _ _ Hp); [done|]. by rewrite !scaled_at_zero.
  - apply (exact_rounded _ _ Hp); [done|]. by rewrite !scaled_at_zero.
  - apply (exact_rounded _ _ Hp); [done|]. by rewrite !scaled_at_zero, Z.mul_0_r.
  - destruct Hfull as [Hd HE2].
    pose proof (number64_exponent _ _ _ Hx).
    unfold F64.mul, SFmul.
    rewrite binary_round_aux_full.
    2:{ unfold F64.prec. lia. }
    2:{ pose proof (digits2_pos_bounds my) as [Hlo _]. rewrite Hd in Hlo.
        pose proof (digits2_pos_bounds (mx * my)) as [_ Hhi].
        assert (2 ^ 52 < 2 ^ Z.pos (digits2_pos (mx * my))) as Hlt.
        { eapply Z.le_lt_trans; [|exact Hhi]. rewrite Pos2Z.inj_mul.
          change (53 - 1) with 52 in Hlo. nia. }
        apply Z.pow_lt_mono_r_iff in Hlt; unfold F64.prec; lia. }
    rewrite <- binary_normalize_signed.
    replace (scaled_at E1 (S754_finite sx mx ex) * scaled_at E2 (S754_finite sy my ey))
      with (cond_Zopp (xorb sx sy) (Z.pos (mx * my)) * 2 ^ (ex + ey - (E1 + E2))).
    { apply normalize_rounded; [done | done | lia |].
      unfold SpecFloat.emin, F64.prec, F64.emax. lia. }
    rewrite !scaled_at_finite, Pos2Z.inj_mul.
    replace (ex + ey - (E1 + E2)) with ((ex - E1) + (ey - E2)) by lia.
    rewrite Z.pow_add_r by lia.
    destruct sx, sy; unfold cond_Zopp, xorb; lia.
Qed.

(** [(double)v] is [v]. *)
Lemma of_single_number (v : float32) (E : Z) :
  number32 v -> E <= -201 ->
  number64 (F64.of_single v)
  /\ scaled_at E (F64.of_single v) = scaled_at E v
  /\ match F64.of_single v with
     | S754_finite _ m e => Z.pos (digits2_pos m) = 53 /\ -201 <= e
     | _ => True
     end.
Proof.
  intros [Hfin Hvalid] HE. destruct v as [s | | | s m e]; try done.
  pose proof Hvalid as (Hcan & Hmax & Hm & Hb)%f32_valid_finite.
  destruct (of_single_finite s m e Hvalid) as (m' & -> & Hm' & Hd' & Hb').
  pose proof (Pos2Z.is_pos (digits2_pos m)) as Hd0.
  pose proof (digits2_pos_le m 24 Hm) as Hd.
  split; [done|]. split; [|split; [done | lia]].
  rewrite !scaled_at_finite, Hm'.
  rewrite <- !cond_Zopp_mul, <- !Z.mul_assoc, <- Z.pow_add_r by lia.
  do 3 f_equal. lia.
Qed.

(** [(float)x] *)
Lemma to_single_rounded (x : float64) (E : Z) :
  number64 x -> E <= -1074 ->
  rounded32 E (scaled_at E x) (F64.to_single x).
Proof.
  intros Hx HE. destruct f32_format as [Hp Hm].
  destruct x as [s | | | s m e]; try (by destruct Hx).
  - by apply (exact_rounded _ _ Hp).
  - pose proof (number64_exponent _ _ _ Hx).
    unfold F64.to_single. rewrite scaled_at_finite.
    apply normalize_rounded; [done | done | lia |].
    unfold SpecFloat.emin, F32.prec, F32.emax. lia.
Qed.

Lemma to_single_snap (x : float64) (E : Z) (sb : bool) (mB : positive) (eB : Z) :
  number64 x -> E <= -1074 ->
  bounded F32.prec F32.emax mB eB = true ->
  4 * Z.abs (scaled_at E x - scaled_at E (S754_finite sb mB eB)) < 2 ^ (eB - E) ->
  number32 (F64.to_single x)
  /\ scaled_at E (F64.to_single x) = scaled_at E (S754_finite sb mB eB).
Proof.
  intros Hx HE Hb Hnear. destruct f32_format as [Hp Hm].
  assert (SpecFloat.emin F32.prec F32.emax = -149) as Hemin by reflexivity.
  destruct x as [s | | | s m e]; try (by destruct Hx).
  - exfalso. rewrite scaled_at_zero in Hnear.
    pose proof (bounded_magnitude F32.prec F32.emax Hp Hm mB eB E
                  ltac:(lia) Hb) as Hmag.
    rewrite scaled_at_finite, cond_Zopp_mul in Hnear.
    destruct sb; unfold cond_Zopp in Hnear; lia.
  - pose proof (number64_exponent _ _ _ Hx).
    unfold F64.to_single. rewrite scaled_at_finite in Hnear.
    apply normalize_snap; [done | done | lia | lia | done | done].
Qed.

(** [(double)z] is [z]. *)
Lemma of_int_number (z E : Z) :
  Z.abs z < 2 ^ 53 -> E <= -52 ->
  number64 (F64.of_int z) /\ scaled_at E (F64.of_int z) = z * 2 ^ (- E).
Proof.
  intros Hz HE. destruct (Z.eq_dec z 0) as [-> | Hnz].
  { by rewrite of_int_zero. }
  destruct (of_int_finite z Hnz Hz) as (m & e & -> & He & Hm & Hb).
  split; [done|]. rewrite scaled_at_finite.
  assert (cond_Zopp (z <? 0) (Z.pos m) = z * 2 ^ (- e)) as ->.
  { rewrite Hm. unfold cond_Zopp. destruct (Z.ltb_spec z 0); lia. }
  rewrite <- Z.mul_assoc, <- Z.pow_add_r by lia. do 2 f_equal. lia.
Qed.

Lemma one_number (E : Z) :
  E <= -52 -> number64 F64.one /\ scaled_at E F64.one = 2 ^ (- E).
Proof.
  intros HE. rewrite f64_one. split; [done|].
  rewrite scaled_at_finite. unfold cond_Zopp.
  change (Z.pos 4503599627370496) with (2 ^ 52).
  rewrite <- Z.pow_add_r by lia. f_equal. lia.
Qed.

End Binary64Rounded.

(** ** The mean of two samples in the subnormal range *)

Section MidpointSmall.

Local Abbreviation F := 16777215%positive.
Local Abbreviation FD := 9007198717870080%positive.
Local Abbreviation number64 := (number F64.prec F64.emax).
Local Abbreviation number32 := (number F32.prec F32.emax).

(** Two roundings of a value below [2^24] units, the second one to whole
    units of twice the size: the result is within one unit. *)
Lemma small_roundings (G O2 X s : Z) :
  0 < G -> Z.abs s < 2 ^ 24 ->
  Z.abs (X - s * G) * 2 ^ 53 <= Z.abs (s * G) ->
  Z.abs (O2 * G - X) * 2 ^ 24 <= Z.max (Z.abs X) (2 ^ 24 * G) ->
  Z.abs (O2 - s) <= 1.
Proof.
  intros HG Hs Herr Hnarrow.
  assert (Z.abs (s * G) <= (2 ^ 24 - 1) * G) as HsG.
  { rewrite Z.abs_mul, (Z.abs_eq G) by lia.
    apply Z.mul_le_mono_nonneg_r; lia. }
  assert (Z.abs (O2 * G - s * G) < 2 * G) as Hclose.
  { clear Hs. set (sG := s * G) in *. set (OG := O2 * G) in *.
    clearbody sG OG. lia. }
  replace (O2 * G - s * G) with ((O2 - s) * G) in Hclose by lia.
  rewrite Z.abs_mul, (Z.abs_eq G) in Hclose by lia.
  apply Z.mul_lt_mono_pos_r in Hclose; lia.
Qed.

Lemma midpoint_blend_small (v0 v1 : float32) :
  F32.valid v0 -> F32.valid v1 ->
  is_finite v0 = true -> is_finite v1 = true ->
  let s := F32.scaled v0 + F32.scaled v1 in
  let o := F64.to_single
             (F64.add (F64.mul F64.half (F64.of_single v0))
                      (F64.mul F64.half (F64.of_single v1))) in
  Z.abs s < 2 ^ 24 ->
  is_finite o = true /\ Z.abs (2 * F32.scaled o - s) <= 1.
Proof.
  intros Hv0 Hv1 Hf0 Hf1. cbv zeta. intros Hsmall.
  pose proof (half_sum v0 v1 _ _ (half_product v0 Hv0 Hf0)
                (half_product v1 Hv1 Hf1)) as Hsum.
  cbv zeta in Hsum.
  set (s := F32.scaled v0 + F32.scaled v1) in *.
  assert (0 < 2 ^ 150) as HP by (apply Z.pow_pos_nonneg; lia).
  destruct (F64.add _ _) as [sr| | |sr M e] eqn:Hr; try done.
  - assert (s = 0) as -> by nia. split; [done|].
    change (F32.scaled (F64.to_single (S754_zero sr))) with 0. lia.
  - destruct Hsum as (HdM & He & Herr & Hlow & Hbound).
    set (r := S754_finite sr M e) in *.
    assert (number64 r) as Hnum.
    { split; [done|]. unfold r. simpl. apply bounded_spec. rewrite f64_fexp, HdM.
      split; [lia|].
      pose proof (digits2_pos_bounds M) as [HMlo _]. rewrite HdM in HMlo.
      assert (0 < 2 ^ (e + 300)) by (apply Z.pow_pos_nonneg; lia).
      assert (2 ^ (e + 300) < 2 ^ 376) as Hlt.
      { assert (2 ^ (53 - 1) * 2 ^ (e + 300) < 2 ^ 52 * 2 ^ 376); [|nia].
        eapply Z.le_lt_trans; [|eapply Z.le_lt_trans; [exact Hbound|]].
        - apply Z.mul_le_mono_nonneg_r; lia.
        - change (2 ^ 52 * 2 ^ 376) with (2 ^ 53 * 2 ^ 375).
          apply Z.mul_lt_mono_pos_r; [lia | reflexivity]. }
      apply Z.pow_lt_mono_r_iff in Hlt; unfold F64.emax, F64.prec; lia. }
    destruct (to_single_rounded r (-1074) Hnum ltac:(lia)) as [Hencl Herr32].
    assert (scaled_at (-1074) r = scaled_at (-300) r * 2 ^ 774) as HX.
    { apply scaled_at_rescale; [lia | simpl; lia]. }
    set (R := scaled_at (-300) r) in *.
    set (G := 2 ^ 924).
    assert (0 < G) as HG by (apply Z.pow_pos_nonneg; lia).
    assert (0 < 2 ^ 774) as H774 by (apply Z.pow_pos_nonneg; lia).
    assert (s * 2 ^ 150 * 2 ^ 774 = s * G) as HT.
    { unfold G. rewrite <- Z.mul_assoc, <- Z.pow_add_r by lia. reflexivity. }
    assert (Z.abs (R * 2 ^ 774 - s * G) * 2 ^ 53 <= Z.abs (s * G)) as Herr'.
    { rewrite <- HT.
      replace (R * 2 ^ 774 - s * 2 ^ 150 * 2 ^ 774)
        with ((R - s * 2 ^ 150) * 2 ^ 774) by lia.
      rewrite (Z.abs_mul (R - _)), (Z.abs_mul (s * _)), (Z.abs_eq (2 ^ 774)) by lia.
      replace (Z.abs (R - s * 2 ^ 150) * 2 ^ 774 * 2 ^ 53)
        with (Z.abs (R - s * 2 ^ 150) * 2 ^ 53 * 2 ^ 774) by lia.
      apply Z.mul_le_mono_nonneg_r; [lia | exact Herr]. }
    assert (Z.abs (s * G) <= (2 ^ 24 - 1) * G) as HsG.
    { rewrite Z.abs_mul, (Z.abs_eq G) by lia.
      apply Z.mul_le_mono_nonneg_r; lia. }
    assert (Z.abs (R * 2 ^ 774) <= 2 ^ 24 * G) as HXb.
    { clear - Herr' HsG HG. set (sG := s * G) in *. set (X := R * 2 ^ 774) in *.
      clearbody sG X. lia. }
    set (o := F64.to_single r) in *.
    assert (number32 o
            /\ scaled_at (-1074) (S754_finite true 8388608 (-148))
               <= scaled_at (-1074) o
               <= scaled_at (-1074) (S754_finite false 8388608 (-148)))
      as [Hno _].
    { apply Hencl; [done | done |]. rewrite HX.
      change (scaled_at (-1074) (S754_finite true 8388608 (-148)))
        with (- (2 * (2 ^ 24 * 2 ^ 924))).
      change (scaled_at (-1074) (S754_finite false 8388608 (-148)))
        with (2 * (2 ^ 24 * 2 ^ 924)).
      fold G. clear - HXb HG. lia. }
    destruct Hno as [Hfo Hvo]. split; [exact Hfo|].
    specialize (Herr32 Hfo). rewrite HX in Herr32.
    assert (scaled_at (-1074) o = 2 * F32.scaled o * G) as HO.
    { unfold F32.scaled.
      rewrite (scaled_at_rescale (-149) (-1074) o); [ | lia | ].
      - change (2 ^ (-149 - -1074)) with (2 * 2 ^ 924). fold G. lia.
      - destruct o as [ | | |so mo eo]; try done.
        apply (f32_valid_finite so mo eo) in Hvo as (Hcan & _). lia. }
    rewrite HO in Herr32.
    change (2 ^ (2 - F32.emax - -1074)) with (2 ^ 24 * 2 ^ 924) in Herr32.
    fold G in Herr32. unfold F32.prec in Herr32.
    apply (small_roundings G (2 * F32.scaled o) (R * 2 ^ 774) s); done.
Qed.

(** The kernel's value half way between two finite samples is within
    [10^-6] of their mean, relatively, as soon as the sum of the samples is
    zero or at least [10^6] units of [2^-149]. *)
Lemma midpoint_blend_tolerance (v0 v1 : float32) :
  F32.valid v0 -> F32.valid v1 ->
  is_finite v0 = true -> is_finite v1 = true ->
  let s := F32.scaled v0 + F32.scaled v1 in
  let o := F64.to_single
             (F64.add (F64.mul F64.half (F64.of_single v0))
                      (F64.mul F64.half (F64.of_single v1))) in
  s = 0 \/ 10 ^ 6 <= Z.abs s ->
  is_finite o = true /\ 10 ^ 6 * Z.abs (2 * F32.scaled o - s) <= Z.abs s.
Proof.
  intros Hv0 Hv1 Hf0 Hf1. cbv zeta. intros Hs.
  destruct (Z.lt_ge_cases (Z.abs (F32.scaled v0 + F32.scaled v1)) (2 ^ 24))
    as [Hsmall | Hnormal].
  - destruct (midpoint_blend_small v0 v1 Hv0 Hv1 Hf0 Hf1 Hsmall) as [Hfin Hone].
    split; [exact Hfin|]. lia.
  - apply (midpoint_blend v0 v1 Hv0 Hv1 Hf0 Hf1). by right.
Qed.

End MidpointSmall.

(** * The kernel's contract *)

Lemma example_well_formed :
  Spec.well_formed Examples.proj Examples.normalized_angles 1 2 4 3
    Examples.sentinel.
Proof.
  split; try lia; try (unfold Int32.max_signed; lia); cbn; lia.
Defined.

Lemma example_angles_valid : Forall F64.valid Examples.normalized_angles.
Proof. repeat constructor. Defined.

Lemma example_proj_valid : Forall F32.valid Examples.proj.
Proof. repeat constructor. Defined.

Lemma example_run :
  Flattening.interpolation_loop Examples.proj Examples.normalized_angles
    1 2 4 3 Examples.sentinel = Some Examples.expected.
Proof. vm_compute. reflexivity. Qed.

(** The large volumes satisfy the data-model invariants of section 3. *)
Lemma large_data_model :
  Spec.data_model Examples.large_proj Examples.large_angles
    32769 1 1 65536 Examples.large_out.
Proof.
  unfold Examples.large_proj, Examples.large_angles, Examples.large_out.
  split; rewrite length_replicate, Z2Nat.id; lia.
Qed.

Lemma large_run :
  Flattening.interpolation_loop Examples.large_proj Examples.large_angles
    32769 1 1 65536 Examples.large_out = None.
Proof. apply past_limit_fails; lia. Qed.

(** C1, as stated, fails.  For the table entry [x = 2^31] the index
    [idx = floor(x) = 2^31] is at least [orig_num_detectors - 1 = 1], so
    that the element stated is [proj[0][0][1]]; the conversion
    [(int)floor(x)] of line 34 yields [INT_MIN] and the kernel writes
    [proj[0][0][0]].  And on volumes of [2^31 + 65536] output elements, which
    satisfy the data-model invariants, the [int] offsets overflow: the
    run is undefined. *)
Lemma per_sample_algorithm_counterexample :
  (Spec.data_model [Examples.single 1 0; Examples.single 2 0]
     [Examples.double 1 31] 1 1 2 1 [S754_nan]
   /\ Spec.floor (Examples.double 1 31) = 2 ^ 31
   /\ Spec.select [Examples.single 1 0; Examples.single 2 0] 1 2 0 0
        (Examples.double 1 31) (2 ^ 31) = Some (Examples.single 2 0)
   /\ Flattening.interpolation_loop [Examples.single 1 0; Examples.single 2 0]
        [Examples.double 1 31] 1 1 2 1 [S754_nan]
      = Some [Examples.single 1 0])
  /\ (Spec.data_model Examples.large_proj Examples.large_angles
        32769 1 1 65536 Examples.large_out
      /\ Flattening.interpolation_loop Examples.large_proj Examples.large_angles
           32769 1 1 65536 Examples.large_out = None).
Proof.
  split; [|split; [exact large_data_model | exact large_run]].
  split; [split; cbn; lia|]. split; [|split]; vm_compute; reflexivity.
Qed.

(** C1, amended.  On inputs that satisfy the data-model invariants with
    [orig_num_detectors >= 1],
    [num_proj * num_rows * orig_num_detectors <= 2^31 - 1] and
    [num_proj * num_rows * num_cols <= 2^31], and whose table entries are
    binary64 values, the kernel returns, and for every [(p, r, j)] in
    range, with [x = normalized_angles[j]]:
    - if [x] is a number with [-2^31 <= floor(x) < 2^31] then, with
      [idx = floor(x)] and [t = x - idx], the element [out[p][r][j]] is
      [proj[p][r][0]] when [idx < 0],
      [proj[p][r][orig_num_detectors - 1]] when
      [idx >= orig_num_detectors - 1], and otherwise the blend
      [(1 - t) * proj[p][r][idx] + t * proj[p][r][idx + 1]] computed in
      double precision from the two single-precision samples and narrowed
      to single precision ([Spec.select]);
    - for every other [x] (NaN, infinities, [floor(x)] outside [int]) the
      conversion to [int] yields [INT_MIN] and the element is
      [proj[p][r][0]]. *)
Theorem per_sample_algorithm
    (proj : list float32) (normalized_angles : list float64)
    (num_proj num_rows orig_num_detectors num_cols : Z) (out : list float32) :
  Spec.well_formed proj normalized_angles num_proj num_rows
    orig_num_detectors num_cols out ->
  Forall F64.valid normalized_angles ->
  exists out',
    Flattening.interpolation_loop proj normalized_angles num_proj num_rows
      orig_num_detectors num_cols out = Some out'
    /\ forall p r j,
         0 <= p < num_proj -> 0 <= r < num_rows -> 0 <= j < num_cols ->
         exists x,
           load normalized_angles j = Some x
           /\ (Spec.indexable x ->
               is_Some (Spec.select proj num_rows orig_num_detectors p r x
                          (Spec.floor x))
               /\ load out' (Spec.out_index num_rows num_cols p r j)
                  = Spec.select proj num_rows orig_num_detectors p r x
                      (Spec.floor x))
           /\ (~ Spec.indexable x ->
               is_Some (Spec.proj_at proj num_rows orig_num_detectors p r 0)
               /\ load out' (Spec.out_index num_rows num_cols p r j)
                  = Spec.proj_at proj num_rows orig_num_detectors p r 0).
Proof.
  intros Hwf Hvalid.
  destruct (wf_kernel _ _ _ _ _ _ _ Hwf) as (out' & Hrun & _ & Hval & _).
  exists out'. split; [exact Hrun|]. intros p r j Hp Hr Hj.
  destruct (wf_angle _ _ _ _ _ _ _ Hwf j Hj) as [x Hx].
  exists x. split; [exact Hx|].
  pose proof (load_Forall _ _ _ _ Hvalid Hx) as Hvx.
  destruct (cast_int_floor x Hvx) as [Hin Hout].
  destruct (wf_value _ _ _ _ _ _ _ Hwf p r j Hp Hr Hj) as [_ Hsome].
  rewrite (Hval p r j Hp Hr Hj). revert Hsome. unfold Spec.sample.
  rewrite Hx. change (Some x ≫= ?f) with (f x). cbv beta.
  intros Hsome. split.
  - intros Hix. rewrite (Hin Hix) in *. done.
  - intros Hix. rewrite (Hout Hix) in *. done.
Qed.

Lemma per_sample_algorithm_witness :
  exists out',
    Flattening.interpolation_loop Examples.proj Examples.normalized_angles
      1 2 4 3 Examples.sentinel = Some out'
    /\ forall p r j,
         0 <= p < 1 -> 0 <= r < 2 -> 0 <= j < 3 ->
         exists x,
           load Examples.normalized_angles j = Some x
           /\ (Spec.indexable x ->
               is_Some (Spec.select Examples.proj 2 4 p r x (Spec.floor x))
               /\ load out' (Spec.out_index 2 3 p r j)
                  = Spec.select Examples.proj 2 4 p r x (Spec.floor x))
           /\ (~ Spec.indexable x ->
               is_Some (Spec.proj_at Examples.proj 2 4 p r 0)
               /\ load out' (Spec.out_index 2 3 p r j)
                  = Spec.proj_at Examples.proj 2 4 p r 0).
Proof.
  exact (per_sample_algorithm _ _ _ _ _ _ _ example_well_formed
           example_angles_valid).
Defined.

(** C2, as stated, fails: with every data-model invariant of section 3 in
    place the kernel reads outside [proj] when the curved detector has no
    column, and on volumes of [2^31 + 65536] output elements its [int] offsets
    overflow. *)
Lemma kernel_total_counterexample :
  (Spec.data_model [] [S754_zero false] 1 1 0 1 [S754_nan]
   /\ Flattening.interpolation_loop [] [S754_zero false]
        1 1 0 1 [S754_nan] = None)
  /\ (Spec.data_model Examples.large_proj Examples.large_angles
        32769 1 1 65536 Examples.large_out
      /\ Flattening.interpolation_loop Examples.large_proj Examples.large_angles
           32769 1 1 65536 Examples.large_out = None).
Proof.
  split; [|split; [exact large_data_model | exact large_run]].
  split; [split; cbn; lia|]. vm_compute. reflexivity.
Qed.

(** C2, amended.  On inputs that satisfy the data-model invariants and, in
    addition, have [orig_num_detectors >= 1],
    [num_proj * num_rows * orig_num_detectors <= 2^31 - 1] and
    [num_proj * num_rows * num_cols <= 2^31], the kernel never fails,
    whatever doubles the table holds (NaN, infinities and values of any
    size included) and whatever the sign of the extents: the whole run
    returns an output volume, and so does every single iteration on any
    output buffer of that size, which in this embedding says that each
    read and each write is inside its buffer. *)
Theorem kernel_total
    (proj : list float32) (normalized_angles : list float64)
    (num_proj num_rows orig_num_detectors num_cols : Z) (out : list float32) :
  Spec.well_formed proj normalized_angles num_proj num_rows
    orig_num_detectors num_cols out ->
  is_Some (Flattening.interpolation_loop proj normalized_angles num_proj
             num_rows orig_num_detectors num_cols out)
  /\ forall i r j (buf : list float32),
       0 <= i < num_proj -> 0 <= r < num_rows -> 0 <= j < num_cols ->
       length buf = length out ->
       is_Some (Flattening.loop_body proj normalized_angles num_rows
                  orig_num_detectors num_cols i r j buf).
Proof.
  intros Hwf. split.
  - destruct (wf_kernel _ _ _ _ _ _ _ Hwf) as (out' & Hrun & _). by exists out'.
  - intros i r j buf Hi Hr Hj Hlen. rewrite loop_body_scatter.
    destruct (wf_value _ _ _ _ _ _ _ Hwf i r j Hi Hr Hj) as [Hv [v Hs]].
    destruct (wf_offset _ _ _ _ _ _ _ Hwf i r j Hi Hr Hj) as [Ha Hb].
    unfold scatter. rewrite Hv, Hs. change (Some v ≫= ?f) with (f v). cbv beta.
    apply store_is_Some. rewrite Ha, Hlen. exact Hb.
Qed.

(** A table of a NaN, an infinity and a value beyond [int]. *)
Lemma wild_table_well_formed :
  Spec.well_formed Examples.proj
    [S754_nan; S754_infinity false; Examples.double (-1) 40] 1 2 4 3
    Examples.sentinel.
Proof.
  split; try lia; try (unfold Int32.max_signed; lia); cbn; lia.
Defined.

Lemma kernel_total_witness :
  is_Some (Flattening.interpolation_loop Examples.proj
             [S754_nan; S754_infinity false; Examples.double (-1) 40]
             1 2 4 3 Examples.sentinel)
  /\ forall i r j (buf : list float32),
       0 <= i < 1 -> 0 <= r < 2 -> 0 <= j < 3 ->
       length buf = length Examples.sentinel ->
       is_Some (Flattening.loop_body Examples.proj
                  [S754_nan; S754_infinity false; Examples.double (-1) 40]
                  2 4 3 i r j buf).
Proof.
  exact (kernel_total _ _ _ _ _ _ _ wild_table_well_formed).
Defined.



(** C6.  [interp_loop] and [interpolation_loop] are the same function of
    their arguments, [num_angles] taking the place of [num_proj]. *)
Theorem interp_loop_interpolation_loop
    (proj : list float32) (normalized_angles : list float64)
    (num_angles num_rows orig_num_detectors num_cols : Z) (out : list float32) :
  CLibrary.interp_loop proj normalized_angles num_angles num_rows
    orig_num_detectors num_cols out
  = Flattening.interpolation_loop proj normalized_angles num_angles num_rows
      orig_num_detectors num_cols out.
Proof.
  unfold CLibrary.interp_loop, Flattening.interpolation_loop, Flattening.kernel.
  apply for_each_ext, Forall_forall; intros i _ s1.
  apply for_each_ext, Forall_forall; intros r _ s2.
  apply for_each_ext, Forall_forall; intros j _ s3.
  unfold CLibrary.loop_body, Flattening.loop_body, write_out, plain_buffer.
  reflexivity.
Qed.

(** C9, as stated, fails: the volumes of [2^31 + 65536] output elements
    satisfy the data-model invariants, and yet the run does not write
    every element: the [int] offset of an element past the first [2^31]
    overflows. *)
Lemma writes_exactly_once_counterexample :
  Spec.data_model Examples.large_proj Examples.large_angles
    32769 1 1 65536 Examples.large_out
  /\ 2 ^ 31 < 32769 * 1 * 65536
  /\ Flattening.interpolation_loop Examples.large_proj Examples.large_angles
       32769 1 1 65536 Examples.large_out = None
  /\ Flattening.interpolation_loop_traced Examples.large_proj
       Examples.large_angles 32769 1 1 65536 Examples.large_out = None.
Proof.
  split; [exact large_data_model|]. split; [lia|].
  split; [exact large_run|]. apply past_limit_fails_traced; lia.
Qed.

(** C9, amended.  On inputs that satisfy the data-model invariants with
    [orig_num_detectors >= 1] (so that every read is inside [proj]),
    [num_proj * num_rows * orig_num_detectors <= 2^31 - 1] and
    [num_proj * num_rows * num_cols <= 2^31], whatever doubles the table
    holds: the stores of the run, in program order, go to the offsets
    [0, 1, ..., num_proj*num_rows*num_cols - 1]: the offset of every
    [out[p][r][j]] is stored to exactly once and no other offset is.  The
    element left there is the sample, whatever the volume held before the
    call; the length of the volume and every element past the extents are
    unchanged.  ([proj] and [normalized_angles] are read-only arguments of
    the kernel: no state of it contains them.) *)
Theorem writes_exactly_once
    (proj : list float32) (normalized_angles : list float64)
    (num_proj num_rows orig_num_detectors num_cols : Z) (out : list float32) :
  Spec.well_formed proj normalized_angles num_proj num_rows
    orig_num_detectors num_cols out ->
  exists out',
    Flattening.interpolation_loop_traced proj normalized_angles num_proj
      num_rows orig_num_detectors num_cols out
    = Some (Traced out'
              ((fun '(p, r, j) => Spec.out_index num_rows num_cols p r j)
                 <$> iteration_space num_proj num_rows num_cols))
    /\ NoDup ((fun '(p, r, j) => Spec.out_index num_rows num_cols p r j)
                <$> iteration_space num_proj num_rows num_cols)
    /\ (1 <= num_proj -> 1 <= num_rows -> 1 <= num_cols ->
        (fun '(p, r, j) => Spec.out_index num_rows num_cols p r j)
          <$> iteration_space num_proj num_rows num_cols
        = range (num_proj * num_rows * num_cols))
    /\ Flattening.interpolation_loop proj normalized_angles num_proj
         num_rows orig_num_detectors num_cols out = Some out'
    /\ length out' = length out
    /\ (forall p r j,
          0 <= p < num_proj -> 0 <= r < num_rows -> 0 <= j < num_cols ->
          is_Some (Spec.sample proj normalized_angles num_rows
                     orig_num_detectors p r j)
          /\ load out' (Spec.out_index num_rows num_cols p r j)
             = Spec.sample proj normalized_angles num_rows
                 orig_num_detectors p r j)
    /\ (forall n : nat,
          (forall p r j,
             0 <= p < num_proj -> 0 <= r < num_rows -> 0 <= j < num_cols ->
             Z.of_nat n <> Spec.out_index num_rows num_cols p r j) ->
          out' !! n = out !! n).
Proof.
  intros Hwf.
  destruct (wf_kernel _ _ _ _ _ _ _ Hwf) as (out' & Hrun & Hlen & Hval & _).
  assert (Flattening.iteration_offset num_rows num_cols
            <$> iteration_space num_proj num_rows num_cols
          = (fun '(p, r, j) => Spec.out_index num_rows num_cols p r j)
              <$> iteration_space num_proj num_rows num_cols) as Hoff.
  { apply list_fmap_ext. intros _ [[i r] j] Hin%list_elem_of_lookup_2.
    apply elem_of_iteration_space in Hin as (? & ? & ?).
    by destruct (wf_offset _ _ _ _ _ _ _ Hwf i r j) as [-> _]. }
  exists out'.
  unfold Flattening.interpolation_loop in Hrun. rewrite kernel_scatter in Hrun.
  split; [|split; [|split; [|split; [|split; [|split]]]]].
  - unfold Flattening.interpolation_loop_traced.
    rewrite kernel_scatter, scatter_traced, Hrun.
    change (Some out' ≫= ?f) with (f out'). cbv beta.
    by rewrite Hoff.
  - rewrite <- Hoff. apply iteration_offsets_NoDup.
  - intros HP HR HC. apply out_index_iteration_space; lia.
  - unfold Flattening.interpolation_loop. by rewrite kernel_scatter.
  - exact Hlen.
  - intros p r j Hp Hr Hj. split; [|by apply Hval].
    by destruct (wf_value _ _ _ _ _ _ _ Hwf p r j Hp Hr Hj) as [_ ?].
  - intros n Hn. apply (scatter_frame _ _ _ _ _ n Hrun).
    intros [[i r] j] (Hi & Hr & Hj)%elem_of_iteration_space.
    destruct (wf_offset _ _ _ _ _ _ _ Hwf i r j) as [-> _]; [done..|].
    intros Heq. by apply (Hn i r j).
Qed.

Lemma writes_exactly_once_witness :
  exists out',
    Flattening.interpolation_loop_traced Examples.proj Examples.normalized_angles
      1 2 4 3 Examples.sentinel
    = Some (Traced out'
              ((fun '(p, r, j) => Spec.out_index 2 3 p r j)
                 <$> iteration_space 1 2 3))
    /\ NoDup ((fun '(p, r, j) => Spec.out_index 2 3 p r j)
                <$> iteration_space 1 2 3)
    /\ (1 <= 1 -> 1 <= 2 -> 1 <= 3 ->
        (fun '(p, r, j) => Spec.out_index 2 3 p r j) <$> iteration_space 1 2 3
        = range (1 * 2 * 3))
    /\ Flattening.interpolation_loop Examples.proj Examples.normalized_angles
         1 2 4 3 Examples.sentinel = Some out'
    /\ length out' = length Examples.sentinel
    /\ (forall p r j,
          0 <= p < 1 -> 0 <= r < 2 -> 0 <= j < 3 ->
          is_Some (Spec.sample Examples.proj Examples.normalized_angles 2 4 p r j)
          /\ load out' (Spec.out_index 2 3 p r j)
             = Spec.sample Examples.proj Examples.normalized_angles 2 4 p r j)
    /\ (forall n : nat,
          (forall p r j,
             0 <= p < 1 -> 0 <= r < 2 -> 0 <= j < 3 ->
             Z.of_nat n <> Spec.out_index 2 3 p r j) ->
          out' !! n = Examples.sentinel !! n).
Proof.
  exact (writes_exactly_once _ _ _ _ _ _ _ example_well_formed).
Defined.

(** ** The [int] offsets and the size of the volumes *)

Section OffsetLimit.
Variables P R D C : Z.
Hypothesis (HP : 1 <= P) (HR : 1 <= R) (HD : 1 <= D) (HC : 1 <= C).

Lemma out_elements_exact_iff :
  (forall i r j, 0 <= i < P -> 0 <= r < R -> 0 <= j < C ->
     Flattening.out_element R C i r j = Some (Spec.out_index R C i r j))
  <-> P * R * C <= 2 ^ 31.
Proof.
  split.
  - intros H. specialize (H (P - 1) (R - 1) (C - 1)).
    apply out_element_Some in H as [_ [_ Hhi]]; [|lia..].
    unfold Spec.out_index, Int32.max_signed in Hhi. lia.
  - intros Hb i r j Hi Hr Hj. by apply (out_element_exact R P).
Qed.

(** Line 46 forms [proj_offset + orig_num_detectors], the offset of the
    end of the row: for the last row, the number of elements of [proj]. *)
Lemma last_elements_exact_iff :
  (forall i r, 0 <= i < P -> 0 <= r < R ->
     Flattening.last_element R D i r = Some ((i * R + r) * D + (D - 1)))
  <-> P * R * D <= 2 ^ 31 - 1.
Proof.
  split.
  - intros H. specialize (H (P - 1) (R - 1)).
    apply last_element_Some in H as [_ [_ Hhi]]; [|lia..].
    unfold Int32.max_signed in Hhi. lia.
  - intros Hb i r Hi Hr. by apply (last_element_exact R P).
Qed.

(** The offsets of the two samples of a blend. *)
Lemma blend_elements_exact (i r d : Z) :
  P * R * D <= 2 ^ 31 - 1 -> 0 <= i < P -> 0 <= r < R -> 0 <= d < D ->
  Flattening.row_base R D i r = Some ((i * R + r) * D)
  /\ Int32.add ((i * R + r) * D) d = Some ((i * R + r) * D + d)
  /\ (d < D - 1 ->
      Int32.add ((i * R + r) * D + d) 1 = Some ((i * R + r) * D + (d + 1))).
Proof.
  intros Hb Hi Hr Hd.
  destruct (row_base_within R P D i r) as (Hpo & Hlo & Hhi); [lia..|].
  split; [exact Hpo|]. split.
  - apply int32_add_exact, in_range_bounds. lia.
  - intros Hd'. rewrite int32_add_exact by (apply in_range_bounds; lia).
    f_equal. lia.
Qed.

Lemma out_element_overflow :
  2 ^ 31 < P * R * C ->
  Flattening.out_element R C (P - 1) (R - 1) (C - 1) = None.
Proof.
  intros Hb.
  destruct (Flattening.out_element R C (P - 1) (R - 1) (C - 1)) as [o|] eqn:Ho;
    [|done].
  apply out_element_Some in Ho as [_ [_ Hhi]].
  unfold Spec.out_index, Int32.max_signed in Hhi. lia.
Qed.

Lemma last_element_overflow :
  2 ^ 31 - 1 < P * R * D ->
  Flattening.last_element R D (P - 1) (R - 1) = None.
Proof.
  intros Hb.
  destruct (Flattening.last_element R D (P - 1) (R - 1)) as [e|] eqn:He;
    [|done].
  apply last_element_Some in He as [_ [_ Hhi]].
  unfold Int32.max_signed in Hhi. lia.
Qed.

(** The iteration of the last row that takes the right clamp, when [proj]
    has [2^31] elements or more. *)
Lemma right_clamp_overflow (proj : list float32)
    (normalized_angles : list float64) (j : Z) (x : float64)
    (buf : list float32) :
  2 ^ 31 - 1 < P * R * D ->
  load normalized_angles j = Some x ->
  D - 1 <= F64.cast_int (F64.floor x) ->
  Flattening.loop_body proj normalized_angles R D C (P - 1) (R - 1) j buf = None.
Proof.
  intros Hb Hx Hidx. unfold Flattening.loop_body.
  rewrite Hx. change (Some x ≫= ?f) with (f x). cbv beta zeta.
  revert Hidx. generalize (F64.cast_int (F64.floor x)). intros idx Hidx.
  destruct (Flattening.row_base R D (P - 1) (R - 1)) as [po|] eqn:Hpo;
    [|reflexivity].
  apply row_base_Some in Hpo as (-> & _).
  change (Some ?y ≫= ?f) with (f y). cbv beta.
  destruct (Flattening.row_base R C (P - 1) (R - 1)) as [oo|]; [|reflexivity].
  change (Some ?y ≫= ?f) with (f y). cbv beta.
  destruct (Z.ltb_spec idx 0); [lia|].
  destruct (Int32.sub D 1) as [last|] eqn:Hlast; [|reflexivity].
  apply int32_sub_Some in Hlast as [-> _].
  change (Some ?y ≫= ?f) with (f y). cbv beta.
  destruct (Z.leb_spec (D - 1) idx); [|lia].
  assert (Int32.add (((P - 1) * R + (R - 1)) * D) D = None) as ->; [|reflexivity].
  apply checked_None. unfold Int32.in_range, Int32.max_signed. lia.
Qed.

End OffsetLimit.

(** C10, as stated, fails at the boundary for the output volume: a volume
    of [2^31] elements exceeds [2^31 - 1], and yet every one of its offsets
    is computed without overflow and is that of the stated element. *)
Lemma int_offset_limit_counterexample :
  Int32.max_signed < 32768 * 256 * 256
  /\ forall i r j, 0 <= i < 32768 -> 0 <= r < 256 -> 0 <= j < 256 ->
       Flattening.out_element 256 256 i r j = Some (Spec.out_index 256 256 i r j)
       /\ 0 <= Spec.out_index 256 256 i r j <= Int32.max_signed.
Proof.
  split; [reflexivity|]. intros i r j Hi Hr Hj. split.
  - apply (out_element_exact 256 32768); lia.
  - unfold Spec.out_index, Int32.max_signed. lia.
Qed.

(** C10, amended.  The offsets are computed in 32-bit [int] arithmetic,
    where an operation whose result is not an [int] is undefined.  For
    extents of at least one:
    - the output offsets [(i * num_rows + r) * num_cols + j] are computed
      without overflow, and are those of the stated elements, exactly when
      [num_proj * num_rows * num_cols <= 2^31] (not [2^31 - 1]: the
      largest offset is the count less one);
    - the offsets [proj_offset + orig_num_detectors - 1] of the right
      clamp, whose sum [proj_offset + orig_num_detectors] line 46 forms
      before it subtracts one, are computed without overflow exactly when
      [num_proj * num_rows * orig_num_detectors <= 2^31 - 1], the limit
      the claim states, and then so are the offsets of the left clamp and
      of the blend;
    - beyond the limits the offset of the last output element, and the
      right-clamp offset of the last row, overflow, and the iteration of
      the last row that takes the right clamp is undefined. *)
Theorem int_offset_limit (num_proj num_rows orig_num_detectors num_cols : Z) :
  1 <= num_proj -> 1 <= num_rows -> 1 <= orig_num_detectors -> 1 <= num_cols ->
  ((forall i r j, 0 <= i < num_proj -> 0 <= r < num_rows -> 0 <= j < num_cols ->
      Flattening.out_element num_rows num_cols i r j
      = Some (Spec.out_index num_rows num_cols i r j))
   <-> num_proj * num_rows * num_cols <= 2 ^ 31)
  /\ ((forall i r, 0 <= i < num_proj -> 0 <= r < num_rows ->
         Flattening.last_element num_rows orig_num_detectors i r
         = Some ((i * num_rows + r) * orig_num_detectors
                 + (orig_num_detectors - 1)))
      <-> num_proj * num_rows * orig_num_detectors <= 2 ^ 31 - 1)
  /\ (num_proj * num_rows * orig_num_detectors <= 2 ^ 31 - 1 ->
      forall i r d,
        0 <= i < num_proj -> 0 <= r < num_rows -> 0 <= d < orig_num_detectors ->
        Flattening.row_base num_rows orig_num_detectors i r
        = Some ((i * num_rows + r) * orig_num_detectors)
        /\ Int32.add ((i * num_rows + r) * orig_num_detectors) d
           = Some ((i * num_rows + r) * orig_num_detectors + d)
        /\ (d < orig_num_detectors - 1 ->
            Int32.add ((i * num_rows + r) * orig_num_detectors + d) 1
            = Some ((i * num_rows + r) * orig_num_detectors + (d + 1))))
  /\ (2 ^ 31 < num_proj * num_rows * num_cols ->
      Flattening.out_element num_rows num_cols
        (num_proj - 1) (num_rows - 1) (num_cols - 1) = None)
  /\ (2 ^ 31 - 1 < num_proj * num_rows * orig_num_detectors ->
      Flattening.last_element num_rows orig_num_detectors
        (num_proj - 1) (num_rows - 1) = None
      /\ forall (proj : list float32) (normalized_angles : list float64)
           (j : Z) (x : float64) (buf : list float32),
           load normalized_angles j = Some x ->
           orig_num_detectors - 1 <= F64.cast_int (F64.floor x) ->
           Flattening.loop_body proj normalized_angles num_rows
             orig_num_detectors num_cols (num_proj - 1) (num_rows - 1) j buf
           = None).
Proof.
  intros HP HR HD HC.
  split; [by apply out_elements_exact_iff|].
  split; [by apply last_elements_exact_iff|].
  split; [intros Hb i r d; by apply (blend_elements_exact num_proj)|].
  split; [by apply out_element_overflow|].
  intros Hb. split; [by apply last_element_overflow|].
  intros proj normalized_angles j x buf.
  by apply (right_clamp_overflow num_proj).
Qed.

Lemma int_offset_limit_witness :
  ((forall i r j, 0 <= i < 65536 -> 0 <= r < 32768 -> 0 <= j < 2 ->
      Flattening.out_element 32768 2 i r j = Some (Spec.out_index 32768 2 i r j))
   <-> 65536 * 32768 * 2 <= 2 ^ 31)
  /\ ((forall i r, 0 <= i < 65536 -> 0 <= r < 32768 ->
         Flattening.last_element 32768 1 i r
         = Some ((i * 32768 + r) * 1 + (1 - 1)))
      <-> 65536 * 32768 * 1 <= 2 ^ 31 - 1)
  /\ (65536 * 32768 * 1 <= 2 ^ 31 - 1 ->
      forall i r d, 0 <= i < 65536 -> 0 <= r < 32768 -> 0 <= d < 1 ->
        Flattening.row_base 32768 1 i r = Some ((i * 32768 + r) * 1)
        /\ Int32.add ((i * 32768 + r) * 1) d = Some ((i * 32768 + r) * 1 + d)
        /\ (d < 1 - 1 ->
            Int32.add ((i * 32768 + r) * 1 + d) 1
            = Some ((i * 32768 + r) * 1 + (d + 1))))
  /\ (2 ^ 31 < 65536 * 32768 * 2 ->
      Flattening.out_element 32768 2 (65536 - 1) (32768 - 1) (2 - 1) = None)
  /\ (2 ^ 31 - 1 < 65536 * 32768 * 1 ->
      Flattening.last_element 32768 1 (65536 - 1) (32768 - 1) = None
      /\ forall (proj : list float32) (normalized_angles : list float64)
           (j : Z) (x : float64) (buf : list float32),
           load normalized_angles j = Some x ->
           1 - 1 <= F64.cast_int (F64.floor x) ->
           Flattening.loop_body proj normalized_angles 32768 1 2
             (65536 - 1) (32768 - 1) j buf = None).
Proof.
  apply (int_offset_limit 65536 32768 1 2); lia.
Defined.

(** ** The detector edges *)

(** Below zero the index is negative, also where the conversion yields
    [INT_MIN]. *)
Lemma cast_int_negative (x : float64) :
  F64.valid x -> SFltb x (S754_zero false) = true ->
  F64.cast_int (F64.floor x) < 0.
Proof.
  intros Hvalid Hlt. destruct (F64.to_int (F64.floor x)) as [idx|] eqn:Hidx.
  - rewrite (cast_int_exact _ _ Hidx). by apply (floor_negative x).
  - by rewrite (cast_int_indefinite _ Hidx).
Qed.

(** C3, as stated, fails at the right edge: the table entry [2^31] is at
    least [orig_num_detectors - 1 = 1], the data-model invariants hold, and
    the kernel writes [proj[0][0][0]], not [proj[0][0][1]]: the conversion
    of line 34 has yielded [INT_MIN], a negative index. *)
Lemma edge_clamps_counterexample :
  Spec.data_model [Examples.single 1 0; Examples.single 2 0]
    [Examples.double 1 31] 1 1 2 1 [S754_nan]
  /\ SFleb (F64.of_int (2 - 1)) (Examples.double 1 31) = true
  /\ Spec.proj_at [Examples.single 1 0; Examples.single 2 0] 1 2 0 0 (2 - 1)
     = Some (Examples.single 2 0)
  /\ Flattening.interpolation_loop [Examples.single 1 0; Examples.single 2 0]
       [Examples.double 1 31] 1 1 2 1 [S754_nan]
     = Some [Examples.single 1 0].
Proof.
  split; [split; cbn; lia|]. split; [|split]; vm_compute; reflexivity.
Qed.

(** C3, amended.  On inputs that satisfy the data-model invariants with
    [orig_num_detectors >= 1],
    [num_proj * num_rows * orig_num_detectors <= 2^31 - 1] and
    [num_proj * num_rows * num_cols <= 2^31], and whose table entries are
    binary64 values, for every [p], [r] and [j] in range:
    - if [normalized_angles[j] < 0] (however large, [-inf] included) the
      element [out[p][r][j]] is [proj[p][r][0]];
    - if [normalized_angles[j] >= orig_num_detectors - 1] and the entry is
      a number with [floor] below [2^31], it is
      [proj[p][r][orig_num_detectors - 1]];
    - for every entry that is not a number with [floor] in [int] (so for
      the entries from [2^31] on and [+inf], and for NaN) it is
      [proj[p][r][0]]. *)
Theorem edge_clamps
    (proj : list float32) (normalized_angles : list float64)
    (num_proj num_rows orig_num_detectors num_cols : Z) (out : list float32) :
  Spec.well_formed proj normalized_angles num_proj num_rows
    orig_num_detectors num_cols out ->
  Forall F64.valid normalized_angles ->
  exists out',
    Flattening.interpolation_loop proj normalized_angles num_proj num_rows
      orig_num_detectors num_cols out = Some out'
    /\ forall p r j x,
         0 <= p < num_proj -> 0 <= r < num_rows -> 0 <= j < num_cols ->
         load normalized_angles j = Some x ->
         (SFltb x (S754_zero false) = true ->
          load out' (Spec.out_index num_rows num_cols p r j)
          = Spec.proj_at proj num_rows orig_num_detectors p r 0)
         /\ (SFleb (F64.of_int (orig_num_detectors - 1)) x = true ->
             Spec.indexable x ->
             load out' (Spec.out_index num_rows num_cols p r j)
             = Spec.proj_at proj num_rows orig_num_detectors p r
                 (orig_num_detectors - 1))
         /\ (~ Spec.indexable x ->
             load out' (Spec.out_index num_rows num_cols p r j)
             = Spec.proj_at proj num_rows orig_num_detectors p r 0).
Proof.
  intros Hwf Hvalid.
  destruct (wf_kernel _ _ _ _ _ _ _ Hwf) as (out' & Hrun & _ & Hval & _).
  exists out'. split; [exact Hrun|]. intros p r j x Hp Hr Hj Hx.
  rewrite (Hval p r j Hp Hr Hj).
  pose proof (load_Forall _ _ _ _ Hvalid Hx) as Hvx.
  destruct (wf_extents _ _ _ _ _ _ _ Hwf p r Hp Hr) as (HD & _ & _ & HDb & Hpc).
  unfold Spec.sample, Spec.select.
  rewrite Hx. change (Some x ≫= ?f) with (f x). cbv beta zeta.
  split; [|split].
  - intros Hneg. pose proof (cast_int_negative x Hvx Hneg).
    destruct (Z.ltb_spec (F64.cast_int (F64.floor x)) 0); [reflexivity | lia].
  - intros Hge Hix.
    destruct (to_int_floor_indexable x Hvx) as [Hin _].
    specialize (Hin Hix). rewrite (cast_int_exact _ _ Hin).
    assert (orig_num_detectors - 1 <= Spec.floor x) as Hle
      by (apply (floor_at_least x); [done | lia | done | done]).
    destruct (Z.ltb_spec (Spec.floor x) 0); [lia|].
    destruct (Z.leb_spec (orig_num_detectors - 1) (Spec.floor x));
      [reflexivity | lia].
  - intros Hix. destruct (cast_int_floor x Hvx) as [_ Hout].
    rewrite (Hout Hix). reflexivity.
Qed.

Lemma edge_clamps_witness :
  exists out',
    Flattening.interpolation_loop Examples.proj Examples.normalized_angles
      1 2 4 3 Examples.sentinel = Some out'
    /\ forall p r j x,
         0 <= p < 1 -> 0 <= r < 2 -> 0 <= j < 3 ->
         load Examples.normalized_angles j = Some x ->
         (SFltb x (S754_zero false) = true ->
          load out' (Spec.out_index 2 3 p r j)
          = Spec.proj_at Examples.proj 2 4 p r 0)
         /\ (SFleb (F64.of_int (4 - 1)) x = true ->
             Spec.indexable x ->
             load out' (Spec.out_index 2 3 p r j)
             = Spec.proj_at Examples.proj 2 4 p r (4 - 1))
         /\ (~ Spec.indexable x ->
             load out' (Spec.out_index 2 3 p r j)
             = Spec.proj_at Examples.proj 2 4 p r 0).
Proof.
  exact (edge_clamps _ _ _ _ _ _ _ example_well_formed example_angles_valid).
Defined.

(** ** The fractional part *)

(** C8, as stated, fails: for [x = -2^-60] the floor is [-1] and
    [t = x - (-1)] rounds to [1.0], outside [[0, 1)]. *)
Lemma fractional_part_counterexample :
  F64.valid (Examples.double (-1) (-60))
  /\ F64.to_int (F64.floor (Examples.double (-1) (-60))) = Some (-1)
  /\ F64.sub (Examples.double (-1) (-60)) (F64.of_int (-1)) = F64.one
  /\ SFltb (F64.sub (Examples.double (-1) (-60)) (F64.of_int (-1))) F64.one
     = false.
Proof. repeat split; vm_compute; reflexivity. Qed.

(** C8, amended.  For every binary64 [x] whose floor [idx] converts to [int],
    the fractional part [t = x - idx] computed by the kernel lies in the
    closed interval [[0, 1]]; it lies in [[0, 1)] whenever [x >= 0]. *)
Theorem fractional_part_bounds (x : float64) (idx : Z) :
  F64.valid x -> F64.to_int (F64.floor x) = Some idx ->
  let t := F64.sub x (F64.of_int idx) in
  SFleb (S754_zero false) t = true /\ SFleb t F64.one = true
  /\ (SFleb (S754_zero false) x = true -> SFltb t F64.one = true).
Proof. apply fractional_part. Qed.

Lemma fractional_part_bounds_witness :
  let t := F64.sub (Examples.double 3 (-1)) (F64.of_int 1) in
  SFleb (S754_zero false) t = true /\ SFleb t F64.one = true
  /\ (SFleb (S754_zero false) (Examples.double 3 (-1)) = true ->
      SFltb t F64.one = true).
Proof.
  apply (fractional_part_bounds (Examples.double 3 (-1)) 1); reflexivity.
Defined.

(** ** Whole positions and the identity mapping *)

(** What the kernel leaves in [out[p][r][j]] when the table entry is the
    whole number [k] of a column. *)
Lemma whole_position_sample
    (proj : list float32) (normalized_angles : list float64)
    (P R D C : Z) (out : list float32) (p r j k : Z) (x : float64) :
  Spec.well_formed proj normalized_angles P R D C out ->
  Forall F32.valid proj ->
  0 <= p < P -> 0 <= r < R -> 0 <= k < D ->
  load normalized_angles j = Some x -> Spec.whole x k ->
  exists v0,
    Spec.proj_at proj R D p r k = Some v0
    /\ (k = D - 1 -> Spec.sample proj normalized_angles R D p r j = Some v0)
    /\ (k < D - 1 ->
        exists v1,
          Spec.proj_at proj R D p r (k + 1) = Some v1
          /\ Spec.sample proj normalized_angles R D p r j
             = Some (if is_finite v1
                     then (if is_negative_zero v0
                              && negb (xorb (is_negative_zero x) (sign_bit v1))
                           then S754_zero false else v0)
                     else S754_nan)).
Proof.
  intros Hwf Hvalid Hp Hr Hk Hx Hw.
  destruct (wf_extents _ _ _ _ _ _ _ Hwf p r Hp Hr) as (HD & _ & _ & HDb & Hpc).
  destruct (whole_position x k Hw ltac:(lia)) as (_ & Hidx & Ht).
  destruct (wf_sample _ _ _ _ _ _ _ Hwf p r k Hvalid Hp Hr Hk)
    as (v0 & Hv0 & Hvalid0).
  exists v0. split; [exact Hv0|].
  unfold Spec.sample, Spec.select.
  rewrite Hx. change (Some x ≫= ?f) with (f x). cbv beta.
  rewrite (cast_int_exact _ _ Hidx). cbv zeta.
  rewrite Ht. destruct (Z.ltb_spec k 0); [lia|]. split.
  - intros ->. destruct (Z.leb_spec (D - 1) (D - 1)); [exact Hv0 | lia].
  - intros Hlt. destruct (Z.leb_spec (D - 1) k); [lia|].
    destruct (wf_sample _ _ _ _ _ _ _ Hwf p r (k + 1) Hvalid Hp Hr ltac:(lia))
      as (v1 & Hv1 & Hvalid1).
    exists v1. split; [exact Hv1|]. rewrite Hv0, Hv1.
    change (Some v0 ≫= ?f) with (f v0). cbv beta.
    change (Some v1 ≫= ?f) with (f v1). cbv beta.
    f_equal. by apply blend_whole.
Qed.

(** C4, as stated, fails: under the identity mapping a [-0.0] followed by a
    positive sample comes out as [+0.0], and a sample followed by an
    infinity comes out as NaN. *)
Lemma identity_mapping_counterexample :
  Flattening.interpolation_loop
    [S754_zero true; Examples.single 1 0; S754_infinity false]
    [F64.of_int 0; F64.of_int 1; F64.of_int 2]
    1 1 3 3 [S754_nan; S754_nan; S754_nan]
  = Some [S754_zero false; S754_nan; S754_infinity false].
Proof. vm_compute. reflexivity. Qed.

(** C4, amended.  Let [num_cols = orig_num_detectors] and let every
    [normalized_angles[j]] equal [j] as a double (the double [j]; for
    [j = 0] either zero), on inputs that satisfy the data-model invariants
    with [orig_num_detectors >= 1] and
    [num_proj * num_rows * orig_num_detectors <= 2^31 - 1], and whose
    samples are binary32 values.  Then, for every [(p, r, j)] in range,
    [out[p][r][j]] is the sample [v0 = proj[p][r][j]] copied in the last
    column, and in every other column the blend [1.0 * v0 + 0.0 * v1] with
    the right neighbour [v1 = proj[p][r][j+1]], the zero weight having the
    sign of the zero entry: NaN when [v1] is an infinity or NaN; [+0.0]
    when [v0] is [-0.0] and the sign of [v1] is that of the weight (for an
    entry [j] or [+0.0]: a [v1] of positive sign); and [v0] otherwise,
    which is bit for bit for every [v0] that is not NaN (of a NaN the
    embedding tells no more than that the element is NaN). *)
Theorem identity_mapping
    (proj : list float32) (normalized_angles : list float64)
    (num_proj num_rows orig_num_detectors : Z) (out : list float32) :
  Spec.well_formed proj normalized_angles num_proj num_rows
    orig_num_detectors orig_num_detectors out ->
  Forall F32.valid proj ->
  (forall j, 0 <= j < orig_num_detectors ->
             exists x, load normalized_angles j = Some x /\ Spec.whole x j) ->
  exists out',
    Flattening.interpolation_loop proj normalized_angles num_proj num_rows
      orig_num_detectors orig_num_detectors out = Some out'
    /\ forall p r j,
         0 <= p < num_proj -> 0 <= r < num_rows -> 0 <= j < orig_num_detectors ->
         exists x v0,
           load normalized_angles j = Some x
           /\ Spec.proj_at proj num_rows orig_num_detectors p r j = Some v0
           /\ (j = orig_num_detectors - 1 ->
               load out' (Spec.out_index num_rows orig_num_detectors p r j)
               = Some v0)
           /\ (j < orig_num_detectors - 1 ->
               exists v1,
                 Spec.proj_at proj num_rows orig_num_detectors p r (j + 1)
                 = Some v1
                 /\ load out' (Spec.out_index num_rows orig_num_detectors p r j)
                    = Some (if is_finite v1
                            then (if is_negative_zero v0
                                     && negb (xorb (is_negative_zero x)
                                                (sign_bit v1))
                                  then S754_zero false else v0)
                            else S754_nan)).
Proof.
  intros Hwf Hvalid Hid.
  destruct (wf_kernel _ _ _ _ _ _ _ Hwf) as (out' & Hrun & _ & Hval & _).
  exists out'. split; [exact Hrun|]. intros p r j Hp Hr Hj.
  destruct (Hid j Hj) as (x & Hx & Hw).
  destruct (whole_position_sample _ _ _ _ _ _ _ p r j j x Hwf Hvalid
              Hp Hr Hj Hx Hw) as (v0 & Hv0 & Hlast & Hblend).
  exists x, v0. rewrite (Hval p r j Hp Hr Hj). done.
Qed.

Lemma identity_example_well_formed :
  Spec.well_formed Examples.proj Examples.identity_angles 1 2 4 4
    Examples.sentinel8.
Proof.
  split; try lia; try (unfold Int32.max_signed; lia); cbn; lia.
Defined.

Lemma identity_example_angles (j : Z) :
  0 <= j < 4 ->
  exists x, load Examples.identity_angles j = Some x /\ Spec.whole x j.
Proof.
  intros Hj. assert (j = 0 \/ j = 1 \/ j = 2 \/ j = 3) as H by lia.
  destruct H as [-> | [-> | [-> | ->]]]; eexists; (split; [reflexivity|]).
  - by right.
  - by left.
  - by left.
  - by left.
Defined.

Lemma identity_mapping_witness :
  exists out',
    Flattening.interpolation_loop Examples.proj Examples.identity_angles
      1 2 4 4 Examples.sentinel8 = Some out'
    /\ forall p r j,
         0 <= p < 1 -> 0 <= r < 2 -> 0 <= j < 4 ->
         exists x v0,
           load Examples.identity_angles j = Some x
           /\ Spec.proj_at Examples.proj 2 4 p r j = Some v0
           /\ (j = 4 - 1 -> load out' (Spec.out_index 2 4 p r j) = Some v0)
           /\ (j < 4 - 1 ->
               exists v1,
                 Spec.proj_at Examples.proj 2 4 p r (j + 1) = Some v1
                 /\ load out' (Spec.out_index 2 4 p r j)
                    = Some (if is_finite v1
                            then (if is_negative_zero v0
                                     && negb (xorb (is_negative_zero x)
                                                (sign_bit v1))
                                  then S754_zero false else v0)
                            else S754_nan)).
Proof.
  exact (identity_mapping _ _ _ _ _ _ identity_example_well_formed
           example_proj_valid identity_example_angles).
Defined.

(** ** Half way between two columns *)

(** C7, as stated, fails in the subnormal range of [float]: half way
    between the samples [2^-149] and [0] the mean is [2^-150], and the
    kernel writes [0]: a relative error of one. *)
Lemma midpoint_interpolation_counterexample :
  Flattening.interpolation_loop
    [Examples.single 1 (-149); S754_zero false]
    [F64.add (F64.of_int 0) F64.half] 1 1 2 1 [S754_nan]
  = Some [S754_zero false]
  /\ F32.scaled (Examples.single 1 (-149)) + F32.scaled (S754_zero false) = 1
  /\ Z.abs 1 < 10 ^ 6 * Z.abs (2 * F32.scaled (S754_zero false) - 1).
Proof. repeat split; vm_compute; reflexivity. Qed.

(** C7, amended.  On inputs that satisfy the data-model invariants with
    [orig_num_detectors >= 1],
    [num_proj * num_rows * orig_num_detectors <= 2^31 - 1] and
    [num_proj * num_rows * num_cols <= 2^31], and whose samples are
    binary32 values, for every [j] with [normalized_angles[j] = idx + 0.5],
    [0 <= idx < orig_num_detectors - 1] (whatever the other table entries
    are), and every [p], [r] whose samples [v0 = proj[p][r][idx]] and
    [v1 = proj[p][r][idx+1]] are finite with a sum [v0 + v1] that is zero
    or of magnitude at least [10^6 * 2^-149]: [out[p][r][j]] is finite and
    equals [(v0 + v1) / 2] within [10^-6], relatively.  Values are counted
    in units of [2^-149]; [s] is the sum, twice the mean. *)
Theorem midpoint_interpolation
    (proj : list float32) (normalized_angles : list float64)
    (num_proj num_rows orig_num_detectors num_cols : Z) (out : list float32) :
  Spec.well_formed proj normalized_angles num_proj num_rows
    orig_num_detectors num_cols out ->
  Forall F32.valid proj ->
  exists out',
    Flattening.interpolation_loop proj normalized_angles num_proj num_rows
      orig_num_detectors num_cols out = Some out'
    /\ forall p r j idx,
         0 <= p < num_proj -> 0 <= r < num_rows -> 0 <= j < num_cols ->
         0 <= idx < orig_num_detectors - 1 ->
         load normalized_angles j = Some (F64.add (F64.of_int idx) F64.half) ->
         exists v0 v1 o,
           Spec.proj_at proj num_rows orig_num_detectors p r idx = Some v0
           /\ Spec.proj_at proj num_rows orig_num_detectors p r (idx + 1) = Some v1
           /\ load out' (Spec.out_index num_rows num_cols p r j) = Some o
           /\ (is_finite v0 = true -> is_finite v1 = true ->
               let s := F32.scaled v0 + F32.scaled v1 in
               s = 0 \/ 10 ^ 6 <= Z.abs s ->
               is_finite o = true
               /\ 10 ^ 6 * Z.abs (2 * F32.scaled o - s) <= Z.abs s).
Proof.
  intros Hwf Hvalid.
  destruct (wf_kernel _ _ _ _ _ _ _ Hwf) as (out' & Hrun & _ & Hval & _).
  exists out'. split; [exact Hrun|]. intros p r j idx Hp Hr Hj Hidx Hx.
  destruct (wf_extents _ _ _ _ _ _ _ Hwf p r Hp Hr) as (HD & _ & _ & HDb & Hpc).
  destruct (half_position idx ltac:(lia)) as (_ & Hfloor & Ht).
  destruct (wf_sample _ _ _ _ _ _ _ Hwf p r idx Hvalid Hp Hr ltac:(lia))
    as (v0 & Hv0 & Hvalid0).
  destruct (wf_sample _ _ _ _ _ _ _ Hwf p r (idx + 1) Hvalid Hp Hr ltac:(lia))
    as (v1 & Hv1 & Hvalid1).
  exists v0, v1. eexists. split; [exact Hv0|]. split; [exact Hv1|].
  rewrite (Hval p r j Hp Hr Hj). unfold Spec.sample, Spec.select.
  rewrite Hx. change (Some ?x ≫= ?f) with (f x). cbv beta.
  rewrite (cast_int_exact _ _ Hfloor). cbv zeta.
  rewrite Ht, sub_one_half.
  destruct (Z.ltb_spec idx 0); [lia|].
  destruct (Z.leb_spec (orig_num_detectors - 1) idx); [lia|].
  rewrite Hv0, Hv1.
  change (Some v0 ≫= ?f) with (f v0). cbv beta.
  change (Some v1 ≫= ?f) with (f v1). cbv beta.
  split; [reflexivity|].
  intros Hf0 Hf1. by apply midpoint_blend_tolerance.
Qed.

Lemma midpoint_interpolation_witness :
  exists out',
    Flattening.interpolation_loop Examples.proj Examples.normalized_angles
      1 2 4 3 Examples.sentinel = Some out'
    /\ forall p r j idx,
         0 <= p < 1 -> 0 <= r < 2 -> 0 <= j < 3 -> 0 <= idx < 4 - 1 ->
         load Examples.normalized_angles j
         = Some (F64.add (F64.of_int idx) F64.half) ->
         exists v0 v1 o,
           Spec.proj_at Examples.proj 2 4 p r idx = Some v0
           /\ Spec.proj_at Examples.proj 2 4 p r (idx + 1) = Some v1
           /\ load out' (Spec.out_index 2 3 p r j) = Some o
           /\ (is_finite v0 = true -> is_finite v1 = true ->
               let s := F32.scaled v0 + F32.scaled v1 in
               s = 0 \/ 10 ^ 6 <= Z.abs s ->
               is_finite o = true
               /\ 10 ^ 6 * Z.abs (2 * F32.scaled o - s) <= Z.abs s).
Proof.
  exact (midpoint_interpolation _ _ _ _ _ _ _ example_well_formed
           example_proj_valid).
Defined.

(** * Further properties of the two kernels *)

(** ** The kernels as scattering loops *)

Lemma interp_loop_scatter (proj : list float32) (normalized_angles : list float64)
    (P R D C : Z) (out : list float32) :
  CLibrary.interp_loop proj normalized_angles P R D C out
  = for_each (scatter (Flattening.iteration_value proj normalized_angles R D C)
                (Flattening.iteration_offset R C))
      (iteration_space P R C) out.
Proof.
  unfold CLibrary.interp_loop.
  rewrite (nested_loops_flatten
             (CLibrary.loop_body proj normalized_angles R D C)).
  apply for_each_ext, Forall_forall. intros [[i r] j] _ s.
  rewrite <- loop_body_scatter.
  unfold CLibrary.loop_body, Flattening.loop_body, write_out, plain_buffer.
  reflexivity.
Qed.

Lemma interpolation_loop_scatter (proj : list float32)
    (normalized_angles : list float64) (P R D C : Z) (out : list float32) :
  Flattening.interpolation_loop proj normalized_angles P R D C out
  = for_each (scatter (Flattening.iteration_value proj normalized_angles R D C)
                (Flattening.iteration_offset R C))
      (iteration_space P R C) out.
Proof. unfold Flattening.interpolation_loop. apply kernel_scatter. Qed.

(** ** Empty extents *)

(** X1.  When one of [num_proj] ([num_angles]), [num_rows], [num_cols] is
    zero or negative no loop body runs: both kernels return with the output
    volume untouched, whatever the buffers hold and however short they
    are. *)
Theorem empty_extents_unchanged
    (proj : list float32) (normalized_angles : list float64)
    (num_proj num_rows orig_num_detectors num_cols : Z) (out : list float32) :
  num_proj <= 0 \/ num_rows <= 0 \/ num_cols <= 0 ->
  Flattening.interpolation_loop proj normalized_angles num_proj num_rows
    orig_num_detectors num_cols out = Some out
  /\ CLibrary.interp_loop proj normalized_angles num_proj num_rows
       orig_num_detectors num_cols out = Some out.
Proof.
  intros H.
  rewrite interpolation_loop_scatter, interp_loop_scatter.
  rewrite (iteration_space_empty _ _ _ H). by rewrite for_each_nil.
Qed.

Lemma empty_extents_unchanged_witness :
  Flattening.interpolation_loop [] [] 2 0 4 3 [S754_nan] = Some [S754_nan]
  /\ CLibrary.interp_loop [] [] 2 0 4 3 [S754_nan] = Some [S754_nan].
Proof. apply (empty_extents_unchanged [] [] 2 0 4 3). lia. Defined.

(** ** Projections and rows form one index *)

Lemma row_base_collapse (P R w i r : Z) :
  0 <= i < P -> 0 <= r < R -> P * R <= Int32.max_signed ->
  Flattening.row_base R w i r = Flattening.row_base 1 w (i * R + r) 0.
Proof.
  intros Hi Hr Hb. unfold Int32.max_signed in Hb.
  assert (0 <= i * R <= i * R + r) by nia.
  assert (0 <= i * R + r < P * R) by nia.
  unfold Flattening.row_base.
  rewrite (int32_mul_exact i R), (int32_mul_exact (i * R + r) 1)
    by (apply in_range_bounds; lia).
  change (Some ?y ≫= ?f) with (f y). cbv beta.
  rewrite (int32_add_exact (i * R) r), (int32_add_exact ((i * R + r) * 1) 0)
    by (apply in_range_bounds; lia).
  change (Some ?y ≫= ?f) with (f y). cbv beta.
  f_equal. lia.
Qed.

Lemma iteration_space_collapse (P R C : Z) :
  0 <= P -> 0 <= R ->
  (fun '(i, r, j) => (i * R + r, 0, j)) <$> iteration_space P R C
  = iteration_space (P * R) 1 C.
Proof.
  intros HP HR. unfold iteration_space at 2.
  rewrite <- (range_product P R) by lia.
  unfold iteration_space.
  rewrite list_fmap_bind_r, list_bind_assoc.
  apply list_bind_ext; [intros i | done].
  rewrite list_fmap_bind_r, list_bind_assoc.
  apply list_bind_ext; [intros r | done].
  rewrite bind_singleton. change (range 1) with [0]. rewrite bind_singleton.
  rewrite list_fmap_bind_r.
  apply list_bind_ext; [intros j | done].
  done.
Qed.

(** X2.  The kernel uses [i] and [r] only through [i * num_rows + r]: a
    volume of [num_proj] projections of [num_rows] rows is processed exactly
    as [num_proj * num_rows] projections of one row, on every input, failures
    included. *)
Theorem projections_rows_collapse
    (proj : list float32) (normalized_angles : list float64)
    (num_proj num_rows orig_num_detectors num_cols : Z) (out : list float32) :
  0 <= num_proj -> 0 <= num_rows -> num_proj * num_rows <= Int32.max_signed ->
  Flattening.interpolation_loop proj normalized_angles num_proj num_rows
    orig_num_detectors num_cols out
  = Flattening.interpolation_loop proj normalized_angles (num_proj * num_rows) 1
      orig_num_detectors num_cols out.
Proof.
  intros HP HR Hb. rewrite !interpolation_loop_scatter.
  rewrite <- iteration_space_collapse by done.
  rewrite <- for_each_fmap.
  apply for_each_ext, Forall_forall.
  intros [[i r] j] (Hi & Hr & Hj)%elem_of_iteration_space s.
  unfold scatter, Flattening.iteration_value, Flattening.iteration_offset,
    Flattening.cell_value, Flattening.cell_offset.
  rewrite !(row_base_collapse num_proj num_rows _ i r) by done.
  replace ((i * num_rows + r) * 1 + 0) with (i * num_rows + r) by lia.
  reflexivity.
Qed.

Lemma projections_rows_collapse_witness :
  Flattening.interpolation_loop Examples.proj Examples.normalized_angles 1 2 4 3
    Examples.sentinel
  = Flattening.interpolation_loop Examples.proj Examples.normalized_angles
      (1 * 2) 1 4 3 Examples.sentinel.
Proof.
  apply (projections_rows_collapse _ _ 1 2 4 3); unfold Int32.max_signed; lia.
Defined.

(** ** Running the kernel again *)

Section ScatterAgain.
Context {K : Type} (value : K -> option float32) (addr : K -> Z).

(** Two buffers of one length go through the same stores; where they
    agreed, or where a store fell, they agree afterwards. *)
Lemma scatter_agree (items : list K) :
  forall b1 b2 b1' : list float32,
    for_each (scatter value addr) items b1 = Some b1' ->
    length b2 = length b1 ->
    exists b2',
      for_each (scatter value addr) items b2 = Some b2'
      /\ forall n : nat,
           b2 !! n = b1 !! n \/ Z.of_nat n ∈ addr <$> items ->
           b2' !! n = b1' !! n.
Proof.
  induction items as [|k items IH]; intros b1 b2 b1' Hrun Hlen.
  - rewrite for_each_nil in Hrun. injection Hrun as <-.
    exists b2. split; [apply for_each_nil|].
    intros n [H | H]; [done|]. by apply elem_of_nil in H.
  - apply scatter_plain_cons in Hrun as (v & c1 & Hv & Hst & Hrest).
    apply store_Some in Hst as [Hoff ->].
    destruct (IH (<[Z.to_nat (addr k) := v]> b1) (<[Z.to_nat (addr k) := v]> b2)
                b1' Hrest) as (b2' & Hrun2 & Hag).
    { by rewrite !length_insert. }
    exists b2'. split.
    + apply scatter_plain_cons. exists v, (<[Z.to_nat (addr k) := v]> b2).
      split; [done|]. split; [|done]. apply store_Some. split; [lia | done].
    + intros n Hn. apply Hag.
      destruct (decide (Z.to_nat (addr k) = n)) as [<- | Hne].
      * left. rewrite !list_lookup_insert_eq by lia. done.
      * rewrite !list_lookup_insert_ne by done.
        destruct Hn as [Hn | Hn]; [by left|].
        rewrite fmap_cons in Hn. apply elem_of_cons in Hn as [Hn | Hn]; [lia | by right].
Qed.

Lemma scatter_idempotent (items : list K) (out out' : list float32) :
  for_each (scatter value addr) items out = Some out' ->
  for_each (scatter value addr) items out' = Some out'.
Proof.
  intros Hrun.
  destruct (scatter_agree items out out' out' Hrun) as (b2' & Hrun2 & Hag).
  { by eapply scatter_length. }
  rewrite Hrun2. f_equal. apply list_eq. intros n. apply Hag.
  destruct (decide (Z.of_nat n ∈ addr <$> items)) as [Hin | Hnin]; [by right|].
  left. apply (scatter_frame value addr items out out' n Hrun).
  intros k Hk Heq. apply Hnin. rewrite <- Heq. by apply list_elem_of_fmap_2.
Qed.

End ScatterAgain.

(** X3.  [interp_loop] is idempotent on its output: when a call returns,
    a second call with the same inputs on the volume the first one left
    returns that same volume.  No well-formedness is asked for. *)
Theorem interp_loop_idempotent
    (proj : list float32) (normalized_angles : list float64)
    (num_angles num_rows orig_num_detectors num_cols : Z)
    (out out' : list float32) :
  CLibrary.interp_loop proj normalized_angles num_angles num_rows
    orig_num_detectors num_cols out = Some out' ->
  CLibrary.interp_loop proj normalized_angles num_angles num_rows
    orig_num_detectors num_cols out' = Some out'.
Proof. rewrite !interp_loop_scatter. apply scatter_idempotent. Qed.

Lemma interp_loop_idempotent_witness :
  CLibrary.interp_loop Examples.proj Examples.normalized_angles 1 2 4 3
    Examples.expected = Some Examples.expected.
Proof.
  apply (interp_loop_idempotent _ _ _ _ _ _ Examples.sentinel).
  vm_compute. reflexivity.
Defined.

(** ** What a column of the output depends on *)

(** X4.  On inputs that satisfy the data-model invariants with
    [orig_num_detectors >= 1],
    [num_proj * num_rows * orig_num_detectors <= 2^31 - 1] and
    [num_proj * num_rows * num_cols <= 2^31], the call is defined whatever
    the table holds, and an output column depends on its own table entry
    only: two tables that agree on entry [j] give outputs that agree on
    column [j].  A column whose entry has a floor that does not convert to
    [int] (NaN, an infinity, a value outside the [int] range) receives
    [proj[p][r][0]]. *)
Theorem column_locality
    (proj : list float32) (angles1 angles2 : list float64)
    (num_proj num_rows orig_num_detectors num_cols : Z)
    (out1 out2 : list float32) :
  Spec.well_formed proj angles1 num_proj num_rows
    orig_num_detectors num_cols out1 ->
  Spec.well_formed proj angles2 num_proj num_rows
    orig_num_detectors num_cols out2 ->
  exists out1' out2',
    Flattening.interpolation_loop proj angles1 num_proj num_rows
      orig_num_detectors num_cols out1 = Some out1'
    /\ Flattening.interpolation_loop proj angles2 num_proj num_rows
         orig_num_detectors num_cols out2 = Some out2'
    /\ (forall p r j,
          0 <= p < num_proj -> 0 <= r < num_rows -> 0 <= j < num_cols ->
          load angles1 j = load angles2 j ->
          load out1' (Spec.out_index num_rows num_cols p r j)
          = load out2' (Spec.out_index num_rows num_cols p r j))
    /\ (forall p r j x,
          0 <= p < num_proj -> 0 <= r < num_rows -> 0 <= j < num_cols ->
          load angles1 j = Some x -> F64.to_int (F64.floor x) = None ->
          is_Some (Spec.proj_at proj num_rows orig_num_detectors p r 0)
          /\ load out1' (Spec.out_index num_rows num_cols p r j)
             = Spec.proj_at proj num_rows orig_num_detectors p r 0).
Proof.
  intros Hwf1 Hwf2.
  destruct (wf_kernel _ _ _ _ _ _ _ Hwf1) as (out1' & Hrun1 & _ & Hval1 & _).
  destruct (wf_kernel _ _ _ _ _ _ _ Hwf2) as (out2' & Hrun2 & _ & Hval2 & _).
  exists out1', out2'. split; [done|]. split; [done|]. split.
  - intros p r j Hp Hr Hj Heq.
    rewrite (Hval1 p r j), (Hval2 p r j) by done.
    unfold Spec.sample. by rewrite Heq.
  - intros p r j x Hp Hr Hj Hx Hidx.
    destruct (wf_extents _ _ _ _ _ _ _ Hwf1 p r Hp Hr) as (HD & _).
    split; [apply (wf_proj_at _ _ _ _ _ _ _ Hwf1); lia|].
    rewrite (Hval1 p r j) by done. unfold Spec.sample, Spec.select.
    rewrite Hx. change (Some x ≫= ?f) with (f x). cbv beta.
    rewrite (cast_int_indefinite _ Hidx). reflexivity.
Qed.

Lemma column_locality_witness :
  exists out1' out2',
    Flattening.interpolation_loop Examples.proj
      [S754_nan; S754_infinity false; Examples.double (-1) 40]
      1 2 4 3 Examples.sentinel = Some out1'
    /\ Flattening.interpolation_loop Examples.proj Examples.normalized_angles
         1 2 4 3 Examples.sentinel = Some out2'
    /\ (forall p r j,
          0 <= p < 1 -> 0 <= r < 2 -> 0 <= j < 3 ->
          load [S754_nan; S754_infinity false; Examples.double (-1) 40] j
          = load Examples.normalized_angles j ->
          load out1' (Spec.out_index 2 3 p r j)
          = load out2' (Spec.out_index 2 3 p r j))
    /\ (forall p r j x,
          0 <= p < 1 -> 0 <= r < 2 -> 0 <= j < 3 ->
          load [S754_nan; S754_infinity false; Examples.double (-1) 40] j
          = Some x ->
          F64.to_int (F64.floor x) = None ->
          is_Some (Spec.proj_at Examples.proj 2 4 p r 0)
          /\ load out1' (Spec.out_index 2 3 p r j)
             = Spec.proj_at Examples.proj 2 4 p r 0).
Proof.
  exact (column_locality _ _ _ _ _ _ _ _ _ wild_table_well_formed
           example_well_formed).
Defined.

(** ** What an output row depends on *)

Lemma sample_row_ext (proj1 proj2 : list float32)
    (normalized_angles : list float64) (R D p r j : Z) :
  1 <= D ->
  (forall d, 0 <= d < D ->
     Spec.proj_at proj1 R D p r d = Spec.proj_at proj2 R D p r d) ->
  Spec.sample proj1 normalized_angles R D p r j
  = Spec.sample proj2 normalized_angles R D p r j.
Proof.
  intros HD Hrow. unfold Spec.sample, Spec.select.
  destruct (load normalized_angles j) as [x|]; [|reflexivity].
  change (Some x ≫= ?f) with (f x). cbv beta.
  cbv zeta. generalize (F64.cast_int (F64.floor x)). intros idx.
  destruct (Z.ltb_spec idx 0); [apply Hrow; lia|].
  destruct (Z.leb_spec (D - 1) idx); [apply Hrow; lia|].
  rewrite (Hrow idx), (Hrow (idx + 1)) by lia. reflexivity.
Qed.

(** X5.  An output row depends on its own input row only: two input
    volumes that agree on row [(p, r)] give outputs that agree on row
    [(p, r)], whatever the other rows and the output volumes held. *)
Theorem row_locality
    (proj1 proj2 : list float32) (normalized_angles : list float64)
    (num_proj num_rows orig_num_detectors num_cols : Z)
    (out1 out2 : list float32) (p r : Z) :
  Spec.well_formed proj1 normalized_angles num_proj num_rows
    orig_num_detectors num_cols out1 ->
  Spec.well_formed proj2 normalized_angles num_proj num_rows
    orig_num_detectors num_cols out2 ->
  0 <= p < num_proj -> 0 <= r < num_rows ->
  (forall d, 0 <= d < orig_num_detectors ->
     Spec.proj_at proj1 num_rows orig_num_detectors p r d
     = Spec.proj_at proj2 num_rows orig_num_detectors p r d) ->
  exists out1' out2',
    Flattening.interpolation_loop proj1 normalized_angles num_proj num_rows
      orig_num_detectors num_cols out1 = Some out1'
    /\ Flattening.interpolation_loop proj2 normalized_angles num_proj num_rows
         orig_num_detectors num_cols out2 = Some out2'
    /\ forall j, 0 <= j < num_cols ->
         load out1' (Spec.out_index num_rows num_cols p r j)
         = load out2' (Spec.out_index num_rows num_cols p r j).
Proof.
  intros Hwf1 Hwf2 Hp Hr Hrow.
  destruct (wf_kernel _ _ _ _ _ _ _ Hwf1) as (out1' & Hrun1 & _ & Hval1 & _).
  destruct (wf_kernel _ _ _ _ _ _ _ Hwf2) as (out2' & Hrun2 & _ & Hval2 & _).
  exists out1', out2'. split; [done|]. split; [done|]. intros j Hj.
  rewrite (Hval1 p r j), (Hval2 p r j) by done.
  apply sample_row_ext; [by destruct Hwf1 | done].
Qed.

(** ** A curved detector of one column *)

(** X6.  With [orig_num_detectors = 1] both clamps select the only column:
    every element of output row [(p, r)] is [proj[p][r][0]], whatever the
    table holds. *)
Theorem single_detector_column
    (proj : list float32) (normalized_angles : list float64)
    (num_proj num_rows num_cols : Z) (out : list float32) :
  Spec.well_formed proj normalized_angles num_proj num_rows 1 num_cols out ->
  exists out',
    Flattening.interpolation_loop proj normalized_angles num_proj num_rows
      1 num_cols out = Some out'
    /\ forall p r j,
         0 <= p < num_proj -> 0 <= r < num_rows -> 0 <= j < num_cols ->
         load out' (Spec.out_index num_rows num_cols p r j)
         = Spec.proj_at proj num_rows 1 p r 0.
Proof.
  intros Hwf.
  destruct (wf_kernel _ _ _ _ _ _ _ Hwf) as (out' & Hrun & _ & Hval & _).
  exists out'. split; [done|]. intros p r j Hp Hr Hj.
  rewrite (Hval p r j Hp Hr Hj).
  destruct (wf_angle _ _ _ _ _ _ _ Hwf j Hj) as (x & Hx).
  unfold Spec.sample, Spec.select.
  rewrite Hx. change (Some x ≫= ?f) with (f x). cbv beta zeta.
  generalize (F64.cast_int (F64.floor x)). intros idx.
  destruct (Z.ltb_spec idx 0); [reflexivity|].
  destruct (Z.leb_spec (1 - 1) idx); [reflexivity | lia].
Qed.

Lemma single_column_well_formed :
  Spec.well_formed [Examples.single 7 0; Examples.single 9 0]
    Examples.normalized_angles 1 2 1 3 Examples.sentinel.
Proof.
  split; try lia; try (unfold Int32.max_signed; lia); cbn; lia.
Defined.

Lemma single_detector_column_witness :
  exists out',
    Flattening.interpolation_loop [Examples.single 7 0; Examples.single 9 0]
      Examples.normalized_angles 1 2 1 3 Examples.sentinel = Some out'
    /\ forall p r j,
         0 <= p < 1 -> 0 <= r < 2 -> 0 <= j < 3 ->
         load out' (Spec.out_index 2 3 p r j)
         = Spec.proj_at [Examples.single 7 0; Examples.single 9 0] 2 1 p r 0.
Proof. exact (single_detector_column _ _ _ _ _ _ single_column_well_formed). Defined.

Lemma other_rows_well_formed :
  Spec.well_formed
    (take 4 Examples.proj ++ replicate 4 (S754_infinity true))
    Examples.normalized_angles 1 2 4 3 (replicate 6 (S754_zero false)).
Proof.
  split; try lia; try (unfold Int32.max_signed; lia); cbn; lia.
Defined.

Lemma other_rows_agree (d : Z) :
  0 <= d < 4 ->
  Spec.proj_at Examples.proj 2 4 0 0 d
  = Spec.proj_at (take 4 Examples.proj ++ replicate 4 (S754_infinity true))
      2 4 0 0 d.
Proof.
  intros Hd. assert (d = 0 \/ d = 1 \/ d = 2 \/ d = 3) as H by lia.
  destruct H as [-> | [-> | [-> | ->]]]; reflexivity.
Defined.

Lemma row_locality_witness :
  exists out1' out2',
    Flattening.interpolation_loop Examples.proj Examples.normalized_angles
      1 2 4 3 Examples.sentinel = Some out1'
    /\ Flattening.interpolation_loop
         (take 4 Examples.proj ++ replicate 4 (S754_infinity true))
         Examples.normalized_angles 1 2 4 3 (replicate 6 (S754_zero false))
       = Some out2'
    /\ forall j, 0 <= j < 3 ->
         load out1' (Spec.out_index 2 3 0 0 j)
         = load out2' (Spec.out_index 2 3 0 0 j).
Proof.
  apply (row_locality _ _ _ 1 2 4 3 _ _ 0 0 example_well_formed
           other_rows_well_formed); [lia | lia | exact other_rows_agree].
Defined.

(** ** Table entries that are whole numbers *)

(** X7.  Where the table entry equals a whole number [k] with
    [0 <= k <= orig_num_detectors - 1] as a double (the double [k]; for
    [k = 0] either zero), on inputs that satisfy the data-model invariants
    with [orig_num_detectors >= 1],
    [num_proj * num_rows * orig_num_detectors <= 2^31 - 1] and
    [num_proj * num_rows * num_cols <= 2^31], and whose samples are
    binary32 values: the weight [t] is a zero with the sign of a zero
    entry, and [out[p][r][j]] is the sample [v0 = proj[p][r][k]] copied
    when [k] is the last column; otherwise it is the blend
    [1.0 * v0 + t * v1] with the right neighbour [v1 = proj[p][r][k+1]]:
    NaN when [v1] is an infinity or NaN; [+0.0] when [v0] is [-0.0] and
    the sign of [v1] is that of [t] (so, for the entry [-0.0], a [-0.0]
    is kept beside a neighbour of positive sign and comes out as [+0.0]
    beside one of negative sign; for the other entries the reverse); and
    [v0] otherwise, which is bit for bit for every [v0] that is not NaN
    (of a NaN the embedding tells no more than that the element is
    NaN). *)
Theorem whole_position_samples
    (proj : list float32) (normalized_angles : list float64)
    (num_proj num_rows orig_num_detectors num_cols : Z) (out : list float32) :
  Spec.well_formed proj normalized_angles num_proj num_rows
    orig_num_detectors num_cols out ->
  Forall F32.valid proj ->
  exists out',
    Flattening.interpolation_loop proj normalized_angles num_proj num_rows
      orig_num_detectors num_cols out = Some out'
    /\ forall p r j k x,
         0 <= p < num_proj -> 0 <= r < num_rows -> 0 <= j < num_cols ->
         0 <= k < orig_num_detectors ->
         load normalized_angles j = Some x -> Spec.whole x k ->
         F64.sub x (F64.of_int k) = S754_zero (is_negative_zero x)
         /\ exists v0,
           Spec.proj_at proj num_rows orig_num_detectors p r k = Some v0
           /\ (k = orig_num_detectors - 1 ->
               load out' (Spec.out_index num_rows num_cols p r j) = Some v0)
           /\ (k < orig_num_detectors - 1 ->
               exists v1,
                 Spec.proj_at proj num_rows orig_num_detectors p r (k + 1)
                 = Some v1
                 /\ load out' (Spec.out_index num_rows num_cols p r j)
                    = Some (if is_finite v1
                            then (if is_negative_zero v0
                                     && negb (xorb (is_negative_zero x)
                                                (sign_bit v1))
                                  then S754_zero false else v0)
                            else S754_nan)).
Proof.
  intros Hwf Hvalid.
  destruct (wf_kernel _ _ _ _ _ _ _ Hwf) as (out' & Hrun & _ & Hval & _).
  exists out'. split; [exact Hrun|]. intros p r j k x Hp Hr Hj Hk Hx Hw.
  destruct (wf_extents _ _ _ _ _ _ _ Hwf p r Hp Hr) as (HD & _ & _ & HDb & Hpc).
  destruct (whole_position x k Hw ltac:(lia)) as (_ & _ & Ht).
  split; [exact Ht|].
  rewrite (Hval p r j Hp Hr Hj).
  exact (whole_position_sample _ _ _ _ _ _ _ p r j k x Hwf Hvalid Hp Hr Hk Hx Hw).
Qed.

Lemma whole_position_well_formed :
  Spec.well_formed
    [S754_zero true; Examples.single 2 0; S754_zero true; Examples.single (-4) 0;
     Examples.single 5 0; Examples.single 6 0; Examples.single 7 0;
     Examples.single 8 0]
    [F64.of_int 2; S754_zero true; F64.of_int 0] 1 2 4 3 Examples.sentinel.
Proof.
  split; try lia; try (unfold Int32.max_signed; lia); cbn; lia.
Defined.

Lemma whole_position_valid :
  Forall F32.valid
    [S754_zero true; Examples.single 2 0; S754_zero true; Examples.single (-4) 0;
     Examples.single 5 0; Examples.single 6 0; Examples.single 7 0;
     Examples.single 8 0].
Proof. repeat constructor. Defined.

Lemma whole_position_samples_witness :
  exists out',
    Flattening.interpolation_loop
      [S754_zero true; Examples.single 2 0; S754_zero true;
       Examples.single (-4) 0; Examples.single 5 0; Examples.single 6 0;
       Examples.single 7 0; Examples.single 8 0]
      [F64.of_int 2; S754_zero true; F64.of_int 0] 1 2 4 3 Examples.sentinel
    = Some out'
    /\ forall p r j k x,
         0 <= p < 1 -> 0 <= r < 2 -> 0 <= j < 3 -> 0 <= k < 4 ->
         load [F64.of_int 2; S754_zero true; F64.of_int 0] j = Some x ->
         Spec.whole x k ->
         F64.sub x (F64.of_int k) = S754_zero (is_negative_zero x)
         /\ exists v0,
           Spec.proj_at
             [S754_zero true; Examples.single 2 0; S754_zero true;
              Examples.single (-4) 0; Examples.single 5 0; Examples.single 6 0;
              Examples.single 7 0; Examples.single 8 0] 2 4 p r k = Some v0
           /\ (k = 4 - 1 -> load out' (Spec.out_index 2 3 p r j) = Some v0)
           /\ (k < 4 - 1 ->
               exists v1,
                 Spec.proj_at
                   [S754_zero true; Examples.single 2 0; S754_zero true;
                    Examples.single (-4) 0; Examples.single 5 0;
                    Examples.single 6 0; Examples.single 7 0;
                    Examples.single 8 0] 2 4 p r (k + 1) = Some v1
                 /\ load out' (Spec.out_index 2 3 p r j)
                    = Some (if is_finite v1
                            then (if is_negative_zero v0
                                     && negb (xorb (is_negative_zero x)
                                                (sign_bit v1))
                                  then S754_zero false else v0)
                            else S754_nan)).
Proof.
  exact (whole_position_samples _ _ _ _ _ _ _ whole_position_well_formed
           whole_position_valid).
Defined.

(** ** Processing the projections in two batches *)

Lemma load_drop {A : Type} (l : list A) (k off : Z) :
  0 <= k -> 0 <= off -> load (drop (Z.to_nat k) l) off = load l (k + off).
Proof.
  intros Hk Hoff. unfold load.
  destruct (Z.ltb_spec off 0); [lia|]. destruct (Z.ltb_spec (k + off) 0); [lia|].
  rewrite lookup_drop. f_equal. lia.
Qed.

Lemma load_lookup {A : Type} (l : list A) (n : nat) :
  load l (Z.of_nat n) = l !! n.
Proof.
  unfold load. destruct (Z.ltb_spec (Z.of_nat n) 0); [lia|]. by rewrite Nat2Z.id.
Qed.

Lemma proj_at_drop (proj : list float32) (R D P1 p r d : Z) :
  0 <= P1 -> 0 <= R -> 0 <= D -> 0 <= p -> 0 <= r -> 0 <= d ->
  Spec.proj_at (drop (Z.to_nat (P1 * R * D)) proj) R D p r d
  = Spec.proj_at proj R D (P1 + p) r d.
Proof.
  intros. unfold Spec.proj_at. rewrite load_drop by nia. f_equal. lia.
Qed.

Lemma sample_drop (proj : list float32) (normalized_angles : list float64)
    (R D P1 p r j : Z) :
  0 <= P1 -> 0 <= R -> 1 <= D -> 0 <= p -> 0 <= r ->
  Spec.sample (drop (Z.to_nat (P1 * R * D)) proj) normalized_angles R D p r j
  = Spec.sample proj normalized_angles R D (P1 + p) r j.
Proof.
  intros HP1 HR HD Hp Hr. unfold Spec.sample, Spec.select.
  destruct (load normalized_angles j) as [x|]; [|reflexivity].
  change (Some x ≫= ?f) with (f x). cbv beta.
  cbv zeta. generalize (F64.cast_int (F64.floor x)). intros idx.
  destruct (Z.ltb_spec idx 0); [apply proj_at_drop; lia|].
  destruct (Z.leb_spec (D - 1) idx); [apply proj_at_drop; lia|].
  rewrite !proj_at_drop by lia. reflexivity.
Qed.

Lemma out_index_surj (P R C n : Z) :
  0 <= P -> 0 <= R -> 0 <= C -> 0 <= n < P * R * C ->
  exists p r j, 0 <= p < P /\ 0 <= r < R /\ 0 <= j < C
                /\ Spec.out_index R C p r j = n.
Proof.
  intros HP HR HC Hn.
  assert (n ∈ (fun '(i, r, j) => Spec.out_index R C i r j)
                <$> iteration_space P R C) as Hin.
  { rewrite out_index_iteration_space by lia. by apply elem_of_range. }
  apply list_elem_of_fmap in Hin as ([[p r] j] & Heq & Hin).
  apply elem_of_iteration_space in Hin as (Hp & Hr & Hj).
  exists p, r, j. cbv beta iota in Heq. by rewrite Heq.
Qed.

(** X8.  The projections can be processed in two batches: a call on the
    first [P1] projections and a call on the remaining [P2], the latter with
    [proj] and [out] advanced past the first batch, together leave what one
    call on all [P1 + P2] projections leaves. *)
Theorem projections_in_batches
    (proj : list float32) (normalized_angles : list float64)
    (P1 P2 num_rows orig_num_detectors num_cols : Z) (out : list float32) :
  0 <= P1 -> 0 <= P2 ->
  Spec.well_formed proj normalized_angles (P1 + P2) num_rows
    orig_num_detectors num_cols out ->
  exists out1 out2,
    Flattening.interpolation_loop proj normalized_angles P1 num_rows
      orig_num_detectors num_cols
      (take (Z.to_nat (P1 * num_rows * num_cols)) out) = Some out1
    /\ Flattening.interpolation_loop
         (drop (Z.to_nat (P1 * num_rows * orig_num_detectors)) proj)
         normalized_angles P2 num_rows orig_num_detectors num_cols
         (drop (Z.to_nat (P1 * num_rows * num_cols)) out) = Some out2
    /\ Flattening.interpolation_loop proj normalized_angles (P1 + P2) num_rows
         orig_num_detectors num_cols out = Some (out1 ++ out2).
Proof.
  intros HP1 HP2 Hwf.
  destruct (Z.le_gt_cases num_rows 0) as [HR | HR];
    [|destruct (Z.le_gt_cases num_cols 0) as [HC | HC]].
  1, 2: exists (take (Z.to_nat (P1 * num_rows * num_cols)) out),
          (drop (Z.to_nat (P1 * num_rows * num_cols)) out);
        rewrite !interpolation_loop_scatter, !iteration_space_empty by lia;
        rewrite !for_each_nil, take_drop; done.
  pose proof Hwf as [HD Hpc Hoc Hpl Hol Hal].
  set (n_in := P1 * num_rows * orig_num_detectors) in *.
  set (n_out := P1 * num_rows * num_cols) in *.
  assert (0 <= n_in) as Hin0 by (unfold n_in; nia).
  assert (0 <= n_out) as Hout0 by (unfold n_out; nia).
  assert ((P1 + P2) * num_rows * orig_num_detectors
          = n_in + P2 * num_rows * orig_num_detectors) as Ein by (unfold n_in; lia).
  assert ((P1 + P2) * num_rows * num_cols
          = n_out + P2 * num_rows * num_cols) as Eout by (unfold n_out; lia).
  assert (0 <= P2 * num_rows * orig_num_detectors) by nia.
  assert (0 <= P2 * num_rows * num_cols) by nia.
  assert (Spec.well_formed proj normalized_angles P1 num_rows
            orig_num_detectors num_cols (take (Z.to_nat n_out) out)) as Hwf1.
  { split; try done; try lia. rewrite length_take. lia. }
  assert (Spec.well_formed (drop (Z.to_nat n_in) proj) normalized_angles P2
            num_rows orig_num_detectors num_cols (drop (Z.to_nat n_out) out))
    as Hwf2.
  { split; try done; try lia; rewrite length_drop; lia. }
  destruct (wf_kernel _ _ _ _ _ _ _ Hwf) as (out' & Hrun & Hlen & Hval & Hframe).
  destruct (wf_kernel _ _ _ _ _ _ _ Hwf1) as (out1 & Hrun1 & Hlen1 & Hval1 & _).
  destruct (wf_kernel _ _ _ _ _ _ _ Hwf2)
    as (out2 & Hrun2 & Hlen2 & Hval2 & Hframe2).
  exists out1, out2. split; [done|]. split; [done|].
  rewrite Hrun. f_equal. apply list_eq. intros n.
  rewrite length_take in Hlen1. rewrite length_drop in Hlen2.
  destruct (Z.lt_ge_cases (Z.of_nat n) n_out) as [Hn | Hn].
  - rewrite lookup_app_l by lia.
    destruct (out_index_surj P1 num_rows num_cols (Z.of_nat n))
      as (p & r & j & Hp & Hr & Hj & Hidx); [lia..|].
    rewrite <- !load_lookup, <- Hidx.
    rewrite (Hval p r j), (Hval1 p r j) by lia. reflexivity.
  - rewrite lookup_app_r by lia.
    destruct (Z.lt_ge_cases (Z.of_nat n) ((P1 + P2) * num_rows * num_cols))
      as [Hn2 | Hn2].
    + destruct (out_index_surj P2 num_rows num_cols (Z.of_nat n - n_out))
        as (p & r & j & Hp & Hr & Hj & Hidx); [lia..|].
      rewrite <- !load_lookup.
      replace (Z.of_nat n) with (Spec.out_index num_rows num_cols (P1 + p) r j)
        by (unfold Spec.out_index, n_out in *; lia).
      replace (Z.of_nat (n - length out1))
        with (Spec.out_index num_rows num_cols p r j) by lia.
      rewrite (Hval (P1 + p) r j), (Hval2 p r j) by lia.
      symmetry. apply sample_drop; lia.
    + rewrite Hframe by lia. rewrite Hframe2 by lia.
      rewrite lookup_drop. f_equal. lia.
Qed.

Lemma projections_in_batches_witness :
  exists out1 out2,
    Flattening.interpolation_loop Examples.proj Examples.normalized_angles
      1 1 4 3 (take (Z.to_nat (1 * 1 * 3)) Examples.sentinel) = Some out1
    /\ Flattening.interpolation_loop
         (drop (Z.to_nat (1 * 1 * 4)) Examples.proj)
         Examples.normalized_angles 1 1 4 3
         (drop (Z.to_nat (1 * 1 * 3)) Examples.sentinel) = Some out2
    /\ Flattening.interpolation_loop Examples.proj Examples.normalized_angles
         (1 + 1) 1 4 3 Examples.sentinel = Some (out1 ++ out2).
Proof.
  apply (projections_in_batches _ _ 1 1 1 4 3); [lia | lia |].
  split; try lia; try (unfold Int32.max_signed; lia); cbn; lia.
Defined.

Import Nearest.

(** * The blend, in integers *)

Section BlendIntegers.

(** Three roundings of a convex combination of two positive values stay
    within [2^-50], relatively, of the interval the two values span.
    [ONE] is the unit of the weights; [P] is the exact combination. *)
Lemma blend_sum_bounds (ONE T U V0 V1 A B S : Z) :
  2 ^ 52 <= ONE ->
  0 <= T <= ONE -> 0 <= U <= ONE ->
  Z.abs (U - (ONE - T)) * 2 ^ 53 <= Z.max (Z.abs (ONE - T)) (2 ^ 52) ->
  0 < V0 -> 0 < V1 -> 0 <= A -> 0 <= B ->
  Z.abs (A - U * V0) * 2 ^ 53 <= Z.max (Z.abs (U * V0)) (2 ^ 253) ->
  Z.abs (B - T * V1) * 2 ^ 53 <= Z.max (Z.abs (T * V1)) (2 ^ 253) ->
  Z.abs (S - (A + B)) * 2 ^ 53 <= Z.max (Z.abs (A + B)) (2 ^ 253) ->
  2 ^ 50 * (S - Z.max V0 V1 * ONE) <= Z.max V0 V1 * ONE + 2 ^ 310
  /\ 2 ^ 50 * (Z.min V0 V1 * ONE - S) <= Z.min V0 V1 * ONE + 2 ^ 310.
Proof.
  intros HONE HT HU Hu HV0 HV1 HA HB Ha Hb Hs.
  set (M := Z.max V0 V1). set (m := Z.min V0 V1).
  assert (0 < m <= M /\ V0 <= M /\ V1 <= M /\ m <= V0 /\ m <= V1)
    as (Hm & HV0M & HV1M & HmV0 & HmV1) by (clear - HV0 HV1; unfold m, M; lia).
  assert (0 <= U * V0) as HP0 by (clear - HU HV0; nia).
  assert (0 <= T * V1) as HP1 by (clear - HT HV1; nia).
  assert (U * V0 <= U * M) as HP0M
    by (clear - HU HV0M; apply Z.mul_le_mono_nonneg_l; lia).
  assert (T * V1 <= T * M) as HP1M
    by (clear - HT HV1M; apply Z.mul_le_mono_nonneg_l; lia).
  assert (U * m <= U * V0) as HP0m
    by (clear - HU HmV0; apply Z.mul_le_mono_nonneg_l; lia).
  assert (T * m <= T * V1) as HP1m
    by (clear - HT HmV1; apply Z.mul_le_mono_nonneg_l; lia).
  assert (- ONE <= (U + T - ONE) * 2 ^ 53 <= ONE) as Hsum
    by (clear - HONE HT HU Hu; lia).
  assert ((U + T) * 2 ^ 53 * M <= (ONE * 2 ^ 53 + ONE) * M) as HupM
    by (clear - Hsum Hm; apply Z.mul_le_mono_nonneg_r; lia).
  assert ((ONE * 2 ^ 53 - ONE) * m <= (U + T) * 2 ^ 53 * m) as Hlom
    by (clear - Hsum Hm; apply Z.mul_le_mono_nonneg_r; lia).
  set (P := U * V0 + T * V1) in *.
  assert (P * 2 ^ 53 <= M * ONE * (2 ^ 53 + 1)) as HPup
    by (clear - HP0M HP1M HupM; unfold P; lia).
  assert (m * ONE * (2 ^ 53 - 1) <= P * 2 ^ 53) as HPlo
    by (clear - HP0m HP1m Hlom; unfold P; lia).
  assert (0 <= P) as HP by (clear - HP0 HP1; unfold P; lia).
  assert (Z.abs (A + B - P) * 2 ^ 53 <= P + 2 ^ 254) as Hab
    by (clear - Ha Hb HP0 HP1; unfold P; lia).
  assert (Z.abs (S - (A + B)) * 2 ^ 53 <= A + B + 2 ^ 253) as Hs'
    by (clear - Hs HA HB; lia).
  clearbody P. clear - HPup HPlo HP Hab Hs' HA HB Hm.
  set (Q := M * ONE) in *. set (q := m * ONE) in *.
  clearbody Q q. split; lia.
Qed.

End BlendIntegers.

(** X9.  Line 34, [idx = (int)floor(x)], on a binary64 [x]: the conversion
    is defined exactly when [x] is finite with [-2^31 <= x < 2^31], and
    then [idx] is the one [int] with [idx <= x < idx + 1] (values in units
    of [2^-1074]). *)
Theorem floor_index_spec (x : float64) :
  F64.valid x ->
  (forall idx,
     F64.to_int (F64.floor x) = Some idx
     <-> is_finite x = true /\ Int32.in_range idx
         /\ idx * 2 ^ 1074 <= scaled_at (-1074) x < (idx + 1) * 2 ^ 1074)
  /\ (is_Some (F64.to_int (F64.floor x))
      <-> is_finite x = true
          /\ - 2 ^ 31 * 2 ^ 1074 <= scaled_at (-1074) x < 2 ^ 31 * 2 ^ 1074).
Proof.
  intros Hvalid.
  pose proof (pow2_pos 1074 ltac:(lia)) as Hone.
  pose proof (to_int_floor x Hvalid) as Hspec.
  split; [exact Hspec|]. split.
  - intros [idx Hidx]. apply Hspec in Hidx as (Hfin & Hrange & Hb).
    split; [done|].
    unfold Int32.in_range, Int32.min_signed, Int32.max_signed in Hrange. nia.
  - intros [Hfin Hb].
    exists (scaled_at (-1074) x / 2 ^ 1074). apply Hspec. split; [done|].
    pose proof (Z.div_mod (scaled_at (-1074) x) (2 ^ 1074) ltac:(lia)) as Hdm.
    pose proof (Z.mod_pos_bound (scaled_at (-1074) x) (2 ^ 1074) Hone) as Hrem.
    split; [|lia].
    unfold Int32.in_range, Int32.min_signed, Int32.max_signed.
    split.
    + apply Z.div_le_lower_bound; lia.
    + assert (scaled_at (-1074) x / 2 ^ 1074 < 2 ^ 31); [|lia].
      apply Z.div_lt_upper_bound; lia.
Qed.

Lemma floor_index_spec_witness :
  (forall idx,
     F64.to_int (F64.floor (Examples.double 3 (-1))) = Some idx
     <-> is_finite (Examples.double 3 (-1)) = true /\ Int32.in_range idx
         /\ idx * 2 ^ 1074 <= scaled_at (-1074) (Examples.double 3 (-1))
            < (idx + 1) * 2 ^ 1074)
  /\ (is_Some (F64.to_int (F64.floor (Examples.double 3 (-1))))
      <-> is_finite (Examples.double 3 (-1)) = true
          /\ - 2 ^ 31 * 2 ^ 1074 <= scaled_at (-1074) (Examples.double 3 (-1))
             < 2 ^ 31 * 2 ^ 1074).
Proof. apply (floor_index_spec (Examples.double 3 (-1))). reflexivity. Defined.

(** * The blend stays between the two samples *)

Section BlendBetween.

Local Abbreviation number64 := (number F64.prec F64.emax).
Local Abbreviation number32 := (number F32.prec F32.emax).
Local Abbreviation rounded64 := (rounded F64.prec F64.emax).
Local Abbreviation rounded32 := (rounded F32.prec F32.emax).

(** The weight [t = x - idx] is a number in [[0, 1]]. *)
Lemma fractional_weight (x : float64) (idx : Z) :
  F64.valid x -> F64.to_int (F64.floor x) = Some idx ->
  number64 (F64.sub x (F64.of_int idx))
  /\ 0 <= scaled_at (-1074) (F64.sub x (F64.of_int idx)) <= 2 ^ 1074.
Proof.
  intros Hvalid [Htr Hrange]%to_int_Some.
  destruct (floor_bracket x idx Hvalid Htr) as [Hfin Hb].
  unfold Int32.in_range, Int32.min_signed, Int32.max_signed in Hrange.
  destruct (of_int_number idx (-1074)) as [Hn Hv]; [lia | lia |].
  change (- -1074) with 1074 in Hv.
  destruct (sub_rounded x (F64.of_int idx) (-1074)) as [Hbetween _];
    [done | done | lia |].
  destruct (one_number (-1074) ltac:(lia)) as [Hone Hvone].
  change (- -1074) with 1074 in Hvone.
  destruct (Hbetween (S754_zero false) F64.one) as [Hnum Hval]; [done | done | |].
  { rewrite scaled_at_zero, Hvone, Hv. lia. }
  rewrite scaled_at_zero, Hvone in Hval. done.
Qed.

(** A [double] within [2^-50], relatively, of the interval of two [float]s
    of one sign narrows to a [float] of that interval. *)
Lemma narrow_between_sorted (s : float64) (lo hi : float32) :
  number64 s -> number32 lo -> number32 hi ->
  scaled_at (-1275) lo <> 0 -> scaled_at (-1275) hi <> 0 ->
  scaled_at (-1275) lo <= scaled_at (-1275) hi ->
  2 ^ 50 * (scaled_at (-1275) s - scaled_at (-1275) hi)
  <= Z.abs (scaled_at (-1275) hi) + 2 ^ 310 ->
  2 ^ 50 * (scaled_at (-1275) lo - scaled_at (-1275) s)
  <= Z.abs (scaled_at (-1275) lo) + 2 ^ 310 ->
  number32 (F64.to_single s)
  /\ scaled_at (-1275) lo <= scaled_at (-1275) (F64.to_single s)
     <= scaled_at (-1275) hi.
Proof.
  intros Hs Hlo Hhi Hlo0 Hhi0 Hle Hup Hdown.
  destruct f32_format as [Hp Hm].
  assert (SpecFloat.emin F32.prec F32.emax = -149) as Hemin by reflexivity.
  assert (forall b, number32 b -> scaled_at (-1275) b <> 0 ->
            4 * 2 ^ 50 * Z.abs (scaled_at (-1275) s - scaled_at (-1275) b)
            <= 4 * Z.abs (scaled_at (-1275) b) + 2 ^ 312 ->
            number32 (F64.to_single s)
            /\ scaled_at (-1275) (F64.to_single s) = scaled_at (-1275) b) as Hsnap.
  { intros b Hb Hb0 Hnear.
    destruct (number_cases _ _ b (-1275) Hb)
      as [(sb & -> & Hv) | (sb & mB & eB & -> & Hbd & Hv)]; [done|].
    pose proof (bounded_magnitude _ _ Hp Hm mB eB (-1275) ltac:(lia) Hbd) as Hmag.
    pose proof (bounded_grid _ _ mB eB Hbd) as (HeB & HmB & _).
    assert (2 ^ 1126 <= 2 ^ (eB - -1275)) as Hg
      by (apply Z.pow_le_mono_r; lia).
    assert (Z.abs (scaled_at (-1275) (S754_finite sb mB eB))
            < 2 ^ 24 * 2 ^ (eB - -1275)) as Habs.
    { rewrite Hv. change F32.prec with 24 in HmB.
      destruct sb; unfold cond_Zopp; nia. }
    apply to_single_snap; [done | lia | done |].
    clear - Hnear Hg Habs. lia. }
  destruct (Z.lt_ge_cases (scaled_at (-1275) hi) (scaled_at (-1275) s)) as [Hgt | Hle'].
  { destruct (Hsnap hi Hhi Hhi0) as [Hn Hv]; [clear - Hup Hgt; lia|].
    rewrite Hv. split; [done | lia]. }
  destruct (Z.lt_ge_cases (scaled_at (-1275) s) (scaled_at (-1275) lo)) as [Hlt | Hge].
  { destruct (Hsnap lo Hlo Hlo0) as [Hn Hv]; [clear - Hdown Hlt; lia|].
    rewrite Hv. split; [done | lia]. }
  destruct (to_single_rounded s (-1275) Hs ltac:(lia)) as [Hbetween _].
  apply (Hbetween lo hi Hlo Hhi). lia.
Qed.

(** A weight in [[0, 1]] times a sample: between zero and the sample. *)
Lemma weighted_sample (w d : float64) :
  number64 w -> 0 <= scaled_at (-1074) w <= 2 ^ 1074 ->
  number64 d ->
  match d with
  | S754_finite _ m e => Z.pos (digits2_pos m) = 53 /\ -201 <= e
  | _ => True
  end ->
  number64 (F64.mul w d)
  /\ (0 <= scaled_at (-201) d ->
      0 <= scaled_at (-1275) (F64.mul w d) <= scaled_at (-201) d * 2 ^ 1074)
  /\ (scaled_at (-201) d <= 0 ->
      scaled_at (-201) d * 2 ^ 1074 <= scaled_at (-1275) (F64.mul w d) <= 0)
  /\ Z.abs (scaled_at (-1275) (F64.mul w d)
            - scaled_at (-1074) w * scaled_at (-201) d) * 2 ^ 53
     <= Z.max (Z.abs (scaled_at (-1074) w * scaled_at (-201) d)) (2 ^ 253).
Proof.
  intros Hw HW Hd Hshape.
  pose proof (mul_rounded w d (-1074) (-201) Hw Hd ltac:(lia) ltac:(lia) Hshape)
    as [Hbetween Herr].
  change (-1074 + -201) with (-1275) in Hbetween, Herr.
  assert (scaled_at (-1275) d = scaled_at (-201) d * 2 ^ 1074) as Hscale.
  { apply (scaled_at_rescale (-201) (-1275)); [lia|].
    destruct d; try done. apply Hshape. }
  set (W := scaled_at (-1074) w) in *. set (V := scaled_at (-201) d) in *.
  assert (number64 (F64.mul w d)
          /\ (0 <= V -> 0 <= scaled_at (-1275) (F64.mul w d) <= V * 2 ^ 1074)
          /\ (V <= 0 -> V * 2 ^ 1074 <= scaled_at (-1275) (F64.mul w d) <= 0))
    as (Hnum & Hpos & Hneg).
  { destruct (Z.le_ge_cases 0 V) as [HV | HV].
    - destruct (Hbetween (S754_zero false) d) as [Hnum Hval]; [done | done | |].
      { rewrite scaled_at_zero, Hscale. split; [nia|].
        rewrite (Z.mul_comm W). apply Z.mul_le_mono_nonneg_l; lia. }
      rewrite scaled_at_zero, Hscale in Hval.
      split; [done|]. split; [done|]. intros HV'.
      assert (V = 0) as HV0 by lia. rewrite HV0 in *. lia.
    - destruct (Hbetween d (S754_zero false)) as [Hnum Hval]; [done | done | |].
      { rewrite scaled_at_zero, Hscale. split; [|nia].
        rewrite (Z.mul_comm W). apply Z.mul_le_mono_nonpos_l; lia. }
      rewrite scaled_at_zero, Hscale in Hval.
      split; [done|]. split; [|done]. intros HV'.
      assert (V = 0) as HV0 by lia. rewrite HV0 in *. lia. }
  split; [done|]. split; [done|]. split; [done|].
  apply Herr. by destruct Hnum.
Qed.

Lemma f64_two129_number :
  number64 (S754_finite false 4503599627370496 77)
  /\ number64 (S754_finite true 4503599627370496 77)
  /\ scaled_at (-1275) (S754_finite false 4503599627370496 77) = 2 ^ 1404
  /\ scaled_at (-1275) (S754_finite true 4503599627370496 77) = - 2 ^ 1404.
Proof. repeat split. Qed.

Lemma number32_magnitude (v : float32) :
  number32 v -> Z.abs (scaled_at (-1275) v) < 2 ^ 1403.
Proof.
  intros Hv. destruct f32_format as [Hp Hm].
  pose proof (pow2_pos 1403 ltac:(lia)).
  destruct (number_cases _ _ v (-1275) Hv)
    as [(s & -> & ->) | (s & m & e & -> & Hb & ->)]; [lia|].
  pose proof (bounded_magnitude _ _ Hp Hm m e (-1275)) as Hmag.
  change (F32.emax - -1275) with 1403 in Hmag.
  assert (SpecFloat.emin F32.prec F32.emax = -149) as Hemin by reflexivity.
  specialize (Hmag ltac:(lia) Hb).
  destruct s; unfold cond_Zopp; lia.
Qed.

(** The interpolated value lies between the two samples, whatever the
    weight in [[0, 1]]. *)
Lemma blend_between (t : float64) (v0 v1 : float32) :
  number64 t -> 0 <= scaled_at (-1074) t <= 2 ^ 1074 ->
  number32 v0 -> number32 v1 ->
  let o := F64.to_single
             (F64.add (F64.mul (F64.sub F64.one t) (F64.of_single v0))
                      (F64.mul t (F64.of_single v1))) in
  number32 o
  /\ Z.min (scaled_at (-1275) v0) (scaled_at (-1275) v1)
     <= scaled_at (-1275) o
     <= Z.max (scaled_at (-1275) v0) (scaled_at (-1275) v1).
Proof.
  intros Ht HT Hv0 Hv1. cbv zeta.
  pose proof (pow2_pos 1074 ltac:(lia)) as HONE.
  pose proof (Z.pow_le_mono_r 2 52 1074 ltac:(lia) ltac:(lia)) as Hunit.
  (* the weight of the left sample *)
  destruct (one_number (-1074)) as [Hone Hvone]; [lia|].
  change (- -1074) with 1074 in Hvone.
  destruct (sub_rounded F64.one t (-1074) Hone Ht ltac:(lia)) as [Hu_between Hu_err].
  rewrite Hvone in Hu_between, Hu_err.
  destruct (Hu_between (S754_zero false) F64.one) as [Hu HU]; [done | done | |].
  { rewrite scaled_at_zero, Hvone. lia. }
  rewrite scaled_at_zero, Hvone in HU.
  specialize (Hu_err (proj1 Hu)). clear Hu_between.
  change (2 ^ F64.prec) with (2 ^ 53) in Hu_err.
  change (2 - F64.emax - -1074) with 52 in Hu_err.
  set (u := F64.sub F64.one t) in *.
  (* the samples, as doubles *)
  destruct (of_single_number v0 (-201) Hv0 ltac:(lia)) as (Hd0 & _ & Hshape0).
  destruct (of_single_number v1 (-201) Hv1 ltac:(lia)) as (Hd1 & _ & Hshape1).
  destruct (of_single_number v0 (-1275) Hv0 ltac:(lia)) as (_ & HW0 & _).
  destruct (of_single_number v1 (-1275) Hv1 ltac:(lia)) as (_ & HW1 & _).
  set (d0 := F64.of_single v0) in *. set (d1 := F64.of_single v1) in *.
  assert (scaled_at (-1275) d0 = scaled_at (-201) d0 * 2 ^ 1074) as HV0.
  { apply (scaled_at_rescale (-201) (-1275)); [lia|].
    destruct d0; try done. apply Hshape0. }
  assert (scaled_at (-1275) d1 = scaled_at (-201) d1 * 2 ^ 1074) as HV1.
  { apply (scaled_at_rescale (-201) (-1275)); [lia|].
    destruct d1; try done. apply Hshape1. }
  (* the two products and their sum *)
  destruct (weighted_sample u d0 Hu HU Hd0 Hshape0) as (Ha & Ha_pos & Ha_neg & Ha_err).
  destruct (weighted_sample t d1 Ht HT Hd1 Hshape1) as (Hb & Hb_pos & Hb_neg & Hb_err).
  set (a := F64.mul u d0) in *. set (b := F64.mul t d1) in *.
  destruct (add_rounded a b (-1275) Ha Hb ltac:(lia)) as [Hs_between Hs_err].
  change (2 ^ F64.prec) with (2 ^ 53) in Hs_err.
  change (2 - F64.emax - -1275) with 253 in Hs_err.
  set (s := F64.add a b) in *.
  pose proof (number32_magnitude v0 Hv0) as Hmag0.
  pose proof (number32_magnitude v1 Hv1) as Hmag1.
  destruct f64_two129_number as (Hbig & Hbig' & Hvbig & Hvbig').
  set (T := scaled_at (-1074) t) in *. set (U := scaled_at (-1074) u) in *.
  set (V0 := scaled_at (-201) d0) in *. set (V1 := scaled_at (-201) d1) in *.
  set (A := scaled_at (-1275) a) in *. set (B := scaled_at (-1275) b) in *.
  set (W0 := scaled_at (-1275) v0) in *. set (W1 := scaled_at (-1275) v1) in *.
  rewrite HW0 in HV0. rewrite HW1 in HV1.
  set (ONE := 2 ^ 1074) in *.
  assert ((0 <= V0 -> 0 <= W0) /\ (V0 <= 0 -> W0 <= 0) /\ (0 < V0 -> 0 < W0)
          /\ (V0 < 0 -> W0 < 0)) as (Hs0a & Hs0b & Hs0c & Hs0d)
    by (clear - HV0 HONE; nia).
  assert ((0 <= V1 -> 0 <= W1) /\ (V1 <= 0 -> W1 <= 0) /\ (0 < V1 -> 0 < W1)
          /\ (V1 < 0 -> W1 < 0)) as (Hs1a & Hs1b & Hs1c & Hs1d)
    by (clear - HV1 HONE; nia).
  assert ((V0 <= V1 -> W0 <= W1) /\ (V1 <= V0 -> W1 <= W0)) as [Hord Hord']
    by (clear - HV0 HV1 HONE; nia).
  rewrite <- HV0 in Ha_pos, Ha_neg. rewrite <- HV1 in Hb_pos, Hb_neg.
  assert (forall lo hi : float32,
            number32 lo -> number32 hi ->
            scaled_at (-1275) (F64.of_single lo) = scaled_at (-1275) lo ->
            scaled_at (-1275) (F64.of_single hi) = scaled_at (-1275) hi ->
            number64 (F64.of_single lo) -> number64 (F64.of_single hi) ->
            scaled_at (-1275) lo <= A + B <= scaled_at (-1275) hi ->
            number32 (F64.to_single s)
            /\ scaled_at (-1275) lo <= scaled_at (-1275) (F64.to_single s)
               <= scaled_at (-1275) hi) as Hmixed.
  { intros lo hi Hlo Hhi Hvlo Hvhi Hdlo Hdhi Hsum.
    destruct (Hs_between (F64.of_single lo) (F64.of_single hi)) as [Hs HS];
      [done | done | by rewrite Hvlo, Hvhi |].
    rewrite Hvlo, Hvhi in HS.
    destruct (to_single_rounded s (-1275) Hs ltac:(lia)) as [Ho_between _].
    by apply Ho_between. }
  destruct (Z.lt_trichotomy 0 V0) as [HV0s | HV0s];
    destruct (Z.lt_trichotomy 0 V1) as [HV1s | HV1s].
  - (* both samples positive *)
    specialize (Ha_pos ltac:(clear - HV0s; lia)).
    specialize (Hb_pos ltac:(clear - HV1s; lia)).
    destruct (Hs_between (S754_zero false) (S754_finite false 4503599627370496 77))
      as [Hs _]; [done | done | |].
    { rewrite scaled_at_zero, Hvbig. clear - Ha_pos Hb_pos Hmag0 Hmag1. lia. }
    specialize (Hs_err (proj1 Hs)).
    destruct (blend_sum_bounds ONE T U V0 V1 A B (scaled_at (-1275) s)
                Hunit HT HU Hu_err HV0s HV1s (proj1 Ha_pos) (proj1 Hb_pos)
                Ha_err Hb_err Hs_err) as [Hup Hdown].
    specialize (Hs0c HV0s). specialize (Hs1c HV1s).
    destruct (Z.le_gt_cases V0 V1) as [Hle | Hgt].
    + rewrite (Z.max_r V0 V1), <- HV1 in Hup by exact Hle.
      rewrite (Z.min_l V0 V1), <- HV0 in Hdown by exact Hle.
      specialize (Hord Hle).
      rewrite (Z.min_l W0 W1), (Z.max_r W0 W1) by exact Hord.
      apply narrow_between_sorted; [done | done | done | | | done | |].
      * clear - Hs0c. lia.
      * clear - Hs1c. lia.
      * clear - Hup Hs1c. lia.
      * clear - Hdown Hs0c. lia.
    + assert (V1 <= V0) as Hle by (clear - Hgt; lia).
      rewrite (Z.max_l V0 V1), <- HV0 in Hup by exact Hle.
      rewrite (Z.min_r V0 V1), <- HV1 in Hdown by exact Hle.
      specialize (Hord' Hle).
      rewrite (Z.min_r W0 W1), (Z.max_l W0 W1) by exact Hord'.
      apply narrow_between_sorted; [done | done | done | | | done | |].
      * clear - Hs1c. lia.
      * clear - Hs0c. lia.
      * clear - Hup Hs0c. lia.
      * clear - Hdown Hs1c. lia.
  - (* the left positive, the right not *)
    specialize (Ha_pos ltac:(clear - HV0s; lia)).
    assert (V1 <= 0) as HV1n by (clear - HV1s; lia).
    specialize (Hb_neg HV1n). specialize (Hs1b HV1n). specialize (Hs0c HV0s).
    rewrite (Z.min_r W0 W1), (Z.max_l W0 W1) by (clear - Hs1b Hs0c; lia).
    apply Hmixed; try done. clear - Ha_pos Hb_neg. lia.
  - (* the right positive, the left not *)
    specialize (Hb_pos ltac:(clear - HV1s; lia)).
    assert (V0 <= 0) as HV0n by (clear - HV0s; lia).
    specialize (Ha_neg HV0n). specialize (Hs0b HV0n). specialize (Hs1c HV1s).
    rewrite (Z.min_l W0 W1), (Z.max_r W0 W1) by (clear - Hs0b Hs1c; lia).
    apply Hmixed; try done. clear - Ha_neg Hb_pos. lia.
  - (* neither positive *)
    assert (V0 <= 0) as HV0n by (clear - HV0s; lia).
    assert (V1 <= 0) as HV1n by (clear - HV1s; lia).
    specialize (Ha_neg HV0n). specialize (Hb_neg HV1n).
    specialize (Hs0b HV0n). specialize (Hs1b HV1n).
    destruct (Z.eq_dec V0 0) as [HV00 | HV00].
    { assert (W0 = 0) as HW00 by (clear - HV0 HV00; lia).
      rewrite (Z.min_r W0 W1), (Z.max_l W0 W1) by (clear - Hs1b HW00; lia).
      apply Hmixed; try done. clear - Ha_neg Hb_neg HW00. lia. }
    destruct (Z.eq_dec V1 0) as [HV10 | HV10].
    { assert (W1 = 0) as HW10 by (clear - HV1 HV10; lia).
      rewrite (Z.min_l W0 W1), (Z.max_r W0 W1) by (clear - Hs0b HW10; lia).
      apply Hmixed; try done. clear - Ha_neg Hb_neg HW10. lia. }
    assert (V0 < 0) as HV0neg by (clear - HV0n HV00; lia).
    assert (V1 < 0) as HV1neg by (clear - HV1n HV10; lia).
    specialize (Hs0d HV0neg). specialize (Hs1d HV1neg).
    destruct (Hs_between (S754_finite true 4503599627370496 77) (S754_zero false))
      as [Hs _]; [done | done | |].
    { rewrite scaled_at_zero, Hvbig'. clear - Ha_neg Hb_neg Hmag0 Hmag1. lia. }
    specialize (Hs_err (proj1 Hs)).
    assert (Z.abs (- A - U * - V0) * 2 ^ 53
            <= Z.max (Z.abs (U * - V0)) (2 ^ 253)) as Ha_err'.
    { clear - Ha_err. replace (- A - U * - V0) with (- (A - U * V0)) by lia.
      replace (U * - V0) with (- (U * V0)) by lia. by rewrite !Z.abs_opp. }
    assert (Z.abs (- B - T * - V1) * 2 ^ 53
            <= Z.max (Z.abs (T * - V1)) (2 ^ 253)) as Hb_err'.
    { clear - Hb_err. replace (- B - T * - V1) with (- (B - T * V1)) by lia.
      replace (T * - V1) with (- (T * V1)) by lia. by rewrite !Z.abs_opp. }
    assert (Z.abs (- scaled_at (-1275) s - (- A + - B)) * 2 ^ 53
            <= Z.max (Z.abs (- A + - B)) (2 ^ 253)) as Hs_err'.
    { clear - Hs_err.
      replace (- scaled_at (-1275) s - (- A + - B))
        with (- (scaled_at (-1275) s - (A + B))) by lia.
      replace (- A + - B) with (- (A + B)) by lia. by rewrite !Z.abs_opp. }
    destruct (blend_sum_bounds ONE T U (- V0) (- V1) (- A) (- B)
                (- scaled_at (-1275) s) Hunit HT HU Hu_err
                ltac:(clear - HV0neg; lia) ltac:(clear - HV1neg; lia)
                ltac:(clear - Ha_neg; lia) ltac:(clear - Hb_neg; lia)
                Ha_err' Hb_err' Hs_err') as [Hup Hdown].
    destruct (Z.le_gt_cases V0 V1) as [Hle | Hgt].
    + rewrite (Z.max_l (- V0) (- V1)) in Hup by (clear - Hle; lia).
      rewrite (Z.min_r (- V0) (- V1)) in Hdown by (clear - Hle; lia).
      rewrite Z.mul_opp_l, <- HV0 in Hup. rewrite Z.mul_opp_l, <- HV1 in Hdown.
      specialize (Hord Hle).
      rewrite (Z.min_l W0 W1), (Z.max_r W0 W1) by exact Hord.
      apply narrow_between_sorted; [done | done | done | | | done | |].
      * clear - Hs0d. lia.
      * clear - Hs1d. lia.
      * clear - Hdown Hs1d. lia.
      * clear - Hup Hs0d. lia.
    + assert (V1 <= V0) as Hle by (clear - Hgt; lia).
      rewrite (Z.max_r (- V0) (- V1)) in Hup by (clear - Hle; lia).
      rewrite (Z.min_l (- V0) (- V1)) in Hdown by (clear - Hle; lia).
      rewrite Z.mul_opp_l, <- HV1 in Hup. rewrite Z.mul_opp_l, <- HV0 in Hdown.
      specialize (Hord' Hle).
      rewrite (Z.min_r W0 W1), (Z.max_l W0 W1) by exact Hord'.
      apply narrow_between_sorted; [done | done | done | | | done | |].
      * clear - Hs1d. lia.
      * clear - Hs0d. lia.
      * clear - Hdown Hs0d. lia.
      * clear - Hup Hs1d. lia.
Qed.

End BlendBetween.

(** * Interpolated values and their two neighbours *)

Lemma scaled_between (G a b c : Z) :
  0 < G -> Z.min (a * G) (b * G) <= c * G <= Z.max (a * G) (b * G) ->
  Z.min a b <= c <= Z.max a b.
Proof.
  intros HG H. destruct (Z.le_gt_cases a b) as [Hab | Hab].
  - assert (a * G <= b * G) by (apply Z.mul_le_mono_nonneg_r; lia).
    rewrite Z.min_l, Z.max_r in * by lia. nia.
  - assert (b * G <= a * G) by (apply Z.mul_le_mono_nonneg_r; lia).
    rewrite Z.min_r, Z.max_l in * by lia. nia.
Qed.

Lemma number32_scaled (v : float32) :
  number F32.prec F32.emax v ->
  scaled_at (-1275) v = F32.scaled v * 2 ^ 1126.
Proof.
  intros [Hfin Hvalid]. unfold F32.scaled.
  apply (scaled_at_rescale (-149) (-1275)); [lia|].
  destruct v as [s | | | s m e]; try done.
  apply f32_valid_finite in Hvalid. lia.
Qed.

(** The blend of the kernel, between its two samples. *)
Lemma kernel_blend_between (x : float64) (idx : Z) (v0 v1 : float32) :
  F64.valid x -> F64.to_int (F64.floor x) = Some idx ->
  F32.valid v0 -> F32.valid v1 -> is_finite v0 = true -> is_finite v1 = true ->
  let t := F64.sub x (F64.of_int idx) in
  let o := F64.to_single
             (F64.add (F64.mul (F64.sub F64.one t) (F64.of_single v0))
                      (F64.mul t (F64.of_single v1))) in
  number F32.prec F32.emax o
  /\ Z.min (F32.scaled v0) (F32.scaled v1) <= F32.scaled o
     <= Z.max (F32.scaled v0) (F32.scaled v1).
Proof.
  intros Hx Hidx Hv0 Hv1 Hf0 Hf1. cbv zeta.
  destruct (fractional_weight x idx Hx Hidx) as [Ht HT].
  destruct (blend_between (F64.sub x (F64.of_int idx)) v0 v1 Ht HT)
    as [Ho Hbetween]; [done | done |].
  split; [done|].
  rewrite !number32_scaled in Hbetween by done.
  apply (scaled_between (2 ^ 1126)); [by apply pow2_pos | done].
Qed.

(** X10.  Linear interpolation never overshoots: on well-formed inputs
    whose table entries are binary64 values and whose samples are binary32
    values, wherever the kernel blends two finite samples
    [v0 = proj[p][r][idx]] and [v1 = proj[p][r][idx+1]], the element written
    is finite and lies between them, [min v0 v1 <= out[p][r][j] <= max v0 v1],
    for every weight [t] and with all four roundings of the blend taken
    into account (values in units of [2^-149]). *)
Theorem interpolation_between_neighbours
    (proj : list float32) (normalized_angles : list float64)
    (num_proj num_rows orig_num_detectors num_cols : Z) (out : list float32) :
  Spec.well_formed proj normalized_angles num_proj num_rows
    orig_num_detectors num_cols out ->
  Forall F32.valid proj ->
  Forall F64.valid normalized_angles ->
  exists out',
    Flattening.interpolation_loop proj normalized_angles num_proj num_rows
      orig_num_detectors num_cols out = Some out'
    /\ forall p r j x idx,
         0 <= p < num_proj -> 0 <= r < num_rows -> 0 <= j < num_cols ->
         load normalized_angles j = Some x ->
         F64.to_int (F64.floor x) = Some idx ->
         0 <= idx < orig_num_detectors - 1 ->
         exists v0 v1 o,
           Spec.proj_at proj num_rows orig_num_detectors p r idx = Some v0
           /\ Spec.proj_at proj num_rows orig_num_detectors p r (idx + 1) = Some v1
           /\ load out' (Spec.out_index num_rows num_cols p r j) = Some o
           /\ (is_finite v0 = true -> is_finite v1 = true ->
               is_finite o = true
               /\ Z.min (F32.scaled v0) (F32.scaled v1) <= F32.scaled o
                  <= Z.max (F32.scaled v0) (F32.scaled v1)).
Proof.
  intros Hwf Hvalid Hangles.
  destruct (wf_kernel _ _ _ _ _ _ _ Hwf) as (out' & Hrun & _ & Hval & _).
  exists out'. split; [exact Hrun|]. intros p r j x idx Hp Hr Hj Hx Hidx Hrange.
  destruct (wf_extents _ _ _ _ _ _ _ Hwf p r Hp Hr) as (HD & _ & _ & HDb & Hpc).
  pose proof (fun d => wf_sample _ _ _ _ _ _ _ Hwf p r d Hvalid Hp Hr) as Hproj.
  assert (F64.valid x) as Hvx.
  { rewrite Forall_forall in Hangles. apply Hangles.
    apply load_Some in Hx as [_ Hx]. by eapply list_elem_of_lookup_2. }
  destruct (Hproj idx ltac:(lia)) as (v0 & Hv0 & Hvalid0).
  destruct (Hproj (idx + 1) ltac:(lia)) as (v1 & Hv1 & Hvalid1).
  exists v0, v1. eexists. split; [exact Hv0|]. split; [exact Hv1|].
  rewrite (Hval p r j Hp Hr Hj). unfold Spec.sample, Spec.select.
  rewrite Hx. change (Some ?y ≫= ?f) with (f y). cbv beta.
  rewrite (cast_int_exact _ _ Hidx). cbv zeta.
  destruct (Z.ltb_spec idx 0); [lia|].
  destruct (Z.leb_spec (orig_num_detectors - 1) idx); [lia|].
  rewrite Hv0, Hv1.
  change (Some v0 ≫= ?f) with (f v0). cbv beta.
  change (Some v1 ≫= ?f) with (f v1). cbv beta.
  split; [reflexivity|].
  intros Hf0 Hf1.
  destruct (kernel_blend_between x idx v0 v1 Hvx Hidx Hvalid0 Hvalid1 Hf0 Hf1)
    as [[Hfin _] Hbetween].
  split; [exact Hfin | exact Hbetween].
Qed.

Lemma interpolation_between_neighbours_witness :
  exists out',
    Flattening.interpolation_loop Examples.proj Examples.normalized_angles
      1 2 4 3 Examples.sentinel = Some out'
    /\ forall p r j x idx,
         0 <= p < 1 -> 0 <= r < 2 -> 0 <= j < 3 ->
         load Examples.normalized_angles j = Some x ->
         F64.to_int (F64.floor x) = Some idx ->
         0 <= idx < 4 - 1 ->
         exists v0 v1 o,
           Spec.proj_at Examples.proj 2 4 p r idx = Some v0
           /\ Spec.proj_at Examples.proj 2 4 p r (idx + 1) = Some v1
           /\ load out' (Spec.out_index 2 3 p r j) = Some o
           /\ (is_finite v0 = true -> is_finite v1 = true ->
               is_finite o = true
               /\ Z.min (F32.scaled v0) (F32.scaled v1) <= F32.scaled o
                  <= Z.max (F32.scaled v0) (F32.scaled v1)).
Proof.
  exact (interpolation_between_neighbours _ _ _ _ _ _ _ example_well_formed
           example_proj_valid example_angles_valid).
Defined.

(** X11.  Flat regions are kept exactly: where the two samples the kernel
    blends are one and the same finite value [v], the element written is
    [v] bit for bit, for every weight [t]; only a zero may come out with
    the other sign. *)
Theorem equal_neighbours_exact
    (proj : list float32) (normalized_angles : list float64)
    (num_proj num_rows orig_num_detectors num_cols : Z) (out : list float32) :
  Spec.well_formed proj normalized_angles num_proj num_rows
    orig_num_detectors num_cols out ->
  Forall F32.valid proj ->
  Forall F64.valid normalized_angles ->
  exists out',
    Flattening.interpolation_loop proj normalized_angles num_proj num_rows
      orig_num_detectors num_cols out = Some out'
    /\ forall p r j x idx v,
         0 <= p < num_proj -> 0 <= r < num_rows -> 0 <= j < num_cols ->
         load normalized_angles j = Some x ->
         F64.to_int (F64.floor x) = Some idx ->
         0 <= idx < orig_num_detectors - 1 ->
         Spec.proj_at proj num_rows orig_num_detectors p r idx = Some v ->
         Spec.proj_at proj num_rows orig_num_detectors p r (idx + 1) = Some v ->
         is_finite v = true ->
         load out' (Spec.out_index num_rows num_cols p r j) = Some v
         \/ exists s s',
              v = S754_zero s
              /\ load out' (Spec.out_index num_rows num_cols p r j)
                 = Some (S754_zero s').
Proof.
  intros Hwf Hvalid Hangles.
  destruct (wf_kernel _ _ _ _ _ _ _ Hwf) as (out' & Hrun & _ & Hval & _).
  exists out'. split; [exact Hrun|].
  intros p r j x idx v Hp Hr Hj Hx Hidx Hrange Hv0 Hv1 Hfin.
  assert (F32.valid v) as Hvv.
  { rewrite Forall_forall in Hvalid. apply Hvalid. unfold Spec.proj_at in Hv0.
    apply load_Some in Hv0 as [_ Hv0]. by eapply list_elem_of_lookup_2. }
  assert (F64.valid x) as Hvx.
  { rewrite Forall_forall in Hangles. apply Hangles.
    apply load_Some in Hx as [_ Hx]. by eapply list_elem_of_lookup_2. }
  rewrite (Hval p r j Hp Hr Hj). unfold Spec.sample, Spec.select.
  rewrite Hx. change (Some ?y ≫= ?f) with (f y). cbv beta.
  rewrite (cast_int_exact _ _ Hidx). cbv zeta.
  destruct (Z.ltb_spec idx 0); [lia|].
  destruct (Z.leb_spec (orig_num_detectors - 1) idx); [lia|].
  rewrite Hv0, Hv1.
  change (Some v ≫= ?f) with (f v). cbv beta.
  change (Some v ≫= ?f) with (f v). cbv beta.
  destruct (kernel_blend_between x idx v v Hvx Hidx Hvv Hvv Hfin Hfin)
    as [Ho Hbetween].
  cbv zeta in Ho, Hbetween.
  set (o := F64.to_single _) in *.
  rewrite Z.min_id, Z.max_id in Hbetween.
  assert (F32.scaled o = F32.scaled v) as Heq by lia.
  destruct f32_format as [Hp32 Hm32].
  destruct (Z.eq_dec (F32.scaled v) 0) as [Hzero | Hnz].
  - right.
    destruct (number_cases _ _ v (-149) (conj Hfin Hvv))
      as [(s & -> & _) | (s & m & e & -> & Hb & Hvs)].
    2:{ exfalso. unfold F32.scaled in Hzero. rewrite Hvs in Hzero.
        pose proof (bounded_magnitude _ _ Hp32 Hm32 m e (-149) ltac:(done) Hb).
        pose proof (pow2_pos (e - -149)).
        apply (bounded_grid F32.prec F32.emax) in Hb as ([He _] & _).
        change (SpecFloat.emin F32.prec F32.emax) with (-149) in He.
        destruct s; unfold cond_Zopp in Hzero; lia. }
    destruct (number_cases _ _ o (-149) Ho)
      as [(s' & -> & _) | (s' & m & e & Ho' & Hb & Hvs)].
    { by exists s, s'. }
    exfalso. unfold F32.scaled in Heq, Hzero. rewrite Hzero, Hvs in Heq.
    pose proof (bounded_magnitude _ _ Hp32 Hm32 m e (-149) ltac:(done) Hb).
    pose proof (pow2_pos (e - -149)).
    apply (bounded_grid F32.prec F32.emax) in Hb as ([He _] & _).
    change (SpecFloat.emin F32.prec F32.emax) with (-149) in He.
    destruct s'; unfold cond_Zopp in Heq; lia.
  - left. f_equal.
    apply (number_eq _ _ Hp32 Hm32 o v (-149)); [done | done | done | done |].
    unfold F32.scaled in Heq, Hnz. by rewrite Heq.
Qed.

Lemma flat_rows_well_formed :
  Spec.well_formed (replicate 8 (Examples.single 5 0))
    Examples.normalized_angles 1 2 4 3 Examples.sentinel.
Proof.
  split; try lia; try (unfold Int32.max_signed; lia); cbn; lia.
Defined.

Lemma flat_rows_valid : Forall F32.valid (replicate 8 (Examples.single 5 0)).
Proof. apply Forall_replicate. reflexivity. Defined.

Lemma equal_neighbours_exact_witness :
  exists out',
    Flattening.interpolation_loop (replicate 8 (Examples.single 5 0))
      Examples.normalized_angles 1 2 4 3 Examples.sentinel = Some out'
    /\ forall p r j x idx v,
         0 <= p < 1 -> 0 <= r < 2 -> 0 <= j < 3 ->
         load Examples.normalized_angles j = Some x ->
         F64.to_int (F64.floor x) = Some idx ->
         0 <= idx < 4 - 1 ->
         Spec.proj_at (replicate 8 (Examples.single 5 0)) 2 4 p r idx = Some v ->
         Spec.proj_at (replicate 8 (Examples.single 5 0)) 2 4 p r (idx + 1)
         = Some v ->
         is_finite v = true ->
         load out' (Spec.out_index 2 3 p r j) = Some v
         \/ exists s s',
              v = S754_zero s
              /\ load out' (Spec.out_index 2 3 p r j) = Some (S754_zero s').
Proof.
  exact (equal_neighbours_exact _ _ _ _ _ _ _ flat_rows_well_formed
           flat_rows_valid example_angles_valid).
Defined.

(** * The weight is exact *)

Section WeightExact.

Local Abbreviation number64 := (number F64.prec F64.emax).

(** Every integer of at most 53 bits, scaled by a power of two within the
    exponent range, is a binary64 number. *)
Lemma f64_representable (M e E : Z) :
  Z.abs M < 2 ^ 53 -> -1074 <= e <= 971 -> E <= -1074 ->
  exists f, number64 f /\ scaled_at E f = M * 2 ^ (e - E).
Proof.
  intros HM He HE.
  assert (forall (s : bool) (p : positive),
            Z.pos p < 2 ^ 53 ->
            exists f, number64 f
                      /\ scaled_at E f = cond_Zopp s (Z.pos p) * 2 ^ (e - E))
    as Hpos.
  { intros s p Hp.
    pose proof (digits2_pos_le p 53 Hp) as Hd.
    pose proof (Pos2Z.is_pos (digits2_pos p)) as Hd0.
    destruct (binary_round_short F64.prec F64.emax ltac:(done) s p e)
      as (m & Hr & Hm & Hb);
      [rewrite f64_fexp; lia | rewrite f64_fexp; unfold F64.emax, F64.prec; lia |].
    rewrite f64_fexp in Hr, Hm, Hb.
    set (e0 := Z.max (Z.pos (digits2_pos p) + e - 53) (-1074)) in *.
    exists (S754_finite s m e0). split; [done|].
    rewrite scaled_at_finite, !cond_Zopp_mul, Hm. f_equal.
    rewrite <- Z.mul_assoc, <- Z.pow_add_r by lia. do 2 f_equal. lia. }
  destruct M as [|p|p].
  - exists (S754_zero false). split; [done|]. by rewrite scaled_at_zero.
  - apply (Hpos false p). lia.
  - apply (Hpos true p). lia.
Qed.

Lemma weight_exact (x : float64) (idx : Z) :
  F64.valid x -> F64.to_int (F64.floor x) = Some idx -> 0 <= idx ->
  is_finite (F64.sub x (F64.of_int idx)) = true
  /\ scaled_at (-1074) (F64.sub x (F64.of_int idx))
     = scaled_at (-1074) x - idx * 2 ^ 1074.
Proof.
  intros Hvalid Hidx Hpos.
  pose proof Hidx as [Htr Hrange]%to_int_Some.
  destruct (floor_bracket x idx Hvalid Htr) as [Hfin Hb].
  unfold Int32.in_range, Int32.min_signed, Int32.max_signed in Hrange.
  destruct (of_int_number idx (-1074)) as [Hn Hv]; [lia | lia |].
  change (- -1074) with 1074 in Hv.
  destruct (sub_rounded x (F64.of_int idx) (-1074)) as [Hbetween _];
    [done | done | lia |].
  rewrite Hv in Hbetween.
  pose proof (pow2_pos 1074 ltac:(lia)) as Hone.
  assert (exists f, number64 f
                    /\ scaled_at (-1074) f = scaled_at (-1074) x - idx * 2 ^ 1074)
    as (f & Hf & Hvf).
  { destruct x as [s | | | s m e]; try done.
    - rewrite scaled_at_zero in Hb |- *. assert (idx = 0) as -> by nia.
      exists (S754_zero false). split; [done|]. by rewrite scaled_at_zero.
    - pose proof Hvalid as (Hcan & Hmax & Hm)%f64_valid_finite.
      rewrite scaled_at_finite in Hb |- *.
      assert (0 < 2 ^ (e - -1074)) as Hg by (apply pow2_pos; lia).
      assert (s = false) as ->.
      { destruct s; [|done]. unfold cond_Zopp in Hb. exfalso. nia. }
      unfold cond_Zopp in Hb |- *.
      destruct (Z.leb_spec 0 e) as [He | He].
      + assert (2 ^ (e - -1074) = 2 ^ e * 2 ^ 1074) as Hsplit
          by (apply pow2_mul; lia).
        rewrite Hsplit, Z.mul_assoc in Hb |- *.
        assert (idx = Z.pos m * 2 ^ e) as -> by nia.
        exists (S754_zero false). split; [done|]. rewrite scaled_at_zero. lia.
      + assert (0 < 2 ^ (- e)) as Hpow by (apply pow2_pos; lia).
        assert (2 ^ 1074 = 2 ^ (- e) * 2 ^ (e - -1074)) as Hsplit
          by (apply pow2_mul; lia).
        rewrite Hsplit, !Z.mul_assoc in Hb |- *.
        rewrite <- Z.mul_sub_distr_r.
        apply f64_representable; [|lia | lia].
        assert (0 <= idx * 2 ^ (- e)) by nia.
        assert (idx * 2 ^ (- e) <= Z.pos m) by nia.
        lia. }
  destruct (Hbetween f f Hf Hf) as [[Ht _] Hval]; [rewrite Hvf; lia|].
  split; [done | lia].
Qed.

End WeightExact.

(** X12.  The weight is exact: for a binary64 table entry [x] whose index
    [idx = (int)floor(x)] is not negative (the only case in which the
    kernel blends), the subtraction [t = x - idx] of line 35 involves no
    rounding: [t] is the fractional part of [x], in [[0, 1)]. *)
Theorem blend_weight_exact (x : float64) (idx : Z) :
  F64.valid x -> F64.to_int (F64.floor x) = Some idx -> 0 <= idx ->
  let t := F64.sub x (F64.of_int idx) in
  is_finite t = true
  /\ scaled_at (-1074) t = scaled_at (-1074) x - idx * 2 ^ 1074
  /\ 0 <= scaled_at (-1074) t < 2 ^ 1074.
Proof.
  intros Hvalid Hidx Hpos. cbv zeta.
  destruct (weight_exact x idx Hvalid Hidx Hpos) as [Hfin Hval].
  pose proof Hidx as [Htr _]%to_int_Some.
  destruct (floor_bracket x idx Hvalid Htr) as [_ Hb].
  split; [done|]. split; [done|]. lia.
Qed.

Lemma blend_weight_exact_witness :
  let t := F64.sub (Examples.double 3 (-1)) (F64.of_int 1) in
  is_finite t = true
  /\ scaled_at (-1074) t = scaled_at (-1074) (Examples.double 3 (-1)) - 1 * 2 ^ 1074
  /\ 0 <= scaled_at (-1074) t < 2 ^ 1074.
Proof.
  apply (blend_weight_exact (Examples.double 3 (-1)) 1); [reflexivity | reflexivity | lia].
Defined.

(** * NaN samples *)

Lemma blend_nan (t : float64) (v0 v1 : float32) :
  v0 = S754_nan \/ v1 = S754_nan ->
  F64.to_single
    (F64.add (F64.mul (F64.sub F64.one t) (F64.of_single v0))
             (F64.mul t (F64.of_single v1)))
  = S754_nan.
Proof.
  assert (forall w, F64.mul w S754_nan = S754_nan) as Hmul
    by (intros w; unfold F64.mul, SFmul; by destruct w).
  assert (forall a, F64.add a S754_nan = S754_nan) as Hadd
    by (intros a; unfold F64.add, SFadd; by destruct a).
  intros [-> | ->].
  - change (F64.of_single S754_nan) with S754_nan. rewrite Hmul. reflexivity.
  - change (F64.of_single S754_nan) with S754_nan. rewrite Hmul, Hadd. reflexivity.
Qed.

(** X13.  A NaN sample is never lost: on well-formed inputs, wherever the
    kernel blends [proj[p][r][idx]] and [proj[p][r][idx+1]] and one of the
    two is NaN, the element written is NaN, even when its weight is zero. *)
Theorem nan_sample_propagates
    (proj : list float32) (normalized_angles : list float64)
    (num_proj num_rows orig_num_detectors num_cols : Z) (out : list float32) :
  Spec.well_formed proj normalized_angles num_proj num_rows
    orig_num_detectors num_cols out ->
  exists out',
    Flattening.interpolation_loop proj normalized_angles num_proj num_rows
      orig_num_detectors num_cols out = Some out'
    /\ forall p r j x idx,
         0 <= p < num_proj -> 0 <= r < num_rows -> 0 <= j < num_cols ->
         load normalized_angles j = Some x ->
         F64.to_int (F64.floor x) = Some idx ->
         0 <= idx < orig_num_detectors - 1 ->
         Spec.proj_at proj num_rows orig_num_detectors p r idx = Some S754_nan
         \/ Spec.proj_at proj num_rows orig_num_detectors p r (idx + 1)
            = Some S754_nan ->
         load out' (Spec.out_index num_rows num_cols p r j) = Some S754_nan.
Proof.
  intros Hwf.
  destruct (wf_kernel _ _ _ _ _ _ _ Hwf) as (out' & Hrun & _ & Hval & _).
  exists out'. split; [exact Hrun|].
  intros p r j x idx Hp Hr Hj Hx Hidx Hrange Hnan.
  destruct (wf_value _ _ _ _ _ _ _ Hwf p r j Hp Hr Hj) as [_ [o Ho]].
  rewrite (Hval p r j Hp Hr Hj). revert Ho. unfold Spec.sample, Spec.select.
  rewrite Hx. change (Some ?y ≫= ?f) with (f y). cbv beta.
  rewrite (cast_int_exact _ _ Hidx). cbv zeta.
  destruct (Z.ltb_spec idx 0); [lia|].
  destruct (Z.leb_spec (orig_num_detectors - 1) idx); [lia|].
  destruct (Spec.proj_at proj num_rows orig_num_detectors p r idx) as [v0|];
    [|intros; discriminate].
  change (Some v0 ≫= ?f) with (f v0). cbv beta.
  destruct (Spec.proj_at proj num_rows orig_num_detectors p r (idx + 1)) as [v1|];
    [|intros; discriminate].
  change (Some v1 ≫= ?f) with (f v1). cbv beta.
  intros _. f_equal. apply blend_nan.
  destruct Hnan as [[= ->] | [= ->]]; [by left | by right].
Qed.

Lemma nan_sample_well_formed :
  Spec.well_formed (take 2 Examples.proj ++ S754_nan :: drop 3 Examples.proj)
    Examples.normalized_angles 1 2 4 3 Examples.sentinel.
Proof.
  split; try lia; try (unfold Int32.max_signed; lia); cbn; lia.
Defined.

Lemma nan_sample_propagates_witness :
  exists out',
    Flattening.interpolation_loop
      (take 2 Examples.proj ++ S754_nan :: drop 3 Examples.proj)
      Examples.normalized_angles 1 2 4 3 Examples.sentinel = Some out'
    /\ forall p r j x idx,
         0 <= p < 1 -> 0 <= r < 2 -> 0 <= j < 3 ->
         load Examples.normalized_angles j = Some x ->
         F64.to_int (F64.floor x) = Some idx ->
         0 <= idx < 4 - 1 ->
         Spec.proj_at (take 2 Examples.proj ++ S754_nan :: drop 3 Examples.proj)
           2 4 p r idx = Some S754_nan
         \/ Spec.proj_at (take 2 Examples.proj ++ S754_nan :: drop 3 Examples.proj)
              2 4 p r (idx + 1) = Some S754_nan ->
         load out' (Spec.out_index 2 3 p r j) = Some S754_nan.
Proof. exact (nan_sample_propagates _ _ _ _ _ _ _ nan_sample_well_formed). Defined.

(** * The error of the blend *)

Section BlendError.

Local Abbreviation number64 := (number F64.prec F64.emax).
Local Abbreviation number32 := (number F32.prec F32.emax).

Lemma abs_mul_le (a b c d : Z) :
  Z.abs a <= c -> Z.abs b <= d -> Z.abs (a * b) <= c * d.
Proof.
  intros Ha Hb. rewrite Z.abs_mul. apply Z.mul_le_mono_nonneg; lia.
Qed.

(** Five roundings of [(ONE - T) * V0 + T * V1]: the weight [U] of the left
    sample, the two products, their sum, and the sum narrowed. *)
Lemma blend_error (ONE T U V0 V1 A B S O Mv : Z) :
  2 ^ 52 <= ONE ->
  0 <= T <= ONE -> 0 <= U <= ONE ->
  Z.abs (U - (ONE - T)) * 2 ^ 53 <= Z.max (Z.abs (ONE - T)) (2 ^ 52) ->
  Z.abs V0 <= Mv -> Z.abs V1 <= Mv ->
  Z.abs (A - U * V0) * 2 ^ 53 <= Z.max (Z.abs (U * V0)) (2 ^ 253) ->
  Z.abs (B - T * V1) * 2 ^ 53 <= Z.max (Z.abs (T * V1)) (2 ^ 253) ->
  Z.abs (S - (A + B)) * 2 ^ 53 <= Z.max (Z.abs (A + B)) (2 ^ 253) ->
  Z.abs (O - S) * 2 ^ 24 <= Z.max (Z.abs S) (2 ^ 1149) ->
  2 ^ 45 * Z.abs (O - ((ONE - T) * V0 + T * V1))
  <= (2 ^ 21 + 1) * (Mv * ONE) + 2 ^ 1171.
Proof.
  intros HONE HT HU Hu HV0 HV1 Ha Hb Hs Ho.
  assert (0 <= Mv) as HMv by (clear - HV0; lia).
  assert (Z.abs (U * V0) <= U * Mv) as Hp0
    by (clear - HU HV0; apply abs_mul_le; lia).
  assert (Z.abs (T * V1) <= T * Mv) as Hp1
    by (clear - HT HV1; apply abs_mul_le; lia).
  assert (Z.abs (U - (ONE - T)) * 2 ^ 53 <= ONE) as Hu'
    by (clear - HONE HT Hu; lia).
  assert ((U + T) * 2 ^ 53 * Mv <= (ONE * 2 ^ 53 + ONE) * Mv) as Hsum
    by (clear - Hu' HMv; apply Z.mul_le_mono_nonneg_r; lia).
  assert (Z.abs ((U - (ONE - T)) * 2 ^ 53 * V0) <= ONE * Mv) as Hskew.
  { clear - Hu' HV0. apply abs_mul_le; [|done].
    rewrite Z.abs_mul, (Z.abs_eq (2 ^ 53)) by lia. done. }
  set (P := (ONE - T) * V0 + T * V1).
  set (p0 := U * V0) in *. set (p1 := T * V1) in *.
  assert ((U - (ONE - T)) * 2 ^ 53 * V0 = (p0 + p1 - P) * 2 ^ 53) as Hdiff
    by (unfold p0, p1, P; clear; lia).
  rewrite Hdiff in Hskew.
  assert ((U * Mv + T * Mv) * 2 ^ 53 <= Mv * ONE * (2 ^ 53 + 1)) as Hq
    by (clear - Hsum; lia).
  set (q0 := U * Mv) in *. set (q1 := T * Mv) in *. set (Q := Mv * ONE) in *.
  replace (ONE * Mv) with Q in Hskew by (unfold Q; clear; lia).
  assert (0 <= Q) as HQ by (unfold Q; clear - HMv HONE; nia).
  clearbody p0 p1 P q0 q1 Q.
  clear - Hp0 Hp1 Hskew Hq HQ Ha Hb Hs Ho.
  assert (Z.abs (A - p0) * 2 ^ 53 <= q0 + 2 ^ 253) as Ha' by (clear - Ha Hp0; lia).
  assert (Z.abs (B - p1) * 2 ^ 53 <= q1 + 2 ^ 253) as Hb' by (clear - Hb Hp1; lia).
  clear Ha Hb.
  assert (Z.abs (A + B - (p0 + p1)) * 2 ^ 53 <= q0 + q1 + 2 ^ 254) as Hab
    by (clear - Ha' Hb'; lia).
  assert (Z.abs (p0 + p1) <= q0 + q1) as Hp by (clear - Hp0 Hp1; lia).
  clear Ha' Hb' Hp0 Hp1.
  set (p := p0 + p1) in *. set (q := q0 + q1) in *. set (AB := A + B) in *.
  clearbody p q AB.
  assert (Z.abs AB * 2 ^ 53 <= q * (2 ^ 53 + 1) + 2 ^ 254) as HAB by lia.
  assert (Z.abs (S - AB) * 2 ^ 53 <= Z.abs AB + 2 ^ 253) as Hs' by lia.
  assert (Z.abs (O - S) * 2 ^ 24 <= Z.abs S + 2 ^ 1149) as Ho' by lia.
  clear Hs Ho.
  assert (Z.abs (p - P) * 2 ^ 53 <= Q) as H0 by lia.
  assert (Z.abs S * 2 ^ 53 <= Z.abs AB * (2 ^ 53 + 1) + 2 ^ 253) as H1 by lia.
  assert (Z.abs (O - P)
          <= Z.abs (O - S) + Z.abs (S - AB) + Z.abs (AB - p) + Z.abs (p - P))
    as H2 by lia.
  assert (0 <= Z.abs (O - S) /\ 0 <= Z.abs (S - AB) /\ 0 <= Z.abs (AB - p)
          /\ 0 <= Z.abs (p - P) /\ 0 <= Z.abs S /\ 0 <= Z.abs AB) as H3
    by (repeat split; apply Z.abs_nonneg).
  set (x1 := Z.abs (O - S)) in *. set (x2 := Z.abs (S - AB)) in *.
  set (x3 := Z.abs (AB - p)) in *. set (x4 := Z.abs (p - P)) in *.
  set (y := Z.abs (O - P)) in *.
  set (aS := Z.abs S) in *. set (aAB := Z.abs AB) in *.
  clearbody x1 x2 x3 x4 y aS aAB. clear Hskew. lia.
Qed.

(** The quantities of the blend and the error of each of its roundings. *)
Lemma blend_roundings (t : float64) (v0 v1 : float32) :
  number64 t -> 0 <= scaled_at (-1074) t <= 2 ^ 1074 ->
  number32 v0 -> number32 v1 ->
  let o := F64.to_single
             (F64.add (F64.mul (F64.sub F64.one t) (F64.of_single v0))
                      (F64.mul t (F64.of_single v1))) in
  2 ^ 45 * Z.abs (scaled_at (-1275) o
                  - ((2 ^ 1074 - scaled_at (-1074) t) * (F32.scaled v0 * 2 ^ 52)
                     + scaled_at (-1074) t * (F32.scaled v1 * 2 ^ 52)))
  <= (2 ^ 21 + 1)
     * (Z.max (Z.abs (F32.scaled v0)) (Z.abs (F32.scaled v1)) * 2 ^ 52 * 2 ^ 1074)
     + 2 ^ 1171.
Proof.
  intros Ht HT Hv0 Hv1. cbv zeta.
  destruct (blend_between t v0 v1 Ht HT Hv0 Hv1) as [Ho _]. cbv zeta in Ho.
  pose proof (Z.pow_le_mono_r 2 52 1074 ltac:(lia) ltac:(lia)) as Hunit.
  destruct (one_number (-1074)) as [Hone Hvone]; [lia|].
  change (- -1074) with 1074 in Hvone.
  destruct (sub_rounded F64.one t (-1074) Hone Ht ltac:(lia)) as [Hu_between Hu_err].
  rewrite Hvone in Hu_between, Hu_err.
  destruct (Hu_between (S754_zero false) F64.one) as [Hu HU]; [done | done | |].
  { rewrite scaled_at_zero, Hvone. lia. }
  rewrite scaled_at_zero, Hvone in HU.
  specialize (Hu_err (proj1 Hu)). clear Hu_between.
  change (2 ^ F64.prec) with (2 ^ 53) in Hu_err.
  change (2 - F64.emax - -1074) with 52 in Hu_err.
  set (u := F64.sub F64.one t) in *.
  destruct (of_single_number v0 (-201) Hv0 ltac:(lia)) as (Hd0 & HF0 & Hshape0).
  destruct (of_single_number v1 (-201) Hv1 ltac:(lia)) as (Hd1 & HF1 & Hshape1).
  destruct (of_single_number v0 (-1275) Hv0 ltac:(lia)) as (_ & HW0 & _).
  destruct (of_single_number v1 (-1275) Hv1 ltac:(lia)) as (_ & HW1 & _).
  assert (forall v, number32 v -> scaled_at (-201) v = F32.scaled v * 2 ^ 52)
    as Hscale.
  { intros v [Hfin Hvalid]. unfold F32.scaled.
    apply (scaled_at_rescale (-149) (-201)); [lia|].
    destruct v as [s | | | s m e]; try done.
    apply f32_valid_finite in Hvalid. lia. }
  rewrite (Hscale v0 Hv0) in HF0. rewrite (Hscale v1 Hv1) in HF1.
  set (d0 := F64.of_single v0) in *. set (d1 := F64.of_single v1) in *.
  destruct (weighted_sample u d0 Hu HU Hd0 Hshape0) as (Ha & Ha_pos & Ha_neg & Ha_err).
  destruct (weighted_sample t d1 Ht HT Hd1 Hshape1) as (Hb & Hb_pos & Hb_neg & Hb_err).
  rewrite HF0 in Ha_pos, Ha_neg, Ha_err. rewrite HF1 in Hb_pos, Hb_neg, Hb_err.
  set (a := F64.mul u d0) in *. set (b := F64.mul t d1) in *.
  destruct (add_rounded a b (-1275) Ha Hb ltac:(lia)) as [Hs_between Hs_err].
  change (2 ^ F64.prec) with (2 ^ 53) in Hs_err.
  change (2 - F64.emax - -1275) with 253 in Hs_err.
  set (s := F64.add a b) in *.
  pose proof (number32_magnitude v0 Hv0) as Hmag0.
  pose proof (number32_magnitude v1 Hv1) as Hmag1.
  rewrite number32_scaled in Hmag0, Hmag1 by done.
  destruct f64_two129_number as (Hbig & Hbig' & Hvbig & Hvbig').
  set (F0 := F32.scaled v0) in *. set (F1 := F32.scaled v1) in *.
  set (A := scaled_at (-1275) a) in *. set (B := scaled_at (-1275) b) in *.
  assert (2 ^ 1126 = 2 ^ 52 * 2 ^ 1074) as Hsplit by (apply pow2_pos || reflexivity).
  assert (number64 s) as Hs.
  { destruct (Hs_between (S754_finite true 4503599627370496 77)
                (S754_finite false 4503599627370496 77)) as [Hs _];
      [done | done | | done].
    rewrite Hvbig, Hvbig'.
    clear - Ha_pos Ha_neg Hb_pos Hb_neg Hmag0 Hmag1 Hsplit.
    rewrite Hsplit in Hmag0, Hmag1. rewrite Z.mul_assoc in Hmag0, Hmag1.
    set (G0 := F0 * 2 ^ 52 * 2 ^ 1074) in *. set (G1 := F1 * 2 ^ 52 * 2 ^ 1074) in *.
    assert ((0 <= F0 * 2 ^ 52 \/ F0 * 2 ^ 52 <= 0)
            /\ (0 <= F1 * 2 ^ 52 \/ F1 * 2 ^ 52 <= 0)) as [[H0 | H0] [H1 | H1]] by lia;
      try specialize (Ha_pos H0); try specialize (Ha_neg H0);
      try specialize (Hb_pos H1); try specialize (Hb_neg H1); lia. }
  specialize (Hs_err (proj1 Hs)).
  destruct (to_single_rounded s (-1275) Hs ltac:(lia)) as [_ Ho_err].
  specialize (Ho_err (proj1 Ho)).
  change (2 ^ F32.prec) with (2 ^ 24) in Ho_err.
  change (2 - F32.emax - -1275) with 1149 in Ho_err.
  fold u d0 d1 a b s in Ho_err |- *.
  apply (blend_error (2 ^ 1074) (scaled_at (-1074) t) (scaled_at (-1074) u)
           (F0 * 2 ^ 52) (F1 * 2 ^ 52) A B (scaled_at (-1275) s));
    try done.
  - clear. assert (0 < 2 ^ 52) by (by apply pow2_pos).
    rewrite Z.abs_mul, (Z.abs_eq (2 ^ 52)) by lia.
    apply Z.mul_le_mono_nonneg_r; lia.
  - clear. assert (0 < 2 ^ 52) by (by apply pow2_pos).
    rewrite Z.abs_mul, (Z.abs_eq (2 ^ 52)) by lia.
    apply Z.mul_le_mono_nonneg_r; lia.
Qed.

End BlendError.

(** X14.  The accuracy of the interpolation, for every weight: wherever
    the kernel blends two finite samples [v0], [v1] at the binary64 position
    [x], the element written differs from the exact value
    [(1 - t) * v0 + t * v1], [t] the fractional part of [x], by at most
    [2^-24 * (1 + 2^-21) * max |v0| |v1|] plus one unit [2^-149] of the
    smallest floats.  (Samples are counted in units of [2^-149], the weight
    in units of [2^-1074].) *)
Theorem interpolation_error_bound
    (proj : list float32) (normalized_angles : list float64)
    (num_proj num_rows orig_num_detectors num_cols : Z) (out : list float32) :
  Spec.well_formed proj normalized_angles num_proj num_rows
    orig_num_detectors num_cols out ->
  Forall F32.valid proj ->
  Forall F64.valid normalized_angles ->
  exists out',
    Flattening.interpolation_loop proj normalized_angles num_proj num_rows
      orig_num_detectors num_cols out = Some out'
    /\ forall p r j x idx,
         0 <= p < num_proj -> 0 <= r < num_rows -> 0 <= j < num_cols ->
         load normalized_angles j = Some x ->
         F64.to_int (F64.floor x) = Some idx ->
         0 <= idx < orig_num_detectors - 1 ->
         exists v0 v1 o,
           Spec.proj_at proj num_rows orig_num_detectors p r idx = Some v0
           /\ Spec.proj_at proj num_rows orig_num_detectors p r (idx + 1) = Some v1
           /\ load out' (Spec.out_index num_rows num_cols p r j) = Some o
           /\ (is_finite v0 = true -> is_finite v1 = true ->
               let T := scaled_at (-1074) x - idx * 2 ^ 1074 in
               2 ^ 45 * Z.abs (F32.scaled o * 2 ^ 1074
                               - ((2 ^ 1074 - T) * F32.scaled v0
                                  + T * F32.scaled v1))
               <= ((2 ^ 21 + 1)
                   * Z.max (Z.abs (F32.scaled v0)) (Z.abs (F32.scaled v1))
                   + 2 ^ 45) * 2 ^ 1074).
Proof.
  intros Hwf Hvalid Hangles.
  destruct (wf_kernel _ _ _ _ _ _ _ Hwf) as (out' & Hrun & _ & Hval & _).
  exists out'. split; [exact Hrun|]. intros p r j x idx Hp Hr Hj Hx Hidx Hrange.
  destruct (wf_extents _ _ _ _ _ _ _ Hwf p r Hp Hr) as (HD & _ & _ & HDb & Hpc).
  pose proof (fun d => wf_sample _ _ _ _ _ _ _ Hwf p r d Hvalid Hp Hr) as Hproj.
  assert (F64.valid x) as Hvx.
  { rewrite Forall_forall in Hangles. apply Hangles.
    apply load_Some in Hx as [_ Hx]. by eapply list_elem_of_lookup_2. }
  destruct (Hproj idx ltac:(lia)) as (v0 & Hv0 & Hvalid0).
  destruct (Hproj (idx + 1) ltac:(lia)) as (v1 & Hv1 & Hvalid1).
  exists v0, v1. eexists. split; [exact Hv0|]. split; [exact Hv1|].
  rewrite (Hval p r j Hp Hr Hj). unfold Spec.sample, Spec.select.
  rewrite Hx. change (Some ?y ≫= ?f) with (f y). cbv beta.
  rewrite (cast_int_exact _ _ Hidx). cbv zeta.
  destruct (Z.ltb_spec idx 0); [lia|].
  destruct (Z.leb_spec (orig_num_detectors - 1) idx); [lia|].
  rewrite Hv0, Hv1.
  change (Some v0 ≫= ?f) with (f v0). cbv beta.
  change (Some v1 ≫= ?f) with (f v1). cbv beta.
  split; [reflexivity|].
  intros Hf0 Hf1. cbv zeta.
  destruct (fractional_weight x idx Hvx Hidx) as [Ht HT].
  destruct (weight_exact x idx Hvx Hidx ltac:(lia)) as [_ Hexact].
  pose proof (blend_roundings (F64.sub x (F64.of_int idx)) v0 v1 Ht HT
                (conj Hf0 Hvalid0) (conj Hf1 Hvalid1)) as Herr.
  cbv zeta in Herr.
  destruct (blend_between (F64.sub x (F64.of_int idx)) v0 v1 Ht HT
              (conj Hf0 Hvalid0) (conj Hf1 Hvalid1)) as [Ho _].
  cbv zeta in Ho. rewrite (number32_scaled _ Ho) in Herr.
  rewrite Hexact in Herr.
  set (o := F64.to_single _) in *.
  set (T := scaled_at (-1074) x - idx * 2 ^ 1074) in *.
  set (F0 := F32.scaled v0) in *. set (F1 := F32.scaled v1) in *.
  set (M := Z.max (Z.abs F0) (Z.abs F1)) in *.
  clearbody T F0 F1 M. clear - Herr.
  assert (2 ^ 1126 = 2 ^ 1074 * 2 ^ 52) as Hsplit by reflexivity.
  assert (2 ^ 1171 = 2 ^ 45 * 2 ^ 1074 * 2 ^ 52) as Hsplit' by reflexivity.
  rewrite Hsplit, Hsplit' in Herr.
  set (ONE := 2 ^ 1074) in *. clearbody ONE.
  replace (F32.scaled o * (ONE * 2 ^ 52)
           - ((ONE - T) * (F0 * 2 ^ 52) + T * (F1 * 2 ^ 52)))
    with ((F32.scaled o * ONE - ((ONE - T) * F0 + T * F1)) * 2 ^ 52) in Herr
    by lia.
  rewrite Z.abs_mul, (Z.abs_eq (2 ^ 52)) in Herr by lia.
  set (e := Z.abs (F32.scaled o * ONE - ((ONE - T) * F0 + T * F1))) in *.
  clearbody e.
  apply (Z.mul_le_mono_pos_r _ _ (2 ^ 52)); [lia|]. lia.
Qed.

Lemma interpolation_error_bound_witness :
  exists out',
    Flattening.interpolation_loop Examples.proj Examples.normalized_angles
      1 2 4 3 Examples.sentinel = Some out'
    /\ forall p r j x idx,
         0 <= p < 1 -> 0 <= r < 2 -> 0 <= j < 3 ->
         load Examples.normalized_angles j = Some x ->
         F64.to_int (F64.floor x) = Some idx ->
         0 <= idx < 4 - 1 ->
         exists v0 v1 o,
           Spec.proj_at Examples.proj 2 4 p r idx = Some v0
           /\ Spec.proj_at Examples.proj 2 4 p r (idx + 1) = Some v1
           /\ load out' (Spec.out_index 2 3 p r j) = Some o
           /\ (is_finite v0 = true -> is_finite v1 = true ->
               let T := scaled_at (-1074) x - idx * 2 ^ 1074 in
               2 ^ 45 * Z.abs (F32.scaled o * 2 ^ 1074
                               - ((2 ^ 1074 - T) * F32.scaled v0
                                  + T * F32.scaled v1))
               <= ((2 ^ 21 + 1)
                   * Z.max (Z.abs (F32.scaled v0)) (Z.abs (F32.scaled v1))
                   + 2 ^ 45) * 2 ^ 1074).
Proof.
  exact (interpolation_error_bound _ _ _ _ _ _ _ example_well_formed
           example_proj_valid example_angles_valid).
Defined.

(** X15.  The range of a row is kept: on well-formed inputs whose table
    entries are binary64 values and whose samples are binary32 values, if
    every sample of input row [(p, r)] is finite and within [[lo, hi]],
    then every element of output row [(p, r)] is finite and within
    [[lo, hi]] (in particular, non-negative rows stay non-negative). *)
Theorem row_range_preserved
    (proj : list float32) (normalized_angles : list float64)
    (num_proj num_rows orig_num_detectors num_cols : Z) (out : list float32) :
  Spec.well_formed proj normalized_angles num_proj num_rows
    orig_num_detectors num_cols out ->
  Forall F32.valid proj ->
  Forall F64.valid normalized_angles ->
  exists out',
    Flattening.interpolation_loop proj normalized_angles num_proj num_rows
      orig_num_detectors num_cols out = Some out'
    /\ forall p r lo hi,
         0 <= p < num_proj -> 0 <= r < num_rows ->
         (forall d v,
            0 <= d < orig_num_detectors ->
            Spec.proj_at proj num_rows orig_num_detectors p r d = Some v ->
            is_finite v = true /\ lo <= F32.scaled v <= hi) ->
         forall j, 0 <= j < num_cols ->
           exists o,
             load out' (Spec.out_index num_rows num_cols p r j) = Some o
             /\ is_finite o = true /\ lo <= F32.scaled o <= hi.
Proof.
  intros Hwf Hvalid Hangles.
  destruct (wf_kernel _ _ _ _ _ _ _ Hwf) as (out' & Hrun & _ & Hval & _).
  exists out'. split; [exact Hrun|]. intros p r lo hi Hp Hr Hrow j Hj.
  destruct (wf_extents _ _ _ _ _ _ _ Hwf p r Hp Hr) as (HD & _ & _ & HDb & Hpc).
  assert (forall d, 0 <= d < orig_num_detectors ->
            exists v, Spec.proj_at proj num_rows orig_num_detectors p r d = Some v
                      /\ F32.valid v /\ is_finite v = true
                      /\ lo <= F32.scaled v <= hi) as Hproj.
  { intros d Hd.
    destruct (wf_sample _ _ _ _ _ _ _ Hwf p r d Hvalid Hp Hr Hd) as (v & Hv & Hvv).
    exists v. split; [done|]. split; [done|]. by apply (Hrow d). }
  destruct (wf_angle _ _ _ _ _ _ _ Hwf j Hj) as (x & Hx).
  pose proof (load_Forall _ _ _ _ Hangles Hx) as Hvx.
  rewrite (Hval p r j Hp Hr Hj). unfold Spec.sample, Spec.select.
  rewrite Hx. change (Some ?y ≫= ?f) with (f y). cbv beta.
  destruct (F64.to_int (F64.floor x)) as [idx|] eqn:Hidx.
  2:{ rewrite (cast_int_indefinite _ Hidx). cbv zeta.
      change (Int32.min_signed <? 0) with true. cbv iota.
      destruct (Hproj 0 ltac:(lia)) as (v & Hv & _ & Hfin & Hb). by exists v. }
  rewrite (cast_int_exact _ _ Hidx). cbv zeta.
  destruct (Z.ltb_spec idx 0).
  { destruct (Hproj 0 ltac:(lia)) as (v & Hv & _ & Hfin & Hb). by exists v. }
  destruct (Z.leb_spec (orig_num_detectors - 1) idx).
  { destruct (Hproj (orig_num_detectors - 1) ltac:(lia)) as (v & Hv & _ & Hfin & Hb).
    by exists v. }
  destruct (Hproj idx ltac:(lia)) as (v0 & Hv0 & Hvalid0 & Hf0 & Hb0).
  destruct (Hproj (idx + 1) ltac:(lia)) as (v1 & Hv1 & Hvalid1 & Hf1 & Hb1).
  rewrite Hv0, Hv1.
  change (Some v0 ≫= ?f) with (f v0). cbv beta.
  change (Some v1 ≫= ?f) with (f v1). cbv beta.
  eexists. split; [reflexivity|].
  destruct (kernel_blend_between x idx v0 v1 Hvx Hidx Hvalid0 Hvalid1 Hf0 Hf1)
    as [[Hfin _] Hbetween].
  split; [exact Hfin | lia].
Qed.

Lemma row_range_preserved_witness :
  exists out',
    Flattening.interpolation_loop Examples.proj Examples.normalized_angles
      1 2 4 3 Examples.sentinel = Some out'
    /\ forall p r lo hi,
         0 <= p < 1 -> 0 <= r < 2 ->
         (forall d v,
            0 <= d < 4 -> Spec.proj_at Examples.proj 2 4 p r d = Some v ->
            is_finite v = true /\ lo <= F32.scaled v <= hi) ->
         forall j, 0 <= j < 3 ->
           exists o,
             load out' (Spec.out_index 2 3 p r j) = Some o
             /\ is_finite o = true /\ lo <= F32.scaled o <= hi.
Proof.
  exact (row_range_preserved _ _ _ _ _ _ _ example_well_formed
           example_proj_valid example_angles_valid).
Defined.

